(** * eth-eventlog: block slices, reorg reconciliation, replay and snapshot codec

    A shallow embedding of the Go package [events] (blockslice.go, events.go,
    chainstreamer.go, inmemory.go and the LiveEventLog of the examples), with
    the properties its specification states about it, and further properties
    of the code: the algebra of block slices, what a batch does to the
    streamer and to a subscriber's log, [GetLogs] and [AddTransactionData]
    against a node, and the codec outside the round trip.

    Conventions.
    - A Go [uint64] is a [Z]; every arithmetic operation of the source is
      written with its wrap-around ([add64], [sub64]).
    - A Go slice is a [list]; a nil slice and an empty slice are the same list.
    - A method with a pointer receiver that returns [error] becomes a function
      to [result]: [Ok] carries the receiver after the call, [Fail] the error
      (every such method of the source checks before it mutates, so the
      receiver is unchanged on [Fail]); [Panic] is a run-time panic. *)

From Stdlib Require Import String Ascii Strings.Byte.
From Stdlib Require Import ZArith List Bool Lia Sorted.
Import ListNotations.
Open Scope Z_scope.

(* ================================================================= *)
(** * Definitions *)
(* ================================================================= *)

(** ** Unsigned 64-bit arithmetic *)

Definition uint64_modulus : Z := 2 ^ 64.

Definition is_uint64 (z : Z) : Prop := 0 <= z < uint64_modulus.

Definition wrap64 (z : Z) : Z := z mod uint64_modulus.

Definition add64 (a b : Z) : Z := wrap64 (a + b).

Definition sub64 (a b : Z) : Z := wrap64 (a - b).

(** ** Errors and results *)

(** One constructor per [fmt.Errorf] site of the source, with the values the
    message is formatted from; [Canceled] is the sentinel of events.go and
    [ErrTransport] stands for whatever the RPC client returns. *)
Inductive error : Type :=
| ErrAppendBelowEnd (got want : Z)
| ErrConcatStart (got want : Z)
| ErrRollbackAboveEnd (n want : Z)
| ErrRollbackBelowStart (n want : Z)
| ErrExtendBelowEnd (n want : Z)
| ErrNewEndsBeforeOld (newStart newEnd oldStart oldEnd : Z)
| ErrStreamBelowFirst (got want : Z)
| ErrUnexpectedRollback
| ErrInvalidAddress
| ErrParseBigInt (s : string)
| ErrTransport (code : Z)
| Canceled.

Inductive result (A : Type) : Type :=
| Ok (a : A)
| Fail (e : error)
| Panic.

Arguments Ok {A} a.
Arguments Fail {A} e.
Arguments Panic {A}.

Definition rbind {A B : Type} (r : result A) (k : A -> result B) : result B :=
  match r with
  | Ok a => k a
  | Fail e => Fail e
  | Panic => Panic
  end.

(** ** go-ethereum's fixed-size byte arrays *)

Module common.

Definition AddressLength : nat := 20.
Definition HashLength : nat := 32.

(** Modelled from the spec: go-ethereum's [common] package is not part of the
    sources.  An address is 20 bytes and a hash 32 bytes ([[20]byte] and
    [[32]byte] in Go; here the length is stated by [wf_Address] and
    [wf_Hash]), and bytes are turned into a hash or an address right-aligned,
    padded or truncated on the left. *)
Definition Address : Type := list byte.
Definition Hash : Type := list byte.

Definition wf_Address (a : Address) : Prop := length a = AddressLength.
Definition wf_Hash (h : Hash) : Prop := length h = HashLength.

(** [SetBytes]: keep the last [n] bytes of a longer input, left-pad a shorter
    one with zeros. *)
Definition set_bytes (n : nat) (b : list byte) : list byte :=
  let b' := skipn (length b - n) b in
  repeat x00 (n - length b') ++ b'.

Definition BytesToAddress (b : list byte) : Address := set_bytes AddressLength b.
Definition BytesToHash (b : list byte) : Hash := set_bytes HashLength b.

(** [Bytes()] returns the array as a slice. *)
Definition Bytes (a : list byte) : list byte := a.

End common.

(** [bytes.Equal] *)
Fixpoint bytes_Equal (a b : list byte) : bool :=
  match a, b with
  | [], [] => true
  | x :: a', y :: b' => Byte.eqb x y && bytes_Equal a' b'
  | _, _ => false
  end.

(** ** Events, blocks and block slices (events.go, blockslice.go) *)

Record Event : Type := {
  Address : common.Address;
  Topics : list common.Hash;
  Data : list byte;
  BlockNumber : Z;
  BlockHash : common.Hash;
  Index : Z;
  TxHash : common.Hash;
  TxIndex : Z;
  TxData : list byte;
  TxValue : option Z;          (* *big.Int, nil is None *)
  TxFrom : common.Address;
  TxGas : Z
}.

Record Block : Type := {
  Number : Z;
  Hash : common.Hash;
  Events : list Event
}.

Record BlockSlice : Type := {
  Start : Z;
  End_ : Z;
  DistanceFromHead : Z;
  Blocks : list Block
}.

Definition EmptyBlockSlice (from : Z) : BlockSlice :=
  {| Start := from; End_ := from; DistanceFromHead := 0; Blocks := [] |}.

Module BlockSlice.

Definition Append (blk : Block) (b : BlockSlice) : result BlockSlice :=
  if Number blk <? End_ b then Fail (ErrAppendBelowEnd (Number blk) (End_ b))
  else Ok {| Start := Start b;
             End_ := add64 (Number blk) 1;
             DistanceFromHead := 0;
             Blocks := Blocks b ++ [blk] |}.

Definition Concat (other : BlockSlice) (b : BlockSlice) : result BlockSlice :=
  if negb (End_ b =? Start other) then Fail (ErrConcatStart (Start other) (End_ b))
  else Ok {| Start := Start b;
             End_ := End_ other;
             DistanceFromHead := DistanceFromHead other;
             Blocks := Blocks b ++ Blocks other |}.

(** The loop of [DeleteBeforeBlock]: the first index whose block has
    [Number >= n], or the length when there is none. *)
Fixpoint scan_up (n : Z) (bs : list Block) : nat :=
  match bs with
  | [] => O
  | blk :: rest => if n <=? Number blk then O else S (scan_up n rest)
  end.

Definition DeleteBeforeBlock (n : Z) (b : BlockSlice) : BlockSlice :=
  {| Start := n;
     End_ := End_ b;
     DistanceFromHead := DistanceFromHead b;
     Blocks := skipn (scan_up n (Blocks b)) (Blocks b) |}.

(** The loop of [DeleteFromBlock], run downwards from index [k - 1]: the
    result is [i + 1] for the index [i] the loop stops at ([0] when it runs
    off the front, where the source has [i = -1]). *)
Fixpoint scan_down (n : Z) (bs : list Block) (k : nat) : nat :=
  match k with
  | O => O
  | S i =>
      match nth_error bs i with
      | Some blk => if Number blk <? n then S i else scan_down n bs i
      | None => scan_down n bs i
      end
  end.

Definition DeleteFromBlock (n : Z) (b : BlockSlice) : BlockSlice :=
  {| Start := Start b;
     End_ := n;
     DistanceFromHead := sub64 (DistanceFromHead b) (sub64 (End_ b) n);
     Blocks := firstn (scan_down n (Blocks b) (length (Blocks b))) (Blocks b) |}.

Definition Rollback (n : Z) (b : BlockSlice) : result BlockSlice :=
  if End_ b <? n then Fail (ErrRollbackAboveEnd n (End_ b))
  else if n <? Start b then Fail (ErrRollbackBelowStart n (Start b))
  else Ok (DeleteFromBlock n b).

Definition Extend (n : Z) (b : BlockSlice) : result BlockSlice :=
  if n <? End_ b then Fail (ErrExtendBelowEnd n (End_ b))
  else Ok {| Start := Start b;
             End_ := n;
             DistanceFromHead := DistanceFromHead b;
             Blocks := Blocks b |}.

(** The invariants of the data model: a half-open window [[Start, End)] of
    unsigned 64-bit numbers, blocks strictly increasing in [Number] and all
    inside the window. *)
Definition increasing (bs : list Block) : Prop :=
  StronglySorted (fun x y => Number x < Number y) bs.

Record valid (b : BlockSlice) : Prop := {
  valid_Start : is_uint64 (Start b);
  valid_End : is_uint64 (End_ b);
  valid_Distance : is_uint64 (DistanceFromHead b);
  valid_window : Start b <= End_ b;
  valid_increasing : increasing (Blocks b);
  valid_inside : Forall (fun blk => Start b <= Number blk < End_ b) (Blocks b)
}.

(** What the specification promises for the freshness hint after
    [Rollback n]: the old value less [old_end - n], stopping at zero. *)
Definition saturating_distance (b : BlockSlice) (n : Z) : Z :=
  Z.max 0 (DistanceFromHead b - (End_ b - n)).

End BlockSlice.

(** ** Messages and subscriptions (events.go) *)

Inductive Action : Type := Append | Rollback | SetNext.

Record Message : Type := {
  MsgAction : Action;
  MsgNumber : Z;
  MsgBlock : option Block
}.

Definition AppendMsg (blk : Block) : Message :=
  {| MsgAction := Append; MsgNumber := 0; MsgBlock := Some blk |}.

Definition RollbackMsg (n : Z) : Message :=
  {| MsgAction := Rollback; MsgNumber := n; MsgBlock := None |}.

Definition SetNextMsg (n : Z) : Message :=
  {| MsgAction := SetNext; MsgNumber := n; MsgBlock := None |}.

(** The [done] channel as one producer task sees it.  [None]: it is never
    closed.  [Some k]: the task gets through [k] suspension points (sends and
    sleeps) and takes the [<-done] branch of the [select] at the next one.
    A task returns at the first [Canceled], so this covers every schedule. *)
Definition Done : Type := option nat.

(** The message channel with its [done]: what was received from it so far. *)
Record Chan : Type := {
  sent : list Message;
  done : Done
}.

Definition sendOrDone (m : Message) (ch : Chan) : result unit * Chan :=
  match done ch with
  | Some O => (Fail Canceled, ch)
  | Some (S k) => (Ok tt, {| sent := sent ch ++ [m]; done := Some k |})
  | None => (Ok tt, {| sent := sent ch ++ [m]; done := None |})
  end.

Definition waitOrDone (ch : Chan) : result unit * Chan :=
  match done ch with
  | Some O => (Fail Canceled, ch)
  | Some (S k) => (Ok tt, {| sent := sent ch; done := Some k |})
  | None => (Ok tt, ch)
  end.

(** What the consumer finds on the error channel: nothing yet, one posted
    value ([None] is a nil error), or a task that died in a panic. *)
Inductive terminal : Type :=
| Pending
| Posted (e : option error)
| Crashed.

Record Subscription : Type := {
  C : list Message;
  Err : terminal
}.

(** ** Producer tasks: state and errors threaded through the calls *)

Definition Task (S A : Type) : Type := S -> result A * S.

Definition ret {S A : Type} (a : A) : Task S A := fun s => (Ok a, s).

Definition bind {S A B : Type} (m : Task S A) (k : A -> Task S B) : Task S B :=
  fun s =>
    match m s with
    | (Ok a, s') => k a s'
    | (Fail e, s') => (Fail e, s')
    | (Panic, s') => (Panic, s')
    end.

Definition get {S : Type} : Task S S := fun s => (Ok s, s).

Definition modify {S : Type} (f : S -> S) : Task S unit := fun s => (Ok tt, f s).

Definition lift {S A : Type} (r : result A) : Task S A := fun s => (r, s).

Declare Scope task_scope.
Delimit Scope task_scope with task.

Notation "x <- m ;; k" := (bind m (fun x => k))
  (at level 61, m at next level, right associativity) : task_scope.

Notation "m ;; k" := (bind m (fun _ => k))
  (at level 61, right associativity) : task_scope.

Open Scope task_scope.

Fixpoint for_each {S A : Type} (l : list A) (body : A -> Task S unit) : Task S unit :=
  match l with
  | [] => ret tt
  | x :: rest => body x ;; for_each rest body
  end.

Definition terminal_of (r : result unit) : terminal :=
  match r with
  | Ok _ => Pending
  | Fail e => Posted (Some e)
  | Panic => Crashed
  end.

(** ** Reconciliation (events.go) *)

(** The loop of [MatchBlocks] from index [i] on: [obs] is [o.Blocks[i:]],
    [nbs] is the whole of [new.Blocks], indexed without a bounds check. *)
Fixpoint match_loop (obs nbs : list Block) (i : nat) (lastGoodBlock : Z)
  : result (bool * Z) :=
  match obs with
  | [] => Ok (true, lastGoodBlock)
  | ob :: rest =>
      match nth_error nbs i with
      | None => Panic
      | Some nb =>
          if negb (bytes_Equal (common.Bytes (Hash ob)) (common.Bytes (Hash nb)))
          then Ok (false, lastGoodBlock)
          else match_loop rest nbs (S i) (Number nb)
      end
  end.

Definition MatchBlocks (new old : BlockSlice) : result (bool * Z) :=
  if End_ new <? End_ old
  then Fail (ErrNewEndsBeforeOld (Start new) (End_ new) (Start old) (End_ old))
  else
    let o := BlockSlice.DeleteBeforeBlock (Start new) old in
    match_loop (Blocks o) (Blocks new) O 0.

(** ** The filter (go-ethereum's [ethereum.FilterQuery]) *)

Module ethereum.

(** Modelled from the spec: the type is go-ethereum's and not part of the
    sources.  These are the four fields of the data model, the only ones this
    package reads or writes; an omitted bound is [None]. *)
Record FilterQuery : Type := {
  FromBlock : option Z;        (* *big.Int *)
  ToBlock : option Z;          (* *big.Int *)
  Addresses : list common.Address;
  Topics : list (list common.Hash)
}.

End ethereum.

(** ** The log source *)

(** Modelled from the spec: the RPC endpoint behind [GetLogs], an external
    collaborator (the [LogSource]).  [responses] is what the [k]-th call
    returns for a query (the normalized slice over the range, or an error),
    [dialError] what dialling returns, and [calls] the queries made so far. *)
Record Client : Type := {
  dialError : option error;
  responses : nat -> ethereum.FilterQuery -> bool -> result BlockSlice;
  calls : list ethereum.FilterQuery
}.

Definition GetLogs (q : ethereum.FilterQuery) (fetchTxDetails : bool) (cl : Client)
  : result BlockSlice * Client :=
  (responses cl (length (calls cl)) q fetchTxDetails,
   {| dialError := dialError cl;
      responses := responses cl;
      calls := calls cl ++ [q] |}).

(** ** ChainStreamer (chainstreamer.go) *)

Definition DefaultBatchOverlap : Z := 10.
Definition DefaultFetchBatchSize : Z := 2000.
Definition MaxEventlogSize : Z := 1024.

Module ChainStreamer.

Record t : Type := {
  Filter : ethereum.FilterQuery;
  FetchBatchSize : Z;
  BatchOverlap : Z;
  FetchTxDetails : bool
}.

Record chainStreamer : Type := {
  filter : ethereum.FilterQuery;
  chan : Chan;                 (* c and done *)
  client : Client;
  history : BlockSlice;
  next : Z;
  from : Z;
  fetchBatchSize : Z;
  batchOverlap : Z;
  fetchTxDetails : bool
}.

Definition with_chan (ch : Chan) (cs : chainStreamer) : chainStreamer :=
  {| filter := filter cs; chan := ch; client := client cs;
     history := history cs; next := next cs; from := from cs;
     fetchBatchSize := fetchBatchSize cs; batchOverlap := batchOverlap cs;
     fetchTxDetails := fetchTxDetails cs |}.

Definition with_client (cl : Client) (cs : chainStreamer) : chainStreamer :=
  {| filter := filter cs; chan := chan cs; client := cl;
     history := history cs; next := next cs; from := from cs;
     fetchBatchSize := fetchBatchSize cs; batchOverlap := batchOverlap cs;
     fetchTxDetails := fetchTxDetails cs |}.

Definition with_history (h : BlockSlice) (cs : chainStreamer) : chainStreamer :=
  {| filter := filter cs; chan := chan cs; client := client cs;
     history := h; next := next cs; from := from cs;
     fetchBatchSize := fetchBatchSize cs; batchOverlap := batchOverlap cs;
     fetchTxDetails := fetchTxDetails cs |}.

Definition with_next (n : Z) (cs : chainStreamer) : chainStreamer :=
  {| filter := filter cs; chan := chan cs; client := client cs;
     history := history cs; next := n; from := from cs;
     fetchBatchSize := fetchBatchSize cs; batchOverlap := batchOverlap cs;
     fetchTxDetails := fetchTxDetails cs |}.

Definition makeChainStreamer (cl : Client) (d : Done) (from_ : Z) (cr : t)
  : result chainStreamer :=
  let bo := if BatchOverlap cr =? 0 then DefaultBatchOverlap else BatchOverlap cr in
  let fbs := if FetchBatchSize cr =? 0 then DefaultFetchBatchSize else FetchBatchSize cr in
  match dialError cl with
  | Some e => Fail e
  | None =>
      Ok {| filter := Filter cr;
            chan := {| sent := []; done := d |};
            client := cl;
            history := EmptyBlockSlice from_;
            next := from_;
            from := from_;
            fetchBatchSize := fbs;
            batchOverlap := bo;
            fetchTxDetails := FetchTxDetails cr |}
  end.

Definition send (m : Message) : Task chainStreamer unit :=
  fun cs => let (r, ch) := sendOrDone m (chan cs) in (r, with_chan ch cs).

Definition wait : Task chainStreamer unit :=
  fun cs => let (r, ch) := waitOrDone (chan cs) in (r, with_chan ch cs).

Definition fetch (from_ : Z) : Task chainStreamer BlockSlice :=
  fun cs =>
    let batchSize := if fetchBatchSize cs =? 0 then 2000 else fetchBatchSize cs in
    let to := sub64 (add64 from_ batchSize) 1 in
    let q := {| ethereum.FromBlock := Some from_;
                ethereum.ToBlock := Some to;
                ethereum.Addresses := ethereum.Addresses (filter cs);
                ethereum.Topics := ethereum.Topics (filter cs) |} in
    let (r, cl) := GetLogs q (fetchTxDetails cs) (client cs) in
    (r, with_client cl cs).

(** The block to roll back to when reconciliation has failed after
    [lastGoodBlock]: the two assignments of [process] that lead to
    [cs.next]. *)
Definition rollback_point (from_ lastGoodBlock : Z) : Z :=
  let lastGoodBlock :=
    if add64 lastGoodBlock 1 <? from_ then sub64 from_ 1 else lastGoodBlock in
  add64 lastGoodBlock 1.

(** Step 1 of [process]: compare the batch with the history and, on a
    mismatch, roll back and say so.  The result tells whether [process] goes
    on to emit ([false] is its early [return nil]). *)
Definition reconcile (b : BlockSlice) : Task chainStreamer bool :=
  cs <- get ;;
  m <- lift (MatchBlocks b (history cs)) ;;
  if fst m then ret true
  else
    let next_ := rollback_point (from cs) (snd m) in
    modify (with_next next_) ;;
    h <- lift (BlockSlice.Rollback next_ (history cs)) ;;
    modify (with_history h) ;;
    send (RollbackMsg next_) ;;
    ret (negb (next_ <? Start b)).

(** Steps 2 to 4 of [process]: trim the overlap, extend and cap the history,
    send the blocks and the new cursor.  The batch is returned as trimmed:
    the source trims [b] through its pointer, and [run] reads
    [b.DistanceFromHead] afterwards. *)
Definition emit (b : BlockSlice) : Task chainStreamer BlockSlice :=
  cs <- get ;;
  let b' := BlockSlice.DeleteBeforeBlock (next cs) b in
  h <- lift (BlockSlice.Concat b' (history cs)) ;;
  modify (with_history
            (if MaxEventlogSize <=? End_ h
             then BlockSlice.DeleteBeforeBlock (sub64 (End_ h) MaxEventlogSize) h
             else h)) ;;
  for_each (Blocks b') (fun blk => send (AppendMsg blk)) ;;
  modify (with_next (End_ b')) ;;
  send (SetNextMsg (End_ b')) ;;
  ret b'.

Definition process (b : BlockSlice) : Task chainStreamer BlockSlice :=
  proceed <- reconcile b ;;
  if proceed : bool then emit b else ret b.

(** One turn of the loop of [run]. *)
Definition iteration : Task chainStreamer unit :=
  cs <- get ;;
  let from_ :=
    if next cs <? add64 (from cs) (batchOverlap cs) then from cs
    else sub64 (next cs) (batchOverlap cs) in
  b <- fetch from_ ;;
  b' <- process b ;;
  if DistanceFromHead b' =? 0 then wait else ret tt.

(** [run] for [fuel] turns.  The loop of the source has no exit but an error:
    [Ok tt] only says that the task is still polling after [fuel] turns. *)
Fixpoint run (fuel : nat) : Task chainStreamer unit :=
  match fuel with
  | O => ret tt
  | S fuel' => iteration ;; run fuel'
  end.

Definition Stream (cl : Client) (fuel : nat) (d : Done) (from_ : Z) (cr : t)
  : result Subscription :=
  match makeChainStreamer cl d from_ cr with
  | Ok cs =>
      let (r, cs') := run fuel cs in
      Ok {| C := sent (chan cs'); Err := terminal_of r |}
  | Fail e => Fail e
  | Panic => Panic
  end.

End ChainStreamer.

(** ** Arbitrary-precision integers (Go's [math/big]) *)

Module big.

(** Modelled from the spec: Go's [math/big] is not part of the sources.  The
    codec writes an integer as hexadecimal text after [0x] and reads decimal
    or [0x]-prefixed text.  A [*big.Int] is a [Z]; [Text] and [SetString0]
    follow the documentation of [Int.Text] and of [Int.SetString] with base 0:
    an optional sign, then a base prefix ([0x], [0b], [0o] or a bare [0] for
    octal; decimal without one), then digits, which [_] may separate. *)

Definition digit_char (d : Z) : ascii :=
  if d <? 10 then ascii_of_nat (48 + Z.to_nat d)
  else ascii_of_nat (87 + Z.to_nat d).

Definition digit_value (c : ascii) : option Z :=
  let n := Z.of_nat (nat_of_ascii c) in
  if (48 <=? n) && (n <=? 57) then Some (n - 48)
  else if (97 <=? n) && (n <=? 122) then Some (n - 87)
  else if (65 <=? n) && (n <=? 90) then Some (n - 55)
  else None.

(** The digits of [n], least significant first. *)
Fixpoint digits_le (fuel : nat) (base n : Z) : list Z :=
  match fuel with
  | O => []
  | S fuel' =>
      if n <? base then [n]
      else (n mod base) :: digits_le fuel' base (n / base)
  end.

Definition digits (base n : Z) : list Z :=
  rev (digits_le (S (Z.to_nat (Z.log2 n))) base n).

Fixpoint string_of_digits (ds : list Z) : string :=
  match ds with
  | [] => EmptyString
  | d :: rest => String (digit_char d) (string_of_digits rest)
  end.

Definition Text (base : Z) (x : Z) : string :=
  ((if (x <? 0)%Z then "-" else "") ++ string_of_digits (digits base (Z.abs x)))%string.

(** The token before the current character: a digit (or the base prefix), a
    separator, or anything else. *)
Inductive token : Type := TDigit | TSep | TOther.

Fixpoint scan (b : Z) (s : string) (acc : Z) (count : nat) (prev : token)
  : option (Z * nat) :=
  match s with
  | EmptyString =>
      match prev with
      | TSep => None
      | _ => Some (acc, count)
      end
  | String ch rest =>
      if Ascii.eqb ch "_" then
        match prev with
        | TDigit => scan b rest acc count TSep
        | _ => None
        end
      else
        match digit_value ch with
        | Some d =>
            if d <? b then scan b rest (acc * b + d) (S count) TDigit else None
        | None => None
        end
  end.

Definition is_char (c : ascii) (lower upper : ascii) : bool :=
  Ascii.eqb c lower || Ascii.eqb c upper.

Definition scan_base0 (m : string) : option (Z * nat) :=
  match m with
  | String "0" EmptyString => Some (0, 1%nat)
  | String "0" (String c rest) =>
      if is_char c "x" "X" then scan 16 rest 0 O TDigit
      else if is_char c "b" "B" then scan 2 rest 0 O TDigit
      else if is_char c "o" "O" then scan 8 rest 0 O TDigit
      else scan 8 (String c rest) 0 O TDigit
  | _ => scan 10 m 0 O TOther
  end.

Definition SetString0 (s : string) : option Z :=
  let (neg, m) :=
    match s with
    | String "-" r => (true, r)
    | String "+" r => (false, r)
    | _ => (false, s)
    end in
  match scan_base0 m with
  | Some (v, S _) => Some (if neg : bool then - v else v)
  | _ => None
  end.

(** [Int.Uint64]: the low 64 bits of the magnitude. *)
Definition Uint64 (x : Z) : Z := wrap64 (Z.abs x).

End big.

(** ** The wire schema (events.proto) *)

Module epb.

Record Event : Type := {
  Address : list byte;
  Topics : list (list byte);
  Data : list byte;
  BlockNumber : Z;
  BlockHash : list byte;
  Index : Z;
  TxHash : list byte;
  TxIndex : Z;
  TxData : list byte;
  TxValue : string;
  TxFrom : list byte;
  TxGas : Z
}.

(** A repeated message field is a slice of pointers: an entry may be nil. *)
Record Block : Type := {
  Number : Z;
  Hash : list byte;
  Events : list (option Event)
}.

Record BlockSlice : Type := {
  Start : Z;
  End_ : Z;
  DistanceFromHead : Z;
  Blocks : list (option Block)
}.

Record FilterQuery_Topic : Type := {
  TopicData : list (list byte)
}.

Record FilterQuery : Type := {
  Addresses : list (list byte);
  FromBlock : string;
  ToBlock : string;
  FilterTopics : list (option FilterQuery_Topic)
}.

Record EventLogFile : Type := {
  Filter : option FilterQuery;
  FileBlockSlice : option BlockSlice
}.

End epb.

(** ** The snapshot codec (chainstreamer.go, second part) *)

(** Reading through a pointer: nil panics. *)
Definition deref {A B : Type} (p : option A) (k : A -> result B) : result B :=
  match p with
  | Some a => k a
  | None => Panic
  end.

(** A loop that fills a slice and returns at the first error. *)
Fixpoint map_result {A B : Type} (f : A -> result B) (l : list A) : result (list B) :=
  match l with
  | [] => Ok []
  | x :: rest =>
      rbind (f x) (fun y => rbind (map_result f rest) (fun ys => Ok (y :: ys)))
  end.

Definition BigIntFromString (s : string) : result (option Z) :=
  if String.eqb s "<nil>" || String.eqb s "" then Ok None
  else
    match big.SetString0 s with
    | Some x => Ok (Some x)
    | None => Fail (ErrParseBigInt s)
    end.

Definition BigIntToString (x : option Z) : string :=
  match x with
  | None => ""
  | Some v => ("0x" ++ big.Text 16 v)%string
  end.

Definition EventToProto (e : Event) : epb.Event :=
  {| epb.Address := common.Bytes (Address e);
     epb.Topics := map common.Bytes (Topics e);
     epb.Data := Data e;
     epb.BlockNumber := BlockNumber e;
     epb.BlockHash := common.Bytes (BlockHash e);
     epb.Index := Index e;
     epb.TxHash := common.Bytes (TxHash e);
     epb.TxIndex := TxIndex e;
     epb.TxData := TxData e;
     epb.TxValue := BigIntToString (TxValue e);
     epb.TxFrom := common.Bytes (TxFrom e);
     epb.TxGas := TxGas e |}.

Definition EventFromProto (pb : epb.Event) : result Event :=
  if negb (length (epb.Address pb) =? common.AddressLength)%nat
  then Fail ErrInvalidAddress
  else
    rbind (BigIntFromString (epb.TxValue pb)) (fun txValue =>
    Ok {| Address := common.BytesToAddress (epb.Address pb);
          Topics := map common.BytesToHash (epb.Topics pb);
          Data := epb.Data pb;
          BlockNumber := epb.BlockNumber pb;
          BlockHash := common.BytesToHash (epb.BlockHash pb);
          Index := epb.Index pb;
          TxHash := common.BytesToHash (epb.TxHash pb);
          TxIndex := epb.TxIndex pb;
          TxData := epb.TxData pb;
          TxValue := txValue;
          TxFrom := common.BytesToAddress (epb.TxFrom pb);
          TxGas := epb.TxGas pb |}).

Definition BlockToProto (b : Block) : epb.Block :=
  {| epb.Number := Number b;
     epb.Hash := common.Bytes (Hash b);
     epb.Events := map (fun e => Some (EventToProto e)) (Events b) |}.

Definition BlockFromProto (pb : epb.Block) : result Block :=
  rbind (map_result (fun pbe => deref pbe EventFromProto) (epb.Events pb)) (fun events =>
  Ok {| Number := epb.Number pb;
        Hash := common.BytesToHash (epb.Hash pb);
        Events := events |}).

(** The loop of [BlockSliceToProto]: it stops at the first block at or past
    [End], and the entries it has not reached stay nil. *)
Fixpoint blocks_to_proto (end_ : Z) (bs : list Block) : list (option epb.Block) :=
  match bs with
  | [] => []
  | b :: rest =>
      if end_ <=? Number b then repeat None (length bs)
      else Some (BlockToProto b) :: blocks_to_proto end_ rest
  end.

Definition BlockSliceToProto (bs : BlockSlice) : epb.BlockSlice :=
  {| epb.Start := Start bs;
     epb.End_ := End_ bs;
     epb.DistanceFromHead := DistanceFromHead bs;
     epb.Blocks := blocks_to_proto (End_ bs) (Blocks bs) |}.

Definition BlockSliceFromProto (pb : epb.BlockSlice) : result BlockSlice :=
  rbind (map_result (fun pbb => deref pbb BlockFromProto) (epb.Blocks pb)) (fun blocks =>
  Ok {| Start := epb.Start pb;
        End_ := epb.End_ pb;
        DistanceFromHead := epb.DistanceFromHead pb;
        Blocks := blocks |}).

Definition FilterQueryToProto (q : ethereum.FilterQuery) : epb.FilterQuery :=
  {| epb.Addresses := map common.Bytes (ethereum.Addresses q);
     epb.FromBlock := BigIntToString (ethereum.FromBlock q);
     epb.ToBlock := BigIntToString (ethereum.ToBlock q);
     epb.FilterTopics :=
       map (fun t => Some {| epb.TopicData := map common.Bytes t |}) (ethereum.Topics q) |}.

Definition FilterQueryFromProto (pb : epb.FilterQuery) : result ethereum.FilterQuery :=
  let addresses := map common.BytesToAddress (epb.Addresses pb) in
  rbind (map_result
           (fun pbt => deref pbt (fun t => Ok (map common.BytesToHash (epb.TopicData t))))
           (epb.FilterTopics pb)) (fun topics =>
  rbind (BigIntFromString (epb.FromBlock pb)) (fun fromBlock =>
  rbind (BigIntFromString (epb.ToBlock pb)) (fun toBlock =>
  Ok {| ethereum.FromBlock := fromBlock;
        ethereum.ToBlock := toBlock;
        ethereum.Addresses := addresses;
        ethereum.Topics := topics |}))).

(** ** The in-memory event log (inmemory.go) *)

Module InMemoryEventLog.

Record t : Type := {
  filter : ethereum.FilterQuery;
  blockSlice : BlockSlice
}.

Definition NewInMemoryEventLog (from : Z) (f : ethereum.FilterQuery) : t :=
  {| filter := f; blockSlice := EmptyBlockSlice from |}.

Definition FirstBlock (l : t) : Z := Start (blockSlice l).

Definition NextBlock (l : t) : Z := End_ (blockSlice l).

Definition Filter (l : t) : ethereum.FilterQuery := filter l.

Definition with_blockSlice (l : t) (b : BlockSlice) : t :=
  {| filter := filter l; blockSlice := b |}.

Definition Append (b : Block) (l : t) : result t :=
  rbind (BlockSlice.Append b (blockSlice l)) (fun s => Ok (with_blockSlice l s)).

Definition Rollback (n : Z) (l : t) : result t :=
  rbind (BlockSlice.Rollback n (blockSlice l)) (fun s => Ok (with_blockSlice l s)).

Definition SetNext (n : Z) (l : t) : result t :=
  rbind (BlockSlice.Extend n (blockSlice l)) (fun s => Ok (with_blockSlice l s)).

(** The producer task: replay of the stored blocks from [from] on. *)
Definition stream (from : Z) (l : t) : Task Chan unit :=
  let b := BlockSlice.DeleteBeforeBlock from (blockSlice l) in
  for_each (Blocks b) (fun blk => sendOrDone (AppendMsg blk)) ;;
  sendOrDone (SetNextMsg (NextBlock l)).

(** [Stream] starts the task whatever [from] is and returns a nil error. *)
Definition Stream (d : Done) (from : Z) (l : t) : result Subscription :=
  let (r, ch) := stream from l {| sent := []; done := d |} in
  Ok {| C := sent ch;
        Err := match r with
               | Ok _ => Posted None
               | Fail e => Posted (Some e)
               | Panic => Crashed
               end |}.

Definition ToProto (l : t) : epb.EventLogFile :=
  {| epb.Filter := Some (FilterQueryToProto (filter l));
     epb.FileBlockSlice := Some (BlockSliceToProto (blockSlice l)) |}.

End InMemoryEventLog.

Definition InMemoryEventLogFromProto (pb : epb.EventLogFile) : result InMemoryEventLog.t :=
  rbind (deref (epb.Filter pb) FilterQueryFromProto) (fun filter =>
  rbind (deref (epb.FileBlockSlice pb) BlockSliceFromProto) (fun blockSlice =>
  Ok {| InMemoryEventLog.filter := filter;
        InMemoryEventLog.blockSlice := blockSlice |})).

(** ** LiveEventLog: replay, then live polling *)

Module LiveEventLog.

Record t : Type := {
  eventlog : InMemoryEventLog.t;
  streamer : ChainStreamer.t
}.

Definition NewLiveEventLog (e : InMemoryEventLog.t) (s : ChainStreamer.t) : t :=
  {| eventlog := e; streamer := s |}.

(** The state of the forwarding task: the receiver [l], the outward channel
    and the local [nextBlock]. *)
Record state : Type := {
  self : t;
  out : Chan;
  nextBlock : Z
}.

Definition send (m : Message) : Task state unit :=
  fun st =>
    let (r, ch) := sendOrDone m (out st) in
    (r, {| self := self st; out := ch; nextBlock := nextBlock st |}).

Definition set_nextBlock (n : Z) : Task state unit :=
  modify (fun st => {| self := self st; out := out st; nextBlock := n |}).

Definition set_eventlog (e : InMemoryEventLog.t) : Task state unit :=
  modify (fun st =>
            {| self := {| eventlog := e; streamer := streamer (self st) |};
               out := out st; nextBlock := nextBlock st |}).

Definition set_Filter (f : ethereum.FilterQuery) : Task state unit :=
  modify (fun st =>
            {| self := {| eventlog := eventlog (self st);
                          streamer :=
                            {| ChainStreamer.Filter := f;
                               ChainStreamer.FetchBatchSize :=
                                 ChainStreamer.FetchBatchSize (streamer (self st));
                               ChainStreamer.BatchOverlap :=
                                 ChainStreamer.BatchOverlap (streamer (self st));
                               ChainStreamer.FetchTxDetails :=
                                 ChainStreamer.FetchTxDetails (streamer (self st)) |} |};
               out := out st; nextBlock := nextBlock st |}).

(** The terminal value of a sub-subscription, once its channel is drained. *)
Definition join (e : terminal) : Task state unit :=
  match e with
  | Posted (Some err) => lift (Fail err)
  | Posted None => ret tt
  | Pending => ret tt
  | Crashed => lift Panic
  end.

Definition replay_step (m : Message) : Task state unit :=
  match MsgAction m with
  | Rollback => lift (Fail ErrUnexpectedRollback)
  | Append =>
      match MsgBlock m with
      | Some blk => set_nextBlock (add64 (Number blk) 1) ;; send m
      | None => lift Panic
      end
  | SetNext => set_nextBlock (MsgNumber m) ;; send m
  end.

Definition live_step (m : Message) : Task state unit :=
  st <- get ;;
  match MsgAction m with
  | Append =>
      match MsgBlock m with
      | Some blk =>
          e <- lift (InMemoryEventLog.Append blk (eventlog (self st))) ;;
          set_eventlog e
      | None => lift Panic
      end
  | Rollback =>
      e <- lift (InMemoryEventLog.Rollback (MsgNumber m) (eventlog (self st))) ;;
      set_eventlog e
  | SetNext =>
      e <- lift (InMemoryEventLog.SetNext (MsgNumber m) (eventlog (self st))) ;;
      set_eventlog e
  end ;;
  send m.

(** The producer task.  The two sub-subscriptions share [done] with the
    caller; here the cancellation is observed at the forwarding send, and a
    sub-producer is drained as far as the forwarder gets. *)
Definition stream (cl : Client) (fuel : nat) (from : Z) : Task state unit :=
  set_nextBlock from ;;
  st <- get ;;
  elSub <- lift (InMemoryEventLog.Stream None (nextBlock st) (eventlog (self st))) ;;
  for_each (C elSub) replay_step ;;
  join (Err elSub) ;;
  st <- get ;;
  set_Filter (InMemoryEventLog.Filter (eventlog (self st))) ;;
  st <- get ;;
  chSub <- lift (ChainStreamer.Stream cl fuel None (nextBlock st) (streamer (self st))) ;;
  for_each (C chSub) live_step ;;
  join (Err chSub).

(** [Stream] with the receiver as the task leaves it.  A [from] below the
    first block of the log is refused before any task is started. *)
Definition Stream (cl : Client) (fuel : nat) (d : Done) (from : Z) (l : t)
  : result (Subscription * t) :=
  if from <? InMemoryEventLog.FirstBlock (eventlog l)
  then Fail (ErrStreamBelowFirst from (InMemoryEventLog.FirstBlock (eventlog l)))
  else
    let (r, st) :=
      stream cl fuel from {| self := l; out := {| sent := []; done := d |}; nextBlock := from |} in
    Ok ({| C := sent (out st); Err := terminal_of r |}, self st).

End LiveEventLog.

(** ** Well-formed snapshots *)

(** A [*big.Int] of the model: absent, or a natural number (a transaction
    value, a block number). *)
Definition wf_BigInt (x : option Z) : Prop :=
  match x with
  | None => True
  | Some v => 0 <= v
  end.

(** The array lengths that the Go types of an event fix. *)
Record wf_Event (e : Event) : Prop := {
  wf_Event_Address : common.wf_Address (Address e);
  wf_Event_Topics : Forall common.wf_Hash (Topics e);
  wf_Event_BlockHash : common.wf_Hash (BlockHash e);
  wf_Event_TxHash : common.wf_Hash (TxHash e);
  wf_Event_TxValue : wf_BigInt (TxValue e);
  wf_Event_TxFrom : common.wf_Address (TxFrom e)
}.

Record wf_Block (b : Block) : Prop := {
  wf_Block_Hash : common.wf_Hash (Hash b);
  wf_Block_Events : Forall wf_Event (Events b)
}.

Record wf_FilterQuery (q : ethereum.FilterQuery) : Prop := {
  wf_Filter_FromBlock : wf_BigInt (ethereum.FromBlock q);
  wf_Filter_ToBlock : wf_BigInt (ethereum.ToBlock q);
  wf_Filter_Addresses : Forall common.wf_Address (ethereum.Addresses q);
  wf_Filter_Topics : Forall (Forall common.wf_Hash) (ethereum.Topics q)
}.

(** A valid event-log file: a well-formed filter and a slice within its
    invariants, of well-formed blocks. *)
Record wf_EventLog (l : InMemoryEventLog.t) : Prop := {
  wf_EventLog_filter : wf_FilterQuery (InMemoryEventLog.filter l);
  wf_EventLog_slice : BlockSlice.valid (InMemoryEventLog.blockSlice l);
  wf_EventLog_blocks : Forall wf_Block (Blocks (InMemoryEventLog.blockSlice l))
}.

(** ** Relations between the states of a task *)

(** [keeps R t]: whatever [t] returns, it leaves the state [R]-related to the
    one it started in. *)
Definition keeps {S A : Type} (R : S -> S -> Prop) (t : Task S A) : Prop :=
  forall s, R s (snd (t s)).

(** The new state has the same configuration and the same messages followed
    by new ones, each of which satisfies [P]. *)
Definition emits (P : Message -> Prop) (cs cs' : ChainStreamer.chainStreamer) : Prop :=
  ChainStreamer.from cs' = ChainStreamer.from cs /\
  ChainStreamer.batchOverlap cs' = ChainStreamer.batchOverlap cs /\
  ChainStreamer.fetchBatchSize cs' = ChainStreamer.fetchBatchSize cs /\
  exists new,
    sent (ChainStreamer.chan cs') = sent (ChainStreamer.chan cs) ++ new /\
    Forall P new.

(** No call was made to the log source. *)
Definition same_client (cs cs' : ChainStreamer.chainStreamer) : Prop :=
  ChainStreamer.client cs' = ChainStreamer.client cs.

(** A [Rollback] message at or above [floor]; any other message. *)
Definition above (floor : Z) (m : Message) : Prop :=
  MsgAction m = Rollback -> floor <= MsgNumber m.

(** [hoare P t Q]: run from a state in [P], the task [t] ends with a result
    and in a state that [Q] relates. *)
Definition hoare {S A : Type} (P : S -> Prop) (t : Task S A)
           (Q : result A -> S -> Prop) : Prop :=
  forall s, P s -> Q (fst (t s)) (snd (t s)).

(** The state in which [process] leaves the streamer: a history within the
    slice invariants, and, when it returns without an error, a cursor at the
    end of the history; the error, if any, is not the one of [Concat]. *)
Definition settled {A : Type} (r : result A) (cs : ChainStreamer.chainStreamer) : Prop :=
  BlockSlice.valid (ChainStreamer.history cs) /\
  match r with
  | Ok _ => ChainStreamer.next cs = End_ (ChainStreamer.history cs)
  | Fail e => forall got want, e <> ErrConcatStart got want
  | Panic => True
  end.

(** ** Messages applied to a log *)

(** What the live phase of [LiveEventLog.stream] does to the log with one
    message, and with a list of them in order. *)
Definition apply_message (m : Message) (l : InMemoryEventLog.t)
  : result InMemoryEventLog.t :=
  match MsgAction m with
  | Append => deref (MsgBlock m) (fun blk => InMemoryEventLog.Append blk l)
  | Rollback => InMemoryEventLog.Rollback (MsgNumber m) l
  | SetNext => InMemoryEventLog.SetNext (MsgNumber m) l
  end.

Fixpoint apply_messages (ms : list Message) (l : InMemoryEventLog.t)
  : result InMemoryEventLog.t :=
  match ms with
  | [] => Ok l
  | m :: rest => rbind (apply_message m l) (apply_messages rest)
  end.

(** The numbers of a message leave room in 64 bits: a block number has a
    successor, a cursor is a [uint64]. *)
Definition fits (m : Message) : Prop :=
  match MsgAction m with
  | Append =>
      match MsgBlock m with
      | Some blk => Number blk < uint64_modulus - 1
      | None => True
      end
  | Rollback => True
  | SetNext => MsgNumber m < uint64_modulus
  end.

(** ** The node behind a fetch (events.go) *)

Module types.

(** Modelled from the spec: go-ethereum's [types.Log] and
    [types.Transaction] are not part of the sources.  These are the fields
    and the accessors ([Data()], [Value()], [Gas()]) that this package
    reads; [Index] and [TxIndex] are [uint], taken as 64 bits wide. *)
Record Log : Type := {
  Address : common.Address;
  Topics : list common.Hash;
  Data : list byte;
  BlockNumber : Z;
  BlockHash : common.Hash;
  Index : Z;
  TxHash : common.Hash;
  TxIndex : Z
}.

Record Transaction : Type := {
  txData : list byte;
  txValue : option Z;
  txGas : Z
}.

End types.

Module ethclient.

(** Modelled from the spec: the node reached over JSON-RPC, an external
    collaborator.  The record holds its answers during one call of the
    package: the head, the logs for a query, and the transaction lookups,
    which may differ from one lookup to the next (the [nat] is the number of
    [TransactionByHash] calls made before). *)
Record Client : Type := {
  BlockNumber : result Z;
  FilterLogs : ethereum.FilterQuery -> result (list types.Log);
  TransactionByHash : nat -> common.Hash -> result types.Transaction;
  TransactionSender :
    nat -> types.Transaction -> common.Hash -> Z -> result common.Address
}.

End ethclient.

(** [Event.Log] *)
Definition Event_Log (e : Event) : types.Log :=
  {| types.Address := Address e;
     types.Topics := Topics e;
     types.Data := Data e;
     types.BlockNumber := BlockNumber e;
     types.BlockHash := BlockHash e;
     types.Index := Index e;
     types.TxHash := TxHash e;
     types.TxIndex := TxIndex e |}.

Module events.

(** The comparison [GetLogs] sorts by. *)
Definition less (a b : types.Log) : bool :=
  if types.BlockNumber a =? types.BlockNumber b
  then types.Index a <? types.Index b
  else types.BlockNumber a <? types.BlockNumber b.

(** The event [GetLogs] makes of a log: the transaction fields keep their
    zero values. *)
Definition event_of_log (l : types.Log) : Event :=
  {| Address := types.Address l;
     Topics := types.Topics l;
     Data := types.Data l;
     BlockNumber := types.BlockNumber l;
     BlockHash := types.BlockHash l;
     Index := types.Index l;
     TxHash := types.TxHash l;
     TxIndex := types.TxIndex l;
     TxData := [];
     TxValue := None;
     TxFrom := repeat x00 common.AddressLength;
     TxGas := 0 |}.

(** One turn of the grouping loop of [GetLogs], on [slice.Blocks] and the
    block being filled ([None] is the nil pointer). *)
Definition group_step (st : list Block * option Block) (l : types.Log)
  : list Block * option Block :=
  let (blocks, block) := st in
  match block with
  | Some b =>
      if negb (types.BlockNumber l =? Number b)
      then (blocks ++ [b],
            Some {| Number := types.BlockNumber l; Hash := types.BlockHash l;
                    Events := [event_of_log l] |})
      else (blocks,
            Some {| Number := Number b; Hash := Hash b;
                    Events := Events b ++ [event_of_log l] |})
  | None =>
      (blocks,
       Some {| Number := types.BlockNumber l; Hash := types.BlockHash l;
               Events := [event_of_log l] |})
  end.

Definition group (logs : list types.Log) : list Block :=
  let (blocks, block) := fold_left group_step logs ([], None) in
  match block with
  | Some b => blocks ++ [b]
  | None => blocks
  end.

Section GetLogs.

(** [sort.Slice]: modelled from the spec, the sort of Go's library is not
    part of the sources.  It is a parameter: the properties below hold for
    every function that returns its input sorted. *)
Variable sort_Slice : (types.Log -> types.Log -> bool) -> list types.Log -> list types.Log.

(** [GetLogs] returns the query with it: [q.ToBlock] is overwritten in place
    when it is at or past the head. *)
Definition GetLogs (client : ethclient.Client) (q : ethereum.FilterQuery)
  : result BlockSlice * ethereum.FilterQuery :=
  match ethclient.BlockNumber client with
  | Ok head =>
      match ethereum.ToBlock q with
      | None => (Panic, q)
      | Some to =>
          let to := if head <=? big.Uint64 to then head else to in
          let q := {| ethereum.FromBlock := ethereum.FromBlock q;
                      ethereum.ToBlock := Some to;
                      ethereum.Addresses := ethereum.Addresses q;
                      ethereum.Topics := ethereum.Topics q |} in
          match ethclient.FilterLogs client q with
          | Ok logs =>
              let logs := sort_Slice less logs in
              match ethereum.FromBlock q with
              | None => (Panic, q)
              | Some from =>
                  (Ok {| Start := big.Uint64 from;
                         End_ := add64 (big.Uint64 to) 1;
                         DistanceFromHead := sub64 head (big.Uint64 to);
                         Blocks := group logs |},
                   q)
              end
          | Fail e => (Fail e, q)
          | Panic => (Panic, q)
          end
      end
  | Fail e => (Fail e, q)
  | Panic => (Panic, q)
  end.

End GetLogs.

(** The two maps of [AddTransactionData], keyed by the transaction hash
    (the source keys them by its hexadecimal text), and the hashes looked up
    at the node so far. *)
Record lookups : Type := {
  transactions : list (common.Hash * types.Transaction);
  transactionSenders : list (common.Hash * common.Address);
  asked : list common.Hash
}.

Definition no_lookups : lookups :=
  {| transactions := []; transactionSenders := []; asked := [] |}.

Fixpoint map_get {V : Type} (m : list (common.Hash * V)) (key : common.Hash) : option V :=
  match m with
  | [] => None
  | (k, v) :: rest => if bytes_Equal k key then Some v else map_get rest key
  end.

(** The closure [getTransaction]. *)
Definition getTransaction (client : ethclient.Client) (e : Event)
  : Task lookups (types.Transaction * common.Address) :=
  fun st =>
    let h := TxHash e in
    match map_get (transactions st) h with
    | Some tx =>
        (Ok (tx, match map_get (transactionSenders st) h with
                 | Some a => a
                 | None => repeat x00 common.AddressLength
                 end), st)
    | None =>
        let n := length (asked st) in
        let st1 := {| transactions := transactions st;
                      transactionSenders := transactionSenders st;
                      asked := asked st ++ [h] |} in
        match ethclient.TransactionByHash client n h with
        | Ok tx =>
            match ethclient.TransactionSender client n tx (BlockHash e) (TxIndex e) with
            | Panic => (Panic, st1)
            | r =>
                let sender := match r with
                              | Ok a => a
                              | _ => repeat x00 common.AddressLength
                              end in
                (Ok (tx, sender),
                 {| transactions := (h, tx) :: transactions st;
                    transactionSenders := (h, sender) :: transactionSenders st;
                    asked := asked st ++ [h] |})
            end
        | Fail err => (Fail err, st1)
        | Panic => (Panic, st1)
        end
    end.

Definition with_transaction (e : Event) (tx : types.Transaction) (sender : common.Address)
  : Event :=
  {| Address := Address e;
     Topics := Topics e;
     Data := Data e;
     BlockNumber := BlockNumber e;
     BlockHash := BlockHash e;
     Index := Index e;
     TxHash := TxHash e;
     TxIndex := TxIndex e;
     TxData := types.txData tx;
     TxValue := types.txValue tx;
     TxFrom := sender;
     TxGas := types.txGas tx |}.

(** The inner loop: the events of one block are filled in place, so those
    before a failing lookup stay filled. *)
Fixpoint add_events (client : ethclient.Client) (es : list Event) (st : lookups)
  : result unit * list Event * lookups :=
  match es with
  | [] => (Ok tt, [], st)
  | e :: rest =>
      match getTransaction client e st with
      | (Ok (tx, sender), st1) =>
          let '(r, rest', st2) := add_events client rest st1 in
          (r, with_transaction e tx sender :: rest', st2)
      | (Fail err, st1) => (Fail err, e :: rest, st1)
      | (Panic, st1) => (Panic, e :: rest, st1)
      end
  end.

Fixpoint add_blocks (client : ethclient.Client) (bs : list Block) (st : lookups)
  : result unit * list Block * lookups :=
  match bs with
  | [] => (Ok tt, [], st)
  | b :: rest =>
      let '(r, es, st1) := add_events client (Events b) st in
      let b' := {| Number := Number b; Hash := Hash b; Events := es |} in
      match r with
      | Ok _ =>
          let '(r', rest', st2) := add_blocks client rest st1 in
          (r', b' :: rest', st2)
      | _ => (r, b' :: rest, st1)
      end
  end.

(** [AddTransactionData] with the slice as it leaves it and the lookups it
    made. *)
Definition AddTransactionData (client : ethclient.Client) (bs : BlockSlice)
  : result unit * BlockSlice * lookups :=
  let '(r, blocks, st) := add_blocks client (Blocks bs) no_lookups in
  (r,
   {| Start := Start bs; End_ := End_ bs;
      DistanceFromHead := DistanceFromHead bs; Blocks := blocks |},
   st).

End events.

(** ** What [GetLogs] promises of its slice *)

(** Logs in the order [GetLogs] sorts them into, and events in the order of
    their index. *)
Definition sorted_logs (ls : list types.Log) : Prop :=
  StronglySorted (fun a b => events.less b a = false) ls.

Definition by_index (es : list Event) : Prop :=
  StronglySorted (fun a b => Index a <= Index b) es.

(** A block as [GetLogs] builds it: it has a first event, whose block hash
    is the block's; its events are in the order of their index and all carry
    the block's number. *)
Definition well_grouped (blk : Block) : Prop :=
  (exists e rest, Events blk = e :: rest /\ BlockHash e = Hash blk) /\
  by_index (Events blk) /\
  Forall (fun e => BlockNumber e = Number blk) (Events blk).

(** A node that answers a query with logs of the range asked for only. *)
Definition in_range (c : ethclient.Client) : Prop :=
  forall q from to logs,
    ethereum.FromBlock q = Some from -> ethereum.ToBlock q = Some to ->
    ethclient.FilterLogs c q = Ok logs ->
    Forall (fun l => big.Uint64 from <= types.BlockNumber l <= big.Uint64 to) logs.

(** A log source that answers its [k]-th call by [GetLogs] on the node as it
    is at that call; the flag for transaction details is not looked at. *)
Definition client_of_nodes
           (sort_Slice : (types.Log -> types.Log -> bool) -> list types.Log -> list types.Log)
           (nodes : nat -> ethclient.Client) : Client :=
  {| dialError := None;
     responses := fun k q _ => fst (events.GetLogs sort_Slice (nodes k) q);
     calls := [] |}.

(** ** The maps of [AddTransactionData] *)

(** The event carries what the maps of [AddTransactionData] hold for its
    transaction. *)
Definition filled (st : events.lookups) (e : Event) : Prop :=
  exists tx sender,
    events.map_get (events.transactions st) (TxHash e) = Some tx /\
    events.map_get (events.transactionSenders st) (TxHash e) = Some sender /\
    TxData e = types.txData tx /\ TxValue e = types.txValue tx /\
    TxGas e = types.txGas tx /\ TxFrom e = sender.

(** The maps hold a transaction for exactly the hashes asked for, each of
    them once, and a sender for each transaction. *)
Definition memoized (st : events.lookups) : Prop :=
  NoDup (events.asked st) /\
  (forall h, In h (events.asked st) <->
             events.map_get (events.transactions st) h <> None) /\
  (forall h, events.map_get (events.transactions st) h = None <->
             events.map_get (events.transactionSenders st) h = None).

(** The maps only grow. *)
Definition extends (st st' : events.lookups) : Prop :=
  (forall h v, events.map_get (events.transactions st) h = Some v ->
               events.map_get (events.transactions st') h = Some v) /\
  (forall h v, events.map_get (events.transactionSenders st) h = Some v ->
               events.map_get (events.transactionSenders st') h = Some v) /\
  incl (events.asked st) (events.asked st').

(** What [AddTransactionData] leaves alone in a block. *)
Definition block_logs (b : Block) : Z * common.Hash * list types.Log :=
  (Number b, Hash b, map Event_Log (Events b)).

(** ** A subscriber's log beside the streamer *)

(** The log of a subscriber that has applied every message sent so far: it
    is within the slice invariants, it starts at or before the first block of
    the subscription, its cursor is the streamer's, and the streamer's
    history is the tail of its blocks. *)
Definition mirrors (l : InMemoryEventLog.t) (cs : ChainStreamer.chainStreamer) : Prop :=
  BlockSlice.valid (InMemoryEventLog.blockSlice l) /\
  InMemoryEventLog.FirstBlock l <= ChainStreamer.from cs <= ChainStreamer.next cs /\
  InMemoryEventLog.NextBlock l = ChainStreamer.next cs /\
  exists older,
    Blocks (InMemoryEventLog.blockSlice l) = older ++ Blocks (ChainStreamer.history cs).

(** A slice as a fetch may return it: within the invariants, but for a
    window that may end before it starts (the head may lie below the block
    asked for). *)
Definition sound (b : BlockSlice) : Prop :=
  is_uint64 (Start b) /\ is_uint64 (End_ b) /\ is_uint64 (DistanceFromHead b) /\
  BlockSlice.increasing (Blocks b) /\
  Forall (fun blk => Start b <= Number blk < End_ b) (Blocks b).

(** A log source that answers with sound slices, starting at the block asked
    for. *)
Definition honest (cl : Client) : Prop :=
  forall k q d b,
    responses cl k q d = Ok b ->
    sound b /\
    exists from, ethereum.FromBlock q = Some from /\ Start b = big.Uint64 from.

(** ** The two phases of a live subscription *)

(** The configuration the live phase of [LiveEventLog.stream] polls with:
    the streamer of [l] with the filter of its log. *)
Definition live_streamer (l : LiveEventLog.t) : ChainStreamer.t :=
  {| ChainStreamer.Filter := InMemoryEventLog.Filter (LiveEventLog.eventlog l);
     ChainStreamer.FetchBatchSize :=
       ChainStreamer.FetchBatchSize (LiveEventLog.streamer l);
     ChainStreamer.BatchOverlap := ChainStreamer.BatchOverlap (LiveEventLog.streamer l);
     ChainStreamer.FetchTxDetails :=
       ChainStreamer.FetchTxDetails (LiveEventLog.streamer l) |}.

(** The messages of a replay of [l] from [from] on a channel that is never
    cancelled. *)
Definition replay_of (from : Z) (l : InMemoryEventLog.t) : list Message :=
  map AppendMsg (Blocks (BlockSlice.DeleteBeforeBlock from (InMemoryEventLog.blockSlice l)))
  ++ [SetNextMsg (InMemoryEventLog.NextBlock l)].

(** ** Decoded events *)

(** The array lengths of an event, whatever its integers. *)
Definition well_sized (e : Event) : Prop :=
  common.wf_Address (Address e) /\
  Forall common.wf_Hash (Topics e) /\
  common.wf_Hash (BlockHash e) /\
  common.wf_Hash (TxHash e) /\
  common.wf_Address (TxFrom e).

(** ** Example data *)

Definition hash_of (x : byte) : common.Hash := repeat x00 31 ++ [x].

Definition block_at (n : Z) (h : byte) : Block :=
  {| Number := n; Hash := hash_of h; Events := [] |}.

(** A log opened at block 100 that received block 105. *)
Definition slice_100_106 : BlockSlice :=
  {| Start := 100; End_ := 106; DistanceFromHead := 0;
     Blocks := [block_at 105 x0a] |}.

(** A history holding blocks 100 and 105, and a later fetch over
    [[95, 2095)] in which the log of block 105 is gone. *)
Definition history_100_105 : BlockSlice :=
  {| Start := 90; End_ := 106; DistanceFromHead := 0;
     Blocks := [block_at 100 x0a; block_at 105 x0b] |}.

Definition fetch_without_105 : BlockSlice :=
  {| Start := 95; End_ := 2095; DistanceFromHead := 12;
     Blocks := [block_at 100 x0a] |}.

(** The same fetch with block 105 still there under another hash. *)
Definition fetch_reorged_105 : BlockSlice :=
  {| Start := 95; End_ := 2095; DistanceFromHead := 12;
     Blocks := [block_at 100 x0a; block_at 105 x0c] |}.

Definition no_filter : ethereum.FilterQuery :=
  {| ethereum.FromBlock := None; ethereum.ToBlock := None;
     ethereum.Addresses := []; ethereum.Topics := [] |}.

(** A log source that answers its calls from a list, in order. *)
Definition client_of (rs : list (result BlockSlice)) : Client :=
  {| dialError := None;
     responses := fun k _ _ => nth k rs (Fail (ErrTransport 0));
     calls := [] |}.

Definition default_streamer : ChainStreamer.t :=
  {| ChainStreamer.Filter := no_filter;
     ChainStreamer.FetchBatchSize := 0;
     ChainStreamer.BatchOverlap := 0;
     ChainStreamer.FetchTxDetails := false |}.

(** A streamer started at block 100 against a source whose head is at 150 on
    the first poll and at 148 on the second. *)
Definition client_head_moves_back : Client :=
  client_of
    [Ok {| Start := 100; End_ := 151; DistanceFromHead := 0; Blocks := [] |};
     Ok {| Start := 141; End_ := 149; DistanceFromHead := 0; Blocks := [] |}].

Definition streamer_at (from_ : Z) (cl : Client) : ChainStreamer.chainStreamer :=
  {| ChainStreamer.filter := no_filter;
     ChainStreamer.chan := {| sent := []; done := None |};
     ChainStreamer.client := cl;
     ChainStreamer.history := EmptyBlockSlice from_;
     ChainStreamer.next := from_;
     ChainStreamer.from := from_;
     ChainStreamer.fetchBatchSize := DefaultFetchBatchSize;
     ChainStreamer.batchOverlap := DefaultBatchOverlap;
     ChainStreamer.fetchTxDetails := false |}.

Definition streamer_at_100 : Client -> ChainStreamer.chainStreamer := streamer_at 100.

Definition streamer_after_first_poll : ChainStreamer.chainStreamer :=
  snd (ChainStreamer.run 1 (streamer_at_100 client_head_moves_back)).

Definition short_fetch : BlockSlice :=
  {| Start := 141; End_ := 149; DistanceFromHead := 0; Blocks := [] |}.

(** A source on which block 145 comes back under another hash on the second
    poll. *)
Definition client_reorg_145 : Client :=
  client_of
    [Ok {| Start := 100; End_ := 151; DistanceFromHead := 0;
           Blocks := [block_at 145 x0a] |};
     Ok {| Start := 141; End_ := 153; DistanceFromHead := 0;
           Blocks := [block_at 145 x0b] |}].

(** A transfer log in block 105, with the value of its transaction. *)
Definition address_of (x : byte) : common.Address := repeat x00 19 ++ [x].

Definition event_105 : Event :=
  {| Address := address_of xa0;
     Topics := [hash_of xdd; hash_of x01];
     Data := [x00; x2a];
     BlockNumber := 105;
     BlockHash := hash_of x0a;
     Index := 3;
     TxHash := hash_of x77;
     TxIndex := 1;
     TxData := [];
     TxValue := Some 1000000000000000000;
     TxFrom := address_of x01;
     TxGas := 21000 |}.

Definition log_with_event : InMemoryEventLog.t :=
  {| InMemoryEventLog.filter :=
       {| ethereum.FromBlock := Some 100;
          ethereum.ToBlock := None;
          ethereum.Addresses := [address_of xa0];
          ethereum.Topics := [[hash_of xdd]; []] |};
     InMemoryEventLog.blockSlice :=
       {| Start := 100; End_ := 106; DistanceFromHead := 0;
          Blocks := [{| Number := 105; Hash := hash_of x0a; Events := [event_105] |}] |} |}.

(** A slice outside its invariants: block 105 is past the end. *)
Definition slice_past_end : BlockSlice :=
  {| Start := 100; End_ := 103; DistanceFromHead := 0;
     Blocks := [block_at 105 x0a] |}.

(** A source whose head is at 5100, polled by a subscription from 5000. *)
Definition client_head_5100 : Client :=
  client_of [Ok {| Start := 5000; End_ := 5101; DistanceFromHead := 0; Blocks := [] |}].

Definition log_100_106 : InMemoryEventLog.t :=
  {| InMemoryEventLog.filter := no_filter;
     InMemoryEventLog.blockSlice := slice_100_106 |}.

(** The same window as fetched seven blocks behind the head. *)
Definition slice_lagging : BlockSlice :=
  {| Start := 100; End_ := 106; DistanceFromHead := 7;
     Blocks := [block_at 105 x0a] |}.

(** A scan of [[90, 100)] that found block 95. *)
Definition slice_before_100 : BlockSlice :=
  {| Start := 90; End_ := 100; DistanceFromHead := 20;
     Blocks := [block_at 95 x09] |}.

(** A fetch that starts where [slice_lagging] ends. *)
Definition fetch_after_106 : BlockSlice :=
  {| Start := 106; End_ := 2106; DistanceFromHead := 3;
     Blocks := [block_at 107 x0b; block_at 108 x0c] |}.

(** A streamer from block 100 whose history is [h] and whose cursor is at
    the end of [h]. *)
Definition streamer_with (h : BlockSlice) : ChainStreamer.chainStreamer :=
  {| ChainStreamer.filter := no_filter;
     ChainStreamer.chan := {| sent := []; done := None |};
     ChainStreamer.client := client_of [];
     ChainStreamer.history := h;
     ChainStreamer.next := End_ h;
     ChainStreamer.from := 100;
     ChainStreamer.fetchBatchSize := DefaultFetchBatchSize;
     ChainStreamer.batchOverlap := DefaultBatchOverlap;
     ChainStreamer.fetchTxDetails := false |}.

Definition streamer_with_history : ChainStreamer.chainStreamer :=
  streamer_with slice_lagging.

Definition streamer_with_history_105 : ChainStreamer.chainStreamer :=
  streamer_with history_100_105.



(** A live log over [log_100_106], and a source that answers the first poll
    with [fetch_after_106] and fails the second. *)
Definition live_log_100_106 : LiveEventLog.t :=
  LiveEventLog.NewLiveEventLog log_100_106 default_streamer.

Definition client_after_106 : Client := client_of [Ok fetch_after_106].

(** An insertion sort, one of the functions [sort.Slice] may be. *)
Fixpoint insert_by {A : Type} (less : A -> A -> bool) (x : A) (l : list A) : list A :=
  match l with
  | [] => [x]
  | y :: rest => if less x y then x :: y :: rest else y :: insert_by less x rest
  end.

Definition insertion_sort {A : Type} (less : A -> A -> bool) (l : list A) : list A :=
  fold_right (insert_by less) [] l.

(** A log of block [n] with index [i], in a block of hash [h]. *)
Definition log_at (n : Z) (h : byte) (i : Z) : types.Log :=
  {| types.Address := address_of xa0;
     types.Topics := [hash_of xdd];
     types.Data := [];
     types.BlockNumber := n;
     types.BlockHash := hash_of h;
     types.Index := i;
     types.TxHash := hash_of x77;
     types.TxIndex := 0 |}.

(** A node with its head at [head] that holds the logs [chain], in no
    particular order, and answers a query with those of the range asked
    for. *)
Definition node_at (head : Z) (chain : list types.Log) : ethclient.Client :=
  {| ethclient.BlockNumber := Ok head;
     ethclient.FilterLogs := fun q =>
       let lo := match ethereum.FromBlock q with Some f => big.Uint64 f | None => 0 end in
       let hi := match ethereum.ToBlock q with Some t => big.Uint64 t | None => head end in
       Ok (filter (fun l => (lo <=? types.BlockNumber l) && (types.BlockNumber l <=? hi))
                  chain);
     ethclient.TransactionByHash := fun _ _ => Fail (ErrTransport 0);
     ethclient.TransactionSender := fun _ _ _ _ => Fail (ErrTransport 0) |}.

Definition chain_107_108 : list types.Log :=
  [log_at 108 x0c 0; log_at 107 x0b 4; log_at 107 x0b 2].

Definition query_100_2099 : ethereum.FilterQuery :=
  {| ethereum.FromBlock := Some 100; ethereum.ToBlock := Some 2099;
     ethereum.Addresses := []; ethereum.Topics := [] |}.

(** A chain on which block 145 is replaced between the first poll and the
    second. *)
Definition nodes_reorg_145 (k : nat) : ethclient.Client :=
  match k with
  | O => node_at 150 [log_at 145 x0a 0]
  | _ => node_at 152 [log_at 151 x0c 0; log_at 145 x0b 0]
  end.

(** What [GetLogs] makes of [chain_107_108] with the head at 150. *)
Definition slice_107_108 : BlockSlice :=
  {| Start := 100; End_ := 151; DistanceFromHead := 0;
     Blocks :=
       [ {| Number := 107; Hash := hash_of x0b;
            Events := [events.event_of_log (log_at 107 x0b 2);
                       events.event_of_log (log_at 107 x0b 4)] |};
         {| Number := 108; Hash := hash_of x0c;
            Events := [events.event_of_log (log_at 108 x0c 0)] |} ] |}.

Definition query_100_150 : ethereum.FilterQuery :=
  {| ethereum.FromBlock := Some 100; ethereum.ToBlock := Some 150;
     ethereum.Addresses := []; ethereum.Topics := [] |}.

(** A node that answers each transaction lookup with a different
    transaction: the [n]-th lookup gets gas [21000 + n]. *)
Definition node_with_tx : ethclient.Client :=
  {| ethclient.BlockNumber := Ok 150;
     ethclient.FilterLogs := fun _ => Ok [];
     ethclient.TransactionByHash := fun n _ =>
       Ok {| types.txData := []; types.txValue := Some 1;
             types.txGas := 21000 + Z.of_nat n |};
     ethclient.TransactionSender := fun _ _ _ _ => Ok (address_of x01) |}.

Definition slice_107_108_filled : BlockSlice :=
  snd (fst (events.AddTransactionData node_with_tx slice_107_108)).

Definition lookups_107_108 : events.lookups :=
  snd (events.AddTransactionData node_with_tx slice_107_108).

(** A stored slice whose block hash is one byte long. *)
Definition snapshot_short_hash : epb.BlockSlice :=
  {| epb.Start := 100; epb.End_ := 106; epb.DistanceFromHead := 0;
     epb.Blocks := [Some {| epb.Number := 105; epb.Hash := [x0a]; epb.Events := [] |}] |}.

(* ================================================================= *)
(** * Properties *)
(* ================================================================= *)

Lemma uint64_modulus_eq : uint64_modulus = 18446744073709551616.
Proof. reflexivity. Qed.

Lemma wrap64_small z : is_uint64 z -> wrap64 z = z.
Proof. unfold is_uint64, wrap64. intros H. apply Z.mod_small. exact H. Qed.

Lemma wrap64_range z : is_uint64 (wrap64 z).
Proof.
  unfold is_uint64, wrap64. apply Z.mod_pos_bound.
  rewrite uint64_modulus_eq. lia.
Qed.

Lemma add64_small a b : is_uint64 (a + b) -> add64 a b = a + b.
Proof. apply wrap64_small. Qed.

Lemma sub64_small a b : is_uint64 (a - b) -> sub64 a b = a - b.
Proof. apply wrap64_small. Qed.

(** A subtraction that goes below zero comes back from the top. *)
Lemma sub64_underflow a b :
  a < b -> b - a <= uint64_modulus -> sub64 a b = a - b + uint64_modulus.
Proof.
  intros Hlt Hle. unfold sub64, wrap64.
  symmetry. apply Z.mod_unique_pos with (q := -1); lia.
Qed.

(** ** Block slices *)

Section BlockSliceFacts.

Import BlockSlice.

Lemma increasing_cons_inv blk bs :
  increasing (blk :: bs) ->
  increasing bs /\ Forall (fun y => Number blk < Number y) bs.
Proof. intros H. inversion H; subst. split; assumption. Qed.

Lemma increasing_app_inv l x :
  increasing (l ++ [x]) ->
  increasing l /\ Forall (fun y => Number y < Number x) l.
Proof.
  induction l as [|a l IH]; simpl; intros H.
  - split; constructor.
  - apply increasing_cons_inv in H. destruct H as [Hs Hall].
    destruct (IH Hs) as [Hl Hx].
    apply Forall_app in Hall. destruct Hall as [Hal Hax].
    split.
    + constructor; assumption.
    + constructor; [inversion Hax; assumption | assumption].
Qed.

Lemma filter_all {A} (p : A -> bool) (l : list A) :
  Forall (fun x => p x = true) l -> filter p l = l.
Proof.
  induction 1 as [|x l Hx _ IH]; simpl; [reflexivity|].
  rewrite Hx, IH. reflexivity.
Qed.

(** On an increasing list the forward scan finds the blocks below [n]:
    what is left is what a filter keeps. *)
Lemma scan_up_filter n bs :
  increasing bs ->
  skipn (scan_up n bs) bs = filter (fun blk => n <=? Number blk) bs.
Proof.
  induction bs as [|blk bs IH]; intros Hinc; simpl; [reflexivity|].
  apply increasing_cons_inv in Hinc. destruct Hinc as [Hinc Hall].
  destruct (n <=? Number blk) eqn:E; simpl.
  - f_equal. symmetry. apply filter_all.
    apply Z.leb_le in E.
    eapply Forall_impl; [|exact Hall]. simpl. intros y Hy.
    apply Z.leb_le. lia.
  - apply IH. exact Hinc.
Qed.

Lemma scan_down_le n bs k : (scan_down n bs k <= k)%nat.
Proof.
  induction k as [|i IH]; simpl; [lia|].
  destruct (nth_error bs i) as [blk|]; [destruct (Number blk <? n)|]; lia.
Qed.

(** The backward scan from [k] looks at the indices below [k] only. *)
Lemma scan_down_app n l r k :
  (k <= length l)%nat -> scan_down n (l ++ r) k = scan_down n l k.
Proof.
  induction k as [|i IH]; intros Hk; simpl; [reflexivity|].
  rewrite nth_error_app1 by lia.
  destruct (nth_error l i) as [blk|]; [destruct (Number blk <? n)|];
    try reflexivity; apply IH; lia.
Qed.

Lemma scan_down_last n l x :
  scan_down n (l ++ [x]) (length (l ++ [x])) =
  if Number x <? n then S (length l) else scan_down n l (length l).
Proof.
  rewrite length_app. simpl length. rewrite Nat.add_1_r. simpl.
  rewrite nth_error_app2 by lia. rewrite Nat.sub_diag. simpl.
  destruct (Number x <? n); [reflexivity|].
  apply scan_down_app. lia.
Qed.

Lemma scan_down_all_below n bs :
  Forall (fun blk => Number blk < n) bs ->
  scan_down n bs (length bs) = length bs.
Proof.
  destruct bs as [|b0 bs0] using rev_ind; intros Hall; [reflexivity|].
  rewrite scan_down_last.
  apply Forall_app in Hall. destruct Hall as [_ Hx].
  inversion Hx; subst.
  assert (E : (Number b0 <? n) = true) by (apply Z.ltb_lt; assumption).
  rewrite E. rewrite length_app. simpl. lia.
Qed.

(** On an increasing list the backward scan keeps exactly the blocks below
    [n]. *)
Lemma scan_down_filter n bs :
  increasing bs ->
  firstn (scan_down n bs (length bs)) bs = filter (fun blk => Number blk <? n) bs.
Proof.
  induction bs as [|x l IH] using rev_ind; intros Hinc; [reflexivity|].
  apply increasing_app_inv in Hinc. destruct Hinc as [Hl Hx].
  rewrite scan_down_last, filter_app. simpl.
  destruct (Number x <? n) eqn:E.
  - replace (S (length l)) with (length (l ++ [x])) by (rewrite length_app; simpl; lia).
    rewrite firstn_all. f_equal.
    symmetry. apply filter_all.
    apply Z.ltb_lt in E.
    eapply Forall_impl; [|exact Hx]. simpl. intros y Hy. apply Z.ltb_lt. lia.
  - rewrite firstn_app.
    replace (scan_down n l (length l) - length l)%nat with O
      by (pose proof (scan_down_le n l (length l)); lia).
    simpl. rewrite !app_nil_r. apply IH. exact Hl.
Qed.

Lemma increasing_filter (p : Block -> bool) (bs : list Block) :
  increasing bs -> increasing (filter p bs).
Proof.
  unfold increasing.
  induction 1 as [|blk bs Hs IH Hall]; simpl; [constructor|].
  destruct (p blk); [|exact IH].
  constructor; [exact IH|].
  apply Forall_forall. intros y Hy. apply filter_In in Hy.
  rewrite Forall_forall in Hall. apply Hall. tauto.
Qed.

(** [Rollback] inside the window: it succeeds, keeps exactly the blocks below
    [n], sets the end to [n], and takes [end - n] off the freshness hint in
    unsigned arithmetic. *)
Lemma Rollback_inside b n :
  increasing (Blocks b) -> Start b <= n <= End_ b ->
  exists b',
    Rollback n b = Ok b' /\
    Start b' = Start b /\
    End_ b' = n /\
    Blocks b' = filter (fun blk => Number blk <? n) (Blocks b) /\
    DistanceFromHead b' = sub64 (DistanceFromHead b) (sub64 (End_ b) n).
Proof.
  intros Hinc [Hlo Hhi]. unfold Rollback.
  assert (E1 : (End_ b <? n) = false) by (apply Z.ltb_ge; lia).
  assert (E2 : (n <? Start b) = false) by (apply Z.ltb_ge; lia).
  rewrite E1, E2. eexists. split; [reflexivity|]. simpl.
  repeat split. apply scan_down_filter. exact Hinc.
Qed.

(** The hint after [DeleteFromBlock] is the saturating one exactly when the
    slice was at least [end - n] behind the head; otherwise the subtraction
    has wrapped. *)
Lemma DeleteFromBlock_distance b n :
  valid b -> 0 <= n <= End_ b ->
  DistanceFromHead (DeleteFromBlock n b) = saturating_distance b n
  <-> End_ b - n <= DistanceFromHead b.
Proof.
  intros Hv Hn. destruct Hv as [_ He Hd _ _ _].
  unfold is_uint64 in *. unfold saturating_distance. simpl.
  rewrite (sub64_small (End_ b) n) by (unfold is_uint64; lia).
  destruct (Z_lt_le_dec (DistanceFromHead b) (End_ b - n)) as [Hlt|Hge].
  - rewrite sub64_underflow by lia. rewrite uint64_modulus_eq in *. lia.
  - rewrite sub64_small by (unfold is_uint64; lia). lia.
Qed.

(** The operations of a log keep a slice within its invariants. *)
Lemma EmptyBlockSlice_valid from : is_uint64 from -> valid (EmptyBlockSlice from).
Proof.
  intros H. constructor; simpl; try assumption; try lia.
  - unfold is_uint64, uint64_modulus. lia.
  - constructor.
  - constructor.
Qed.

Lemma increasing_snoc l x :
  increasing l -> Forall (fun y => Number y < Number x) l -> increasing (l ++ [x]).
Proof.
  unfold increasing. induction 1 as [|a l Hs IH Hall]; intros Hx; simpl.
  - repeat constructor.
  - inversion Hx; subst. constructor; [apply IH; assumption|].
    apply Forall_app. split; [exact Hall|repeat constructor; assumption].
Qed.

Lemma Append_valid blk b b' :
  valid b -> Number blk < uint64_modulus - 1 ->
  Append blk b = Ok b' -> valid b'.
Proof.
  intros [Hs He Hd Hw Hinc Hin] Hn. unfold Append.
  destruct (Number blk <? End_ b) eqn:E; [discriminate|].
  apply Z.ltb_ge in E. intros [= <-]. unfold is_uint64 in *.
  rewrite Forall_forall in Hin.
  constructor; simpl; rewrite ?add64_small by (unfold is_uint64; lia);
    try assumption; unfold is_uint64, uint64_modulus in *; try lia.
  - apply increasing_snoc; [exact Hinc|].
    apply Forall_forall. intros y Hy. specialize (Hin y Hy). lia.
  - apply Forall_app. split.
    + apply Forall_forall. intros y Hy. specialize (Hin y Hy). lia.
    + repeat constructor; lia.
Qed.

Lemma Rollback_valid n b b' :
  valid b -> Rollback n b = Ok b' -> valid b'.
Proof.
  intros Hv. pose proof Hv as [Hs He Hd Hw Hinc Hin]. unfold Rollback.
  destruct (End_ b <? n) eqn:E1; [discriminate|].
  destruct (n <? Start b) eqn:E2; [discriminate|].
  apply Z.ltb_ge in E1, E2. intros [= <-]. unfold is_uint64 in *.
  constructor; simpl; try assumption; try (unfold is_uint64; lia).
  - apply wrap64_range.
  - rewrite scan_down_filter by exact Hinc. apply increasing_filter. exact Hinc.
  - rewrite scan_down_filter by exact Hinc.
    apply Forall_forall. intros y Hy. apply filter_In in Hy. destruct Hy as [Hy Hlt].
    apply Z.ltb_lt in Hlt. rewrite Forall_forall in Hin. specialize (Hin y Hy). lia.
Qed.

Lemma Extend_valid n b b' :
  valid b -> n < uint64_modulus -> Extend n b = Ok b' -> valid b'.
Proof.
  intros [Hs He Hd Hw Hinc Hin] Hn. unfold Extend.
  destruct (n <? End_ b) eqn:E; [discriminate|].
  apply Z.ltb_ge in E. intros [= <-]. unfold is_uint64 in *.
  constructor; simpl; try assumption; try (unfold is_uint64; lia).
  eapply Forall_impl; [|exact Hin]. simpl. intros y Hy. lia.
Qed.

End BlockSliceFacts.

(** The log that [slice_100_106] stands for is built by the package's own
    operations. *)
Lemma slice_100_106_built :
  BlockSlice.Append (block_at 105 x0a) (EmptyBlockSlice 100) = Ok slice_100_106.
Proof. reflexivity. Qed.

Lemma slice_100_106_valid : BlockSlice.valid slice_100_106.
Proof.
  constructor; simpl; unfold is_uint64; try rewrite uint64_modulus_eq; try lia.
  - repeat constructor.
  - repeat constructor; simpl; lia.
Qed.

Lemma slice_lagging_valid : BlockSlice.valid slice_lagging.
Proof.
  constructor; simpl; unfold is_uint64; try rewrite uint64_modulus_eq; try lia.
  - repeat constructor.
  - repeat constructor; simpl; lia.
Qed.

(** C1.  Specified: inside the window [Rollback n] succeeds, drops
    the blocks at or past [n], sets the end to [n] and takes [old_end - n] off
    [distance_from_head], stopping at zero.  On the log opened at block 100
    that received block 105, [Rollback 103] does all of it but the last: the
    hint was 0, the unsigned subtraction wraps, and the slice is left
    [2^64 - 3] blocks behind the head where the specification has 0. *)
Theorem C1_Rollback_distance_wraps :
  BlockSlice.valid slice_100_106 /\
  Start slice_100_106 <= 103 <= End_ slice_100_106 /\
  BlockSlice.Rollback 103 slice_100_106 =
    Ok {| Start := 100; End_ := 103;
          DistanceFromHead := 18446744073709551613; Blocks := [] |} /\
  BlockSlice.saturating_distance slice_100_106 103 = 0.
Proof.
  split; [exact slice_100_106_valid|].
  split; [simpl; lia|].
  split; reflexivity.
Qed.

(** C2 does not hold as stated: appending block 110 to a slice that was seven
    blocks behind the head and rolling back to the old end does not give the
    slice back, because [Append] has cleared the hint. *)
Lemma C2_counterexample :
  BlockSlice.valid slice_lagging /\
  End_ slice_lagging <= Number (block_at 110 x0b) /\
  rbind (BlockSlice.Append (block_at 110 x0b) slice_lagging)
        (BlockSlice.Rollback (End_ slice_lagging)) <> Ok slice_lagging.
Proof.
  split; [exact slice_lagging_valid|].
  split; [simpl; lia|].
  vm_compute. intros H. discriminate H.
Qed.

(** C2, amended.  For a slice [s] within its invariants and a block [b]
    with [s.end <= b.number < 2^64 - 1], [Append b] followed by
    [Rollback] to the old end succeeds and restores the start, the end and
    the blocks of [s]. *)
Theorem C2_Append_Rollback_restores_window (s : BlockSlice) (b : Block) :
  BlockSlice.valid s ->
  End_ s <= Number b < uint64_modulus - 1 ->
  exists s',
    rbind (BlockSlice.Append b s) (BlockSlice.Rollback (End_ s)) = Ok s' /\
    Start s' = Start s /\ End_ s' = End_ s /\ Blocks s' = Blocks s.
Proof.
  intros Hv Hb. destruct Hv as [Hs He _ Hw _ Hin].
  unfold is_uint64 in *.
  unfold BlockSlice.Append.
  assert (E0 : (Number b <? End_ s) = false) by (apply Z.ltb_ge; lia).
  rewrite E0. simpl. unfold BlockSlice.Rollback. simpl.
  rewrite add64_small by (unfold is_uint64; lia).
  assert (E1 : (Number b + 1 <? End_ s) = false) by (apply Z.ltb_ge; lia).
  assert (E2 : (End_ s <? Start s) = false) by (apply Z.ltb_ge; lia).
  rewrite E1, E2. eexists. split; [reflexivity|]. simpl.
  repeat split.
  rewrite scan_down_last. rewrite E0.
  rewrite scan_down_all_below.
  - rewrite firstn_app, Nat.sub_diag, firstn_all. simpl. apply app_nil_r.
  - eapply Forall_impl; [|exact Hin]. simpl. intros blk Hblk. lia.
Qed.

Lemma C2_Append_Rollback_restores_window_witness :
  exists s',
    rbind (BlockSlice.Append (block_at 110 x0b) slice_lagging)
          (BlockSlice.Rollback (End_ slice_lagging)) = Ok s' /\
    Start s' = Start slice_lagging /\ End_ s' = End_ slice_lagging /\
    Blocks s' = Blocks slice_lagging.
Proof.
  apply (C2_Append_Rollback_restores_window slice_lagging (block_at 110 x0b)).
  - exact slice_lagging_valid.
  - unfold uint64_modulus. simpl. lia.
Defined.

(** The streamer itself calls [DeleteBeforeBlock] below the start: after the
    first poll of a subscription from block 5000 the history ends at 5101,
    and the cap on its size sets its start to [5101 - 1024]. *)
Example history_cap_moves_start_back :
  Start (ChainStreamer.history
           (snd (ChainStreamer.iteration (streamer_at 5000 client_head_5100)))) = 4077.
Proof. reflexivity. Qed.

(** C4 does not hold as stated: [DeleteBeforeBlock 50] on a slice that starts at
    100 moves the start back to 50. *)
Lemma C4_counterexample :
  Start (BlockSlice.DeleteBeforeBlock 50 slice_100_106) < Start slice_100_106.
Proof. simpl. lia. Qed.

(** C4, amended.  [DeleteBeforeBlock n] sets the start to [n] whatever it
    was; the start does not decrease exactly when [n] is at or past the old
    start. *)
Theorem C4_DeleteBeforeBlock_start (b : BlockSlice) (n : Z) :
  Start (BlockSlice.DeleteBeforeBlock n b) = n /\
  (Start b <= Start (BlockSlice.DeleteBeforeBlock n b) <-> Start b <= n).
Proof. simpl. split; [reflexivity|tauto]. Qed.

(** ** Producer tasks *)

Lemma for_each_app {S A} (l1 l2 : list A) (body : A -> Task S unit) (s : S) :
  for_each (l1 ++ l2) body s = (for_each l1 body ;; for_each l2 body) s.
Proof.
  revert s. induction l1 as [|x l1 IH]; intros s; simpl.
  - reflexivity.
  - unfold bind in *. destruct (body x s) as [[u|e|] s']; try reflexivity.
    apply IH.
Qed.

(** A run of sends on a channel: all of them when [done] allows it, and
    otherwise the first [k] of them and [Canceled]. *)
Lemma for_each_send {A} (f : A -> Message) (l : list A) (ch : Chan) :
  for_each l (fun x => sendOrDone (f x)) ch =
  match done ch with
  | None => (Ok tt, {| sent := sent ch ++ map f l; done := None |})
  | Some k =>
      if (length l <=? k)%nat
      then (Ok tt, {| sent := sent ch ++ map f l; done := Some (k - length l)%nat |})
      else (Fail Canceled, {| sent := sent ch ++ map f (firstn k l); done := Some O |})
  end.
Proof.
  revert ch. induction l as [|x l IH]; intros [s d]; simpl.
  - unfold ret. destruct d as [k|]; simpl; rewrite app_nil_r; [rewrite Nat.sub_0_r|]; reflexivity.
  - unfold bind, sendOrDone. simpl. destruct d as [[|k]|]; simpl.
    + rewrite app_nil_r. reflexivity.
    + rewrite IH. simpl. rewrite <- !app_assoc. simpl. reflexivity.
    + rewrite IH. simpl. rewrite <- !app_assoc. simpl. reflexivity.
Qed.

(** ** Reconciliation *)

(** The loop indexes [new.Blocks] at every index of the restricted history:
    it returns when [new.Blocks] is long enough. *)
Lemma match_loop_in_range (obs nbs : list Block) (i : nat) (last : Z) :
  (i + length obs <= length nbs)%nat ->
  exists r, match_loop obs nbs i last = Ok r.
Proof.
  revert i last. induction obs as [|ob obs IH]; intros i last Hlen; simpl in *.
  - eexists. reflexivity.
  - destruct (nth_error nbs i) as [nb|] eqn:E.
    + destruct (negb (bytes_Equal (common.Bytes (Hash ob)) (common.Bytes (Hash nb)))).
      * eexists. reflexivity.
      * apply IH. lia.
    + apply nth_error_None in E. lia.
Qed.

Lemma match_loop_never_fails (obs nbs : list Block) (i : nat) (last : Z) (e : error) :
  match_loop obs nbs i last <> Fail e.
Proof.
  revert i last. induction obs as [|ob obs IH]; intros i last; simpl.
  - discriminate.
  - destruct (nth_error nbs i) as [nb|]; [|discriminate].
    destruct (negb (bytes_Equal (common.Bytes (Hash ob)) (common.Bytes (Hash nb)))).
    + discriminate.
    + apply IH.
Qed.

Lemma history_100_105_valid : BlockSlice.valid history_100_105.
Proof.
  constructor; simpl; unfold is_uint64, uint64_modulus; try lia.
  - repeat constructor; simpl; lia.
  - repeat constructor; simpl; lia.
Qed.

Lemma fetch_without_105_valid : BlockSlice.valid fetch_without_105.
Proof.
  constructor; simpl; unfold is_uint64, uint64_modulus; try lia.
  - repeat constructor.
  - repeat constructor; simpl; lia.
Qed.

Lemma fetch_reorged_105_valid : BlockSlice.valid fetch_reorged_105.
Proof.
  constructor; simpl; unfold is_uint64, uint64_modulus; try lia.
  - repeat constructor; simpl; lia.
  - repeat constructor; simpl; lia.
Qed.

(** A shorter [new.Blocks] is not always fatal: the loop stops at the first
    mismatch, before it gets to the missing index. *)
Example MatchBlocks_mismatch_before_end :
  MatchBlocks
    {| Start := 95; End_ := 2095; DistanceFromHead := 12; Blocks := [block_at 100 x0c] |}
    history_100_105 = Ok (false, 0).
Proof. reflexivity. Qed.

(** C10.  [MatchBlocks] indexes [new.Blocks] at every index of
    the history restricted to the overlap, with no bounds check.  It returns
    whenever [new] has at least as many blocks as the restricted history; and
    there are well-formed inputs, with more history blocks in the overlap
    than the fetch holds, on which the index is out of range. *)
Theorem C10_MatchBlocks_index_out_of_range :
  (forall new old : BlockSlice,
      (length (Blocks (BlockSlice.DeleteBeforeBlock (Start new) old))
       <= length (Blocks new))%nat ->
      MatchBlocks new old <> Panic) /\
  (exists new old : BlockSlice,
      BlockSlice.valid new /\ BlockSlice.valid old /\ End_ old <= End_ new /\
      (length (Blocks new)
       < length (Blocks (BlockSlice.DeleteBeforeBlock (Start new) old)))%nat /\
      MatchBlocks new old = Panic).
Proof.
  split.
  - intros new old Hlen. unfold MatchBlocks.
    destruct (End_ new <? End_ old); [discriminate|].
    destruct (match_loop_in_range
                (Blocks (BlockSlice.DeleteBeforeBlock (Start new) old))
                (Blocks new) O 0) as [r Hr]; [simpl; exact Hlen|].
    cbv zeta. rewrite Hr. discriminate.
  - exists fetch_without_105, history_100_105.
    split; [exact fetch_without_105_valid|].
    split; [exact history_100_105_valid|].
    split; [simpl; lia|].
    split; [simpl; lia|reflexivity].
Qed.

Lemma C10_MatchBlocks_index_out_of_range_witness :
  MatchBlocks fetch_reorged_105 history_100_105 <> Panic.
Proof.
  apply (proj1 C10_MatchBlocks_index_out_of_range).
  simpl. lia.
Defined.

(** ** The in-memory event log *)

Lemma for_each_map {S A B} (f : A -> B) (l : list A) (body : B -> Task S unit) (s : S) :
  for_each (map f l) body s = for_each l (fun x => body (f x)) s.
Proof.
  revert s. induction l as [|x l IH]; intros s; simpl; [reflexivity|].
  unfold bind. destruct (body (f x) s) as [[u|e|] s']; try reflexivity.
  apply IH.
Qed.

(** The replay task sends one list of messages, in order. *)
Lemma stream_sends (from : Z) (l : InMemoryEventLog.t) (ch : Chan) :
  InMemoryEventLog.stream from l ch =
  for_each
    (map AppendMsg (Blocks (BlockSlice.DeleteBeforeBlock from (InMemoryEventLog.blockSlice l)))
       ++ [SetNextMsg (InMemoryEventLog.NextBlock l)])
    (fun m => sendOrDone (id m)) ch.
Proof.
  unfold InMemoryEventLog.stream. rewrite for_each_app.
  unfold bind. rewrite for_each_map.
  destruct (for_each _ _ ch) as [[u|e|] ch']; try reflexivity.
  simpl. unfold bind, id, ret.
  destruct (sendOrDone _ ch') as [[u'|e|] ch'']; try reflexivity.
  destruct u'. reflexivity.
Qed.

(** C8.  On a log within the slice invariants and for [from] at
    or past its first block, the replay subscription delivers one [Append]
    per stored block with [number >= from], in increasing order of number,
    then one [SetNext] carrying [NextBlock], and no [Rollback]; it ends with
    a nil error, or, when [done] cuts it after [k] messages, with the first
    [k] of them and [Canceled]. *)
Theorem C8_replay_stream (l : InMemoryEventLog.t) (from : Z) (d : Done) :
  BlockSlice.valid (InMemoryEventLog.blockSlice l) ->
  InMemoryEventLog.FirstBlock l <= from ->
  let stored :=
    filter (fun blk => from <=? Number blk) (Blocks (InMemoryEventLog.blockSlice l)) in
  let full := map AppendMsg stored ++ [SetNextMsg (InMemoryEventLog.NextBlock l)] in
  BlockSlice.increasing stored /\
  Forall (fun m => MsgAction m <> Rollback) full /\
  InMemoryEventLog.Stream d from l =
    Ok match d with
       | None => {| C := full; Err := Posted None |}
       | Some k =>
           if (length full <=? k)%nat
           then {| C := full; Err := Posted None |}
           else {| C := firstn k full; Err := Posted (Some Canceled) |}
       end.
Proof.
  intros Hv Hfrom stored full.
  pose proof (BlockSlice.valid_increasing _ Hv) as Hinc.
  split; [apply increasing_filter; exact Hinc|].
  split.
  - apply Forall_app. split.
    + apply Forall_forall. intros m Hm. apply in_map_iff in Hm.
      destruct Hm as [blk [<- _]]. simpl. discriminate.
    + constructor; [simpl; discriminate|constructor].
  - unfold InMemoryEventLog.Stream. rewrite stream_sends.
    simpl Blocks. rewrite scan_up_filter by exact Hinc.
    fold stored. fold full.
    rewrite for_each_send. simpl.
    destruct d as [k|]; [|rewrite map_id; reflexivity].
    destruct (length full <=? k)%nat; simpl; rewrite map_id; reflexivity.
Qed.

Lemma C8_replay_stream_witness :
  InMemoryEventLog.Stream (Some 1%nat) 100 log_100_106 =
    Ok {| C := [AppendMsg (block_at 105 x0a)]; Err := Posted (Some Canceled) |}.
Proof.
  refine (proj2 (proj2
            (C8_replay_stream log_100_106 100 (Some 1%nat) slice_100_106_valid _))).
  unfold InMemoryEventLog.FirstBlock. simpl. lia.
Defined.

(** C3.  Specified: [Stream] below the first block fails at once
    and starts no task.  The in-memory log opened at block 100 and holding
    block 105 takes [Stream done 50] without an error: a subscription is
    returned, and its task delivers the stored block and the [SetNext]. *)
Theorem C3_InMemoryEventLog_Stream_below_first :
  50 < InMemoryEventLog.FirstBlock log_100_106 /\
  InMemoryEventLog.Stream None 50 log_100_106 =
    Ok {| C := [AppendMsg (block_at 105 x0a); SetNextMsg 106];
          Err := Posted None |}.
Proof. split; [unfold InMemoryEventLog.FirstBlock; simpl; lia|reflexivity]. Qed.

(** The check the in-memory log lacks is made by [LiveEventLog.Stream]: below
    the first block it returns the error and runs nothing. *)
Lemma LiveEventLog_Stream_below_first
  (cl : Client) (fuel : nat) (d : Done) (from : Z) (l : LiveEventLog.t) :
  from < InMemoryEventLog.FirstBlock (LiveEventLog.eventlog l) ->
  LiveEventLog.Stream cl fuel d from l =
    Fail (ErrStreamBelowFirst from (InMemoryEventLog.FirstBlock (LiveEventLog.eventlog l))).
Proof.
  intros H. unfold LiveEventLog.Stream.
  apply Z.ltb_lt in H. rewrite H. reflexivity.
Qed.

(** ** Rules for [keeps] *)

Section Keeps.

Context {S : Type} (R : S -> S -> Prop).
Hypothesis R_refl : forall s, R s s.
Hypothesis R_trans : forall a b c, R a b -> R b c -> R a c.

Lemma keeps_ret {A} (a : A) : keeps R (@ret S A a).
Proof. intros s. apply R_refl. Qed.

Lemma keeps_lift {A} (r : result A) : keeps R (@lift S A r).
Proof. intros s. apply R_refl. Qed.

Lemma keeps_modify (f : S -> S) : (forall s, R s (f s)) -> keeps R (modify f).
Proof. intros H s. apply H. Qed.

Lemma keeps_bind {A B} (m : Task S A) (k : A -> Task S B) :
  keeps R m -> (forall a, keeps R (k a)) -> keeps R (bind m k).
Proof.
  intros Hm Hk s. unfold bind. specialize (Hm s).
  destruct (m s) as [[a|e|] s']; simpl in *; try exact Hm.
  eapply R_trans; [exact Hm|apply Hk].
Qed.

Lemma keeps_get_bind {B} (k : S -> Task S B) :
  (forall c, keeps R (k c)) -> keeps R (bind get k).
Proof. intros H s. unfold bind, get. apply H. Qed.

(** The same for one run: the second task may rely on what the first has
    returned. *)
Lemma bind_rel {A B} (m : Task S A) (k : A -> Task S B) (s : S) :
  R s (snd (m s)) ->
  (forall a s', m s = (Ok a, s') -> R s' (snd (k a s'))) ->
  R s (snd (bind m k s)).
Proof.
  intros Hm Hk. unfold bind.
  destruct (m s) as [[a|e|] s'] eqn:E; simpl in *; try exact Hm.
  eapply R_trans; [exact Hm|]. apply Hk. reflexivity.
Qed.

Lemma keeps_for_each {A} (l : list A) (body : A -> Task S unit) :
  (forall x, keeps R (body x)) -> keeps R (for_each l body).
Proof.
  intros Hb. induction l as [|x l IH]; simpl.
  - apply keeps_ret.
  - apply keeps_bind; [apply Hb|intros _; exact IH].
Qed.

End Keeps.

(** One structural step through a task, for a relation with reflexivity
    [Hr] and transitivity [Ht]. *)
Ltac keeps_step Hr Ht :=
  lazymatch goal with
  | |- keeps _ (ret _) => apply keeps_ret; exact Hr
  | |- keeps _ (lift _) => apply keeps_lift; exact Hr
  | |- keeps _ (bind get _) => apply keeps_get_bind; intros ?
  | |- keeps _ (bind _ _) => apply keeps_bind; [exact Ht | | intros ?]
  | |- keeps _ (for_each _ _) => apply keeps_for_each; [exact Hr | exact Ht | intros ?]
  | |- keeps _ (modify _) => apply keeps_modify; intros ?
  end.

(** ** ChainStreamer *)

Section ChainStreamerFacts.

Import ChainStreamer.

Lemma emits_refl P cs : emits P cs cs.
Proof.
  repeat split. exists []. split; [symmetry; apply app_nil_r|constructor].
Qed.

Lemma emits_trans P a b c : emits P a b -> emits P b c -> emits P a c.
Proof.
  intros (Hf1 & Ho1 & Hb1 & n1 & Hs1 & Hp1) (Hf2 & Ho2 & Hb2 & n2 & Hs2 & Hp2).
  repeat split; try congruence.
  exists (n1 ++ n2). split.
  - rewrite Hs2, Hs1. symmetry. apply app_assoc.
  - apply Forall_app. split; assumption.
Qed.

Lemma same_client_refl cs : same_client cs cs.
Proof. reflexivity. Qed.

Lemma same_client_trans a b c : same_client a b -> same_client b c -> same_client a c.
Proof. unfold same_client. congruence. Qed.

Lemma send_emits P m : P m -> keeps (emits P) (send m).
Proof.
  intros Hm cs. unfold send, sendOrDone.
  destruct (done (chan cs)) as [[|k]|]; simpl.
  - destruct cs as [f [s d] c h n fr fb bo ft]. apply emits_refl.
  - repeat split. exists [m]. split; [reflexivity|constructor; [exact Hm|constructor]].
  - repeat split. exists [m]. split; [reflexivity|constructor; [exact Hm|constructor]].
Qed.

Lemma wait_emits P : keeps (emits P) wait.
Proof.
  intros cs. unfold wait, waitOrDone.
  destruct (done (chan cs)) as [[|k]|]; simpl;
    repeat split; exists []; (split; [symmetry; apply app_nil_r|constructor]).
Qed.

Lemma fetch_emits P f : keeps (emits P) (fetch f).
Proof.
  intros cs. unfold fetch, GetLogs. simpl.
  repeat split. exists []. split; [symmetry; apply app_nil_r|constructor].
Qed.

Lemma with_next_emits P n cs : emits P cs (with_next n cs).
Proof.
  repeat split. exists []. split; [symmetry; apply app_nil_r|constructor].
Qed.

Lemma with_history_emits P h cs : emits P cs (with_history h cs).
Proof.
  repeat split. exists []. split; [symmetry; apply app_nil_r|constructor].
Qed.

Lemma send_same_client m : keeps same_client (send m).
Proof.
  intros cs. unfold send, sendOrDone, same_client.
  destruct (done (chan cs)) as [[|k]|]; reflexivity.
Qed.

Lemma wait_same_client : keeps same_client wait.
Proof.
  intros cs. unfold wait, waitOrDone, same_client.
  destruct (done (chan cs)) as [[|k]|]; reflexivity.
Qed.

(** The emission step sends [Append] and [SetNext] messages only. *)
Lemma emit_emits P b :
  (forall m, MsgAction m <> Rollback -> P m) -> keeps (emits P) (emit b).
Proof.
  intros HP. unfold emit.
  repeat keeps_step (emits_refl P) (emits_trans P).
  - apply with_history_emits.
  - apply send_emits. apply HP. simpl. discriminate.
  - apply with_next_emits.
  - apply send_emits. apply HP. simpl. discriminate.
Qed.

Lemma emit_same_client b : keeps same_client (emit b).
Proof.
  unfold emit.
  repeat keeps_step same_client_refl same_client_trans;
    try reflexivity; apply send_same_client.
Qed.

(** The reconciliation step sends at most one message: the [Rollback] to the
    rollback point, and only after a mismatch. *)
Lemma reconcile_emits P b cs :
  (forall L, MatchBlocks b (history cs) = Ok (false, L) ->
             P (RollbackMsg (rollback_point (from cs) L))) ->
  emits P cs (snd (reconcile b cs)).
Proof.
  intros HP. unfold reconcile, bind, get, lift. simpl.
  destruct (MatchBlocks b (history cs)) as [[[|] L]|e|] eqn:EM; simpl;
    try apply emits_refl.
  specialize (HP L eq_refl).
  unfold modify. simpl.
  destruct (BlockSlice.Rollback (rollback_point (from cs) L) (history cs))
    as [h|e|]; simpl; try apply with_next_emits.
  pose proof (send_emits P _ HP
                (with_history h (with_next (rollback_point (from cs) L) cs))) as Hs.
  destruct (send (RollbackMsg (rollback_point (from cs) L))
              (with_history h (with_next (rollback_point (from cs) L) cs)))
    as [[u|e|] cs']; simpl in *; exact Hs.
Qed.

Lemma reconcile_same_client b : keeps same_client (reconcile b).
Proof.
  unfold reconcile.
  do 2 keeps_step same_client_refl same_client_trans.
  { keeps_step same_client_refl same_client_trans. }
  match goal with |- context [fst ?m] => destruct (fst m) end;
    repeat keeps_step same_client_refl same_client_trans;
    try reflexivity; apply send_same_client.
Qed.

Lemma process_emits P b cs :
  (forall m, MsgAction m <> Rollback -> P m) ->
  (forall L, MatchBlocks b (history cs) = Ok (false, L) ->
             P (RollbackMsg (rollback_point (from cs) L))) ->
  emits P cs (snd (process b cs)).
Proof.
  intros HP HR. unfold process, bind.
  pose proof (reconcile_emits P b cs HR) as H1.
  destruct (reconcile b cs) as [[[|]|e|] cs1]; simpl in *; try exact H1.
  eapply emits_trans; [exact H1|]. apply emit_emits. exact HP.
Qed.

Lemma process_same_client b : keeps same_client (process b).
Proof.
  unfold process. apply keeps_bind.
  - exact same_client_trans.
  - apply reconcile_same_client.
  - intros [|]; [apply emit_same_client|apply keeps_ret; exact same_client_refl].
Qed.

(** The rollback point never falls below the lower bound of the
    subscription. *)
Lemma rollback_point_floor f L : is_uint64 f -> f <= rollback_point f L.
Proof.
  intros Hf. unfold rollback_point.
  pose proof (wrap64_range (L + 1)) as Hw. fold (add64 L 1) in Hw.
  unfold is_uint64 in *.
  destruct (add64 L 1 <? f) eqn:E.
  - apply Z.ltb_lt in E.
    rewrite (sub64_small f 1) by (unfold is_uint64; lia).
    rewrite add64_small by (unfold is_uint64; lia). lia.
  - apply Z.ltb_ge in E.
    pose proof (wrap64_range (L + 1)) as Hw'. exact E.
Qed.

(** With unbounded integers it is [max L (from - 1) + 1]. *)
Lemma rollback_point_max f L :
  is_uint64 f -> 0 <= L < uint64_modulus - 1 ->
  rollback_point f L = Z.max L (f - 1) + 1.
Proof.
  intros Hf HL. unfold rollback_point. unfold is_uint64 in *.
  rewrite (add64_small L 1) by (unfold is_uint64; lia).
  destruct (L + 1 <? f) eqn:E.
  - apply Z.ltb_lt in E.
    rewrite (sub64_small f 1) by (unfold is_uint64; lia).
    rewrite add64_small by (unfold is_uint64; lia). lia.
  - apply Z.ltb_ge in E.
    rewrite add64_small by (unfold is_uint64; lia). lia.
Qed.

Lemma above_other f m : MsgAction m <> Rollback -> above f m.
Proof. intros H H'. contradiction. Qed.

Lemma iteration_emits cs :
  is_uint64 (from cs) -> emits (above (from cs)) cs (snd (iteration cs)).
Proof.
  intros Hf. unfold iteration.
  set (R := emits (above (from cs))).
  assert (Ht : forall x y z, R x y -> R y z -> R x z) by apply emits_trans.
  apply (bind_rel R Ht); [apply emits_refl|].
  intros c s' [= <- <-].
  apply (bind_rel R Ht); [apply fetch_emits|].
  intros b cs1 Hfetch.
  assert (Hfrom : from cs1 = from cs).
  { match type of Hfetch with
    | fetch ?f _ = _ => pose proof (fetch_emits (fun _ => True) f cs) as H
    end.
    rewrite Hfetch in H. apply H. }
  apply (bind_rel R Ht).
  - apply process_emits.
    + intros m. apply above_other.
    + intros L _ _. simpl. rewrite Hfrom. apply rollback_point_floor. exact Hf.
  - intros b' cs2 _. destruct (DistanceFromHead b' =? 0).
    + apply wait_emits.
    + apply emits_refl.
Qed.

Lemma run_emits fuel cs :
  is_uint64 (from cs) -> emits (above (from cs)) cs (snd (run fuel cs)).
Proof.
  revert cs. induction fuel as [|fuel IH]; intros cs Hf; simpl.
  - apply emits_refl.
  - apply (bind_rel (emits (above (from cs))) (emits_trans _));
      [apply iteration_emits; exact Hf|].
    intros u cs1 Hit.
    assert (Hfrom : from cs1 = from cs).
    { pose proof (iteration_emits cs Hf) as H. rewrite Hit in H. apply H. }
    rewrite <- Hfrom. apply IH. rewrite Hfrom. exact Hf.
Qed.

(** What the log source is asked in one turn of the loop: the call of
    [fetch], and nothing after it. *)
Lemma iteration_client cs :
  client (snd (iteration cs)) =
  client (snd (fetch (if next cs <? add64 (from cs) (batchOverlap cs)
                      then from cs else sub64 (next cs) (batchOverlap cs)) cs)).
Proof.
  unfold iteration.
  change (bind get ?k cs) with (k cs cs). cbv beta.
  apply (bind_rel (fun s s' => client s' = client (snd (fetch _ cs)))).
  - intros x y z _ H. exact H.
  - reflexivity.
  - intros b cs1 Hfetch. rewrite Hfetch. simpl.
    assert (Hk : keeps same_client
                   (b' <- process b ;; if DistanceFromHead b' =? 0 then wait else ret tt)).
    { apply keeps_bind; [exact same_client_trans|apply process_same_client|].
      intros b'. destruct (DistanceFromHead b' =? 0);
        [apply wait_same_client|apply keeps_ret; exact same_client_refl]. }
    apply Hk.
Qed.

Lemma match_loop_last (obs nbs : list Block) (i : nat) (last : Z) ok L :
  match_loop obs nbs i last = Ok (ok, L) ->
  L = last \/ exists nb, In nb nbs /\ L = Number nb.
Proof.
  revert i last. induction obs as [|ob obs IH]; intros i last; simpl.
  - intros [= _ <-]. left. reflexivity.
  - destruct (nth_error nbs i) as [nb|] eqn:E; [|discriminate].
    destruct (negb (bytes_Equal (common.Bytes (Hash ob)) (common.Bytes (Hash nb)))).
    + intros [= _ <-]. left. reflexivity.
    + intros H. destruct (IH _ _ H) as [->|Hin]; [|right; exact Hin].
      right. exists nb. split; [eapply nth_error_In; exact E|reflexivity].
Qed.

(** The last good block of a well-formed batch leaves room for [+ 1]. *)
Lemma MatchBlocks_last_good (new old : BlockSlice) ok L :
  BlockSlice.valid new -> MatchBlocks new old = Ok (ok, L) ->
  0 <= L < uint64_modulus - 1.
Proof.
  intros Hv. unfold MatchBlocks.
  destruct (End_ new <? End_ old); [discriminate|]. cbv zeta. intros H.
  apply match_loop_last in H. destruct H as [->|[nb [Hin ->]]].
  - unfold uint64_modulus. lia.
  - destruct Hv as [Hs He _ _ _ Hall]. rewrite Forall_forall in Hall.
    specialize (Hall nb Hin). unfold is_uint64 in *. lia.
Qed.

End ChainStreamerFacts.

(** C5.  Every [Rollback] message of a ChainStreamer
    subscription started at [from] carries a number at or above [from].  The
    rollback point of a reconciliation that found last good block [L] in a
    well-formed batch is [max L (from - 1) + 1], and it is the number of every
    [Rollback] that [process] sends for the batch. *)
Theorem C5_Rollback_never_below_from :
  (forall (cl : Client) (fuel : nat) (d : Done) (from_ : Z)
          (cr : ChainStreamer.t) (sub : Subscription),
      is_uint64 from_ ->
      ChainStreamer.Stream cl fuel d from_ cr = Ok sub ->
      Forall (above from_) (C sub)) /\
  (forall (cs : ChainStreamer.chainStreamer) (b : BlockSlice) (ok : bool) (L : Z),
      is_uint64 (ChainStreamer.from cs) ->
      BlockSlice.valid b ->
      MatchBlocks b (ChainStreamer.history cs) = Ok (ok, L) ->
      ChainStreamer.rollback_point (ChainStreamer.from cs) L
        = Z.max L (ChainStreamer.from cs - 1) + 1 /\
      emits (fun m => MsgAction m = Rollback ->
                      MsgNumber m = Z.max L (ChainStreamer.from cs - 1) + 1)
            cs (snd (ChainStreamer.process b cs))).
Proof.
  split.
  - intros cl fuel d from_ cr sub Hf. unfold ChainStreamer.Stream, ChainStreamer.makeChainStreamer.
    destruct (dialError cl); [discriminate|].
    match goal with
    | |- context [ChainStreamer.run fuel ?c] =>
        pose proof (run_emits fuel c Hf) as H; destruct (ChainStreamer.run fuel c) as [r cs']
    end.
    intros [= <-]. simpl in *.
    destruct H as (_ & _ & _ & new & -> & Hall). exact Hall.
  - intros cs b ok L Hf Hv HM.
    pose proof (MatchBlocks_last_good _ _ _ _ Hv HM) as HL.
    pose proof (rollback_point_max _ _ Hf HL) as Hp.
    split; [exact Hp|].
    apply process_emits.
    + intros m Hm Hm'. contradiction.
    + intros L' HM'. rewrite HM in HM'. injection HM' as _ <-.
      intros _. simpl. exact Hp.
Qed.

Lemma C5_Rollback_never_below_from_witness :
  Forall (above 100)
    [AppendMsg (block_at 145 x0a); SetNextMsg 151; RollbackMsg 100].
Proof.
  apply (proj1 C5_Rollback_never_below_from
           client_reorg_145 2%nat None 100 default_streamer
           {| C := [AppendMsg (block_at 145 x0a); SetNextMsg 151; RollbackMsg 100];
              Err := Pending |}).
  - unfold is_uint64, uint64_modulus. lia.
  - reflexivity.
Defined.

Lemma sub64_add64_1 (a b : Z) : sub64 (add64 a b) 1 = wrap64 (a + b - 1).
Proof. unfold sub64, add64, wrap64. apply Zminus_mod_idemp_l. Qed.

(** C6.  In a turn of the polling loop, with [from + overlap] and
    the end of the range within 64 bits, the log source is asked for
    [[fetch_from, fetch_to]] where [fetch_from = max from (next - overlap)] and
    [fetch_to = fetch_from + batch_size - 1], also when [next - overlap] is
    negative; [fetch_from] is [from] when [next < from + overlap] and
    [next - overlap] otherwise. *)
Theorem C6_fetch_range (cs : ChainStreamer.chainStreamer) :
  is_uint64 (ChainStreamer.from cs) ->
  is_uint64 (ChainStreamer.next cs) ->
  is_uint64 (ChainStreamer.batchOverlap cs) ->
  0 < ChainStreamer.fetchBatchSize cs ->
  ChainStreamer.from cs + ChainStreamer.batchOverlap cs < uint64_modulus ->
  let fetch_from :=
    Z.max (ChainStreamer.from cs) (ChainStreamer.next cs - ChainStreamer.batchOverlap cs) in
  let fetch_to := fetch_from + ChainStreamer.fetchBatchSize cs - 1 in
  fetch_to < uint64_modulus ->
  (exists q,
      calls (ChainStreamer.client (snd (ChainStreamer.iteration cs)))
        = calls (ChainStreamer.client cs) ++ [q] /\
      ethereum.FromBlock q = Some fetch_from /\
      ethereum.ToBlock q = Some fetch_to) /\
  (ChainStreamer.next cs < ChainStreamer.from cs + ChainStreamer.batchOverlap cs ->
   fetch_from = ChainStreamer.from cs) /\
  (ChainStreamer.from cs + ChainStreamer.batchOverlap cs <= ChainStreamer.next cs ->
   fetch_from = ChainStreamer.next cs - ChainStreamer.batchOverlap cs).
Proof.
  intros Hf Hn Ho Hb Hsum fetch_from fetch_to Hto.
  unfold is_uint64 in *.
  split; [|subst fetch_from; lia].
  rewrite iteration_client. unfold ChainStreamer.fetch, GetLogs. simpl.
  eexists. split; [reflexivity|]. simpl.
  assert (Eb : (ChainStreamer.fetchBatchSize cs =? 0) = false) by (apply Z.eqb_neq; lia).
  rewrite Eb. rewrite sub64_add64_1.
  rewrite (add64_small (ChainStreamer.from cs)) by (unfold is_uint64; lia).
  destruct (ChainStreamer.next cs <? ChainStreamer.from cs + ChainStreamer.batchOverlap cs) eqn:E.
  - apply Z.ltb_lt in E.
    assert (Hff : fetch_from = ChainStreamer.from cs) by (subst fetch_from; lia).
    split; [congruence|]. f_equal.
    rewrite wrap64_small by (unfold is_uint64; subst fetch_to; lia).
    subst fetch_to. lia.
  - apply Z.ltb_ge in E.
    assert (Hff : fetch_from = ChainStreamer.next cs - ChainStreamer.batchOverlap cs)
      by (subst fetch_from; lia).
    rewrite sub64_small by (unfold is_uint64; lia).
    split; [congruence|]. f_equal.
    rewrite wrap64_small by (unfold is_uint64; subst fetch_to; lia).
    subst fetch_to. lia.
Qed.

(** At the start of a subscription from block 3, [next - overlap] is [-7]
    (the unsigned subtraction wraps) and the overlap is cut at [from]: the
    first request is for [[3, 2002]]. *)
Lemma C6_fetch_range_witness :
  exists q,
    calls (ChainStreamer.client
             (snd (ChainStreamer.iteration (streamer_at 3 client_head_moves_back))))
      = calls (ChainStreamer.client (streamer_at 3 client_head_moves_back)) ++ [q] /\
    ethereum.FromBlock q = Some 3 /\
    ethereum.ToBlock q = Some 2002.
Proof.
  refine (proj1 (C6_fetch_range (streamer_at 3 client_head_moves_back) _ _ _ _ _ _));
    simpl; unfold is_uint64, uint64_modulus, DefaultBatchOverlap, DefaultFetchBatchSize;
    lia.
Defined.

(** C9.  When the batch fetched in a turn ends before the
    history, [MatchBlocks] returns an error, [process] returns it without
    sending a message or touching the state, and [run] returns it: the
    subscription ends with that error.  When the batch ends at or after the
    history, [MatchBlocks] returns no error: its result is that of the
    hash-by-hash comparison. *)
Theorem C9_shorter_fetch_ends_subscription :
  (forall (cs cs1 : ChainStreamer.chainStreamer) (b : BlockSlice) (fuel : nat),
      ChainStreamer.fetch
        (if ChainStreamer.next cs
              <? add64 (ChainStreamer.from cs) (ChainStreamer.batchOverlap cs)
         then ChainStreamer.from cs
         else sub64 (ChainStreamer.next cs) (ChainStreamer.batchOverlap cs)) cs
        = (Ok b, cs1) ->
      End_ b < End_ (ChainStreamer.history cs) ->
      let e := ErrNewEndsBeforeOld (Start b) (End_ b)
                 (Start (ChainStreamer.history cs)) (End_ (ChainStreamer.history cs)) in
      MatchBlocks b (ChainStreamer.history cs) = Fail e /\
      ChainStreamer.process b cs1 = (Fail e, cs1) /\
      sent (ChainStreamer.chan cs1) = sent (ChainStreamer.chan cs) /\
      ChainStreamer.run (S fuel) cs = (Fail e, cs1) /\
      terminal_of (fst (ChainStreamer.run (S fuel) cs)) = Posted (Some e)) /\
  (forall new old : BlockSlice,
      End_ old <= End_ new ->
      MatchBlocks new old =
        match_loop (Blocks (BlockSlice.DeleteBeforeBlock (Start new) old)) (Blocks new) O 0 /\
      forall e, MatchBlocks new old <> Fail e).
Proof.
  split.
  - intros cs cs1 b fuel Hfetch Hend e.
    assert (Hcs1 : ChainStreamer.history cs1 = ChainStreamer.history cs /\
                   ChainStreamer.chan cs1 = ChainStreamer.chan cs).
    { unfold ChainStreamer.fetch, GetLogs in Hfetch. simpl in Hfetch.
      injection Hfetch as _ <-. split; reflexivity. }
    destruct Hcs1 as [Hh Hc].
    assert (HM : MatchBlocks b (ChainStreamer.history cs) = Fail e).
    { unfold MatchBlocks. apply Z.ltb_lt in Hend. rewrite Hend. reflexivity. }
    assert (HP : ChainStreamer.process b cs1 = (Fail e, cs1)).
    { unfold ChainStreamer.process, ChainStreamer.reconcile, bind, get, lift.
      rewrite Hh, HM. reflexivity. }
    assert (HR : ChainStreamer.run (S fuel) cs = (Fail e, cs1)).
    { change (ChainStreamer.run (S fuel))
        with (ChainStreamer.iteration ;; ChainStreamer.run fuel).
      unfold ChainStreamer.iteration.
      unfold bind at 1 2. unfold get. unfold bind at 1. rewrite Hfetch.
      unfold bind. rewrite HP. reflexivity. }
    repeat split; try assumption.
    + rewrite Hc. reflexivity.
    + rewrite HR. reflexivity.
  - intros new old Hend.
    assert (E : (End_ new <? End_ old) = false) by (apply Z.ltb_ge; lia).
    unfold MatchBlocks. rewrite E. cbv zeta.
    split; [reflexivity|]. intros e. apply match_loop_never_fails.
Qed.

(** The head of the source moves from 150 back to 148 between two polls of a
    subscription from block 100: the second batch ends at 149, before the
    history, which ends at 151. *)
Lemma C9_shorter_fetch_ends_subscription_witness :
  ChainStreamer.run 1 streamer_after_first_poll =
    (Fail (ErrNewEndsBeforeOld 141 149 100 151),
     snd (ChainStreamer.fetch 141 streamer_after_first_poll)).
Proof.
  refine (proj1 (proj2 (proj2 (proj2
            (proj1 C9_shorter_fetch_ends_subscription
               streamer_after_first_poll
               (snd (ChainStreamer.fetch 141 streamer_after_first_poll))
               short_fetch O _ _))))).
  - reflexivity.
  - simpl. lia.
Defined.

(** ** The snapshot codec *)

Section CodecFacts.

Lemma set_bytes_exact (n : nat) (b : list byte) :
  length b = n -> common.set_bytes n b = b.
Proof.
  intros H. unfold common.set_bytes. rewrite H, Nat.sub_diag. simpl.
  rewrite H, Nat.sub_diag. reflexivity.
Qed.

Lemma BytesToHash_Bytes (h : common.Hash) :
  common.wf_Hash h -> common.BytesToHash (common.Bytes h) = h.
Proof. apply set_bytes_exact. Qed.

Lemma BytesToAddress_Bytes (a : common.Address) :
  common.wf_Address a -> common.BytesToAddress (common.Bytes a) = a.
Proof. apply set_bytes_exact. Qed.

Lemma map_roundtrip {A B} (f : B -> A) (g : A -> B) (P : A -> Prop) (l : list A) :
  (forall x, P x -> f (g x) = x) -> Forall P l -> map f (map g l) = l.
Proof.
  intros Hfg. induction 1 as [|x l Hx _ IH]; simpl; [reflexivity|].
  rewrite Hfg by exact Hx. rewrite IH. reflexivity.
Qed.

Lemma Hashes_roundtrip (hs : list common.Hash) :
  Forall common.wf_Hash hs -> map common.BytesToHash (map common.Bytes hs) = hs.
Proof. apply map_roundtrip. exact BytesToHash_Bytes. Qed.

Lemma Addresses_roundtrip (l : list common.Address) :
  Forall common.wf_Address l -> map common.BytesToAddress (map common.Bytes l) = l.
Proof. apply map_roundtrip. exact BytesToAddress_Bytes. Qed.

Lemma map_result_roundtrip {A B} (f : B -> result A) (g : A -> B) (P : A -> Prop)
      (l : list A) :
  (forall x, P x -> f (g x) = Ok x) -> Forall P l -> map_result f (map g l) = Ok l.
Proof.
  intros Hfg. induction 1 as [|x l Hx _ IH]; simpl; [reflexivity|].
  rewrite Hfg by exact Hx. simpl. rewrite IH. reflexivity.
Qed.

(** *** Hexadecimal text *)

Lemma digit_char_value (d : Z) :
  0 <= d < 16 ->
  big.digit_value (big.digit_char d) = Some d /\
  Ascii.eqb (big.digit_char d) "_" = false.
Proof.
  intros H.
  assert (Hd : d = 0 \/ d = 1 \/ d = 2 \/ d = 3 \/ d = 4 \/ d = 5 \/ d = 6 \/ d = 7 \/
               d = 8 \/ d = 9 \/ d = 10 \/ d = 11 \/ d = 12 \/ d = 13 \/ d = 14 \/ d = 15)
    by lia.
  repeat (destruct Hd as [->|Hd]; [split; reflexivity|]).
  subst d. split; reflexivity.
Qed.

Lemma scan_digits (ds : list Z) (acc : Z) (count : nat) :
  Forall (fun d => 0 <= d < 16) ds ->
  big.scan 16 (big.string_of_digits ds) acc count big.TDigit =
  Some (fold_left (fun a d => a * 16 + d) ds acc, (count + length ds)%nat).
Proof.
  intros H. revert acc count.
  induction H as [|d ds Hd _ IH]; intros acc count; simpl.
  - rewrite Nat.add_0_r. reflexivity.
  - destruct (digit_char_value d Hd) as [Hv Hsep].
    rewrite Hsep, Hv.
    assert (E : (d <? 16) = true) by (apply Z.ltb_lt; lia).
    rewrite E, IH. rewrite Nat.add_succ_r. reflexivity.
Qed.

Lemma digits_le_spec (fuel : nat) (n : Z) :
  0 <= n < 2 ^ Z.of_nat (S fuel) ->
  big.digits_le (S fuel) 16 n <> [] /\
  Forall (fun d => 0 <= d < 16) (big.digits_le (S fuel) 16 n) /\
  fold_right (fun d a => a * 16 + d) 0 (big.digits_le (S fuel) 16 n) = n.
Proof.
  revert n. induction fuel as [|fuel IH]; intros n Hn.
  - change (2 ^ Z.of_nat 1) with 2 in Hn.
    assert (E : (n <? 16) = true) by (apply Z.ltb_lt; lia).
    simpl. rewrite E. split; [discriminate|].
    split; [repeat constructor; lia|simpl; lia].
  - remember (S fuel) as k eqn:Hk.
    simpl big.digits_le. destruct (n <? 16) eqn:E.
    + apply Z.ltb_lt in E. split; [discriminate|].
      split; [repeat constructor; lia|simpl; lia].
    + apply Z.ltb_ge in E.
      rewrite Nat2Z.inj_succ, Z.pow_succ_r in Hn by lia.
      assert (Hq : 0 <= n / 16 < 2 ^ Z.of_nat k).
      { split; [apply Z.div_pos; lia|].
        apply Z.div_lt_upper_bound; lia. }
      subst k. destruct (IH _ Hq) as (_ & Hall & Hval).
      split; [discriminate|]. split.
      * constructor; [apply Z.mod_pos_bound; lia|exact Hall].
      * cbn [fold_right]. rewrite Hval. pose proof (Z.div_mod n 16). lia.
Qed.

Lemma digits_spec (n : Z) :
  0 <= n ->
  big.digits 16 n <> [] /\
  Forall (fun d => 0 <= d < 16) (big.digits 16 n) /\
  fold_left (fun a d => a * 16 + d) (big.digits 16 n) 0 = n.
Proof.
  intros Hn. unfold big.digits.
  set (fuel := S (Z.to_nat (Z.log2 n))).
  assert (Hfuel : 0 <= n < 2 ^ Z.of_nat fuel).
  { subst fuel. rewrite Nat2Z.inj_succ, Z2Nat.id by apply Z.log2_nonneg.
    split; [exact Hn|].
    destruct (Z.eq_dec n 0) as [->|Hnz]; [reflexivity|].
    apply Z.log2_spec. lia. }
  subst fuel.
  destruct (digits_le_spec _ n Hfuel) as (Hne & Hall & Hval).
  split; [|split].
  - intros H. apply Hne. apply (f_equal (@rev Z)) in H.
    rewrite rev_involutive in H. exact H.
  - apply Forall_rev. exact Hall.
  - rewrite <- (fold_left_rev_right (fun d a => a * 16 + d)), rev_involutive.
    exact Hval.
Qed.

(** What [BigIntToString] writes for a natural number, [SetString] reads
    back. *)
Lemma SetString0_Text16 (v : Z) :
  0 <= v -> big.SetString0 ("0x" ++ big.Text 16 v) = Some v.
Proof.
  intros Hv. unfold big.Text.
  assert (E : (v <? 0) = false) by (apply Z.ltb_ge; lia).
  rewrite E, Z.abs_eq by lia.
  destruct (digits_spec v Hv) as (Hne & Hall & Hval).
  cbn -[big.scan big.digits].
  rewrite (scan_digits _ 0 O Hall). rewrite Hval.
  destruct (big.digits 16 v) as [|d ds]; [contradiction|reflexivity].
Qed.

Lemma BigInt_roundtrip (x : option Z) :
  wf_BigInt x -> BigIntFromString (BigIntToString x) = Ok x.
Proof.
  destruct x as [v|]; intros Hv; [|reflexivity].
  unfold BigIntFromString, BigIntToString.
  rewrite SetString0_Text16 by exact Hv. reflexivity.
Qed.

(** *** Events, blocks, slices and filters *)

Lemma Event_roundtrip (e : Event) :
  wf_Event e -> EventFromProto (EventToProto e) = Ok e.
Proof.
  intros [Ha Ht Hb Hx Hv Hf]. destruct e; simpl in *.
  unfold EventFromProto, EventToProto. simpl.
  assert (E : (length (common.Bytes Address0) =? common.AddressLength)%nat = true)
    by (apply Nat.eqb_eq; exact Ha).
  rewrite E. simpl negb. cbv iota.
  rewrite BigInt_roundtrip by exact Hv. simpl.
  rewrite (Hashes_roundtrip _ Ht).
  rewrite !BytesToHash_Bytes, !BytesToAddress_Bytes by assumption.
  reflexivity.
Qed.

Lemma Block_roundtrip (b : Block) :
  wf_Block b -> BlockFromProto (BlockToProto b) = Ok b.
Proof.
  intros [Hh He]. destruct b; simpl in *.
  unfold BlockFromProto, BlockToProto. simpl.
  rewrite (map_result_roundtrip (fun pbe => deref pbe EventFromProto)
             (fun e => Some (EventToProto e)) wf_Event _ Event_roundtrip He).
  simpl. rewrite BytesToHash_Bytes by exact Hh. reflexivity.
Qed.

(** Inside the window the loop of [BlockSliceToProto] reaches every block. *)
Lemma blocks_to_proto_inside (end_ : Z) (bs : list Block) :
  Forall (fun blk => Number blk < end_) bs ->
  blocks_to_proto end_ bs = map (fun b => Some (BlockToProto b)) bs.
Proof.
  induction 1 as [|b bs Hb _ IH]; simpl; [reflexivity|].
  assert (E : (end_ <=? Number b) = false) by (apply Z.leb_gt; exact Hb).
  rewrite E, IH. reflexivity.
Qed.

Lemma BlockSlice_roundtrip (bs : BlockSlice) :
  BlockSlice.valid bs -> Forall wf_Block (Blocks bs) ->
  BlockSliceFromProto (BlockSliceToProto bs) = Ok bs.
Proof.
  intros Hv Hb. destruct Hv as [_ _ _ _ _ Hin]. destruct bs; simpl in *.
  unfold BlockSliceFromProto, BlockSliceToProto. simpl.
  rewrite blocks_to_proto_inside
    by (eapply Forall_impl; [|exact Hin]; simpl; intros; lia).
  rewrite (map_result_roundtrip (fun pbb => deref pbb BlockFromProto)
             (fun b => Some (BlockToProto b)) wf_Block _ Block_roundtrip Hb).
  reflexivity.
Qed.

Lemma Topics_roundtrip (ts : list (list common.Hash)) :
  Forall (Forall common.wf_Hash) ts ->
  map_result
    (fun pbt => deref pbt (fun t => Ok (map common.BytesToHash (epb.TopicData t))))
    (map (fun t => Some {| epb.TopicData := map common.Bytes t |}) ts) = Ok ts.
Proof.
  apply map_result_roundtrip. intros t Ht. simpl.
  rewrite (Hashes_roundtrip _ Ht). reflexivity.
Qed.

Lemma FilterQuery_roundtrip (q : ethereum.FilterQuery) :
  wf_FilterQuery q -> FilterQueryFromProto (FilterQueryToProto q) = Ok q.
Proof.
  intros [Hf Ht Ha Htop]. destruct q; simpl in *.
  unfold FilterQueryFromProto, FilterQueryToProto. simpl.
  rewrite (Topics_roundtrip _ Htop).
  simpl. rewrite !BigInt_roundtrip by assumption. simpl.
  rewrite (Addresses_roundtrip _ Ha).
  reflexivity.
Qed.

End CodecFacts.

(** A negative integer is written as [0x-1], which [SetString] does not
    read: the codec is for natural numbers. *)
Example BigInt_negative_not_read_back :
  BigIntFromString (BigIntToString (Some (-1))) = Fail (ErrParseBigInt "0x-1").
Proof. reflexivity. Qed.

(** A block at or past the end of its slice stops the encoding loop, and the
    nil entry it leaves makes the decoder panic. *)
Example BlockSlice_past_end_not_read_back :
  BlockSliceFromProto (BlockSliceToProto slice_past_end) = Panic.
Proof. reflexivity. Qed.

(** C7.  For a valid event-log file (a well-formed filter, a
    slice within its invariants, well-formed blocks), decoding the encoding
    gives the log back; an absent integer is written as the empty string and
    read back as absent. *)
Theorem C7_codec_roundtrip (l : InMemoryEventLog.t) :
  wf_EventLog l ->
  InMemoryEventLogFromProto (InMemoryEventLog.ToProto l) = Ok l /\
  BigIntToString None = ""%string /\
  BigIntFromString "" = Ok None.
Proof.
  intros [Hf Hv Hb]. split; [|split; reflexivity].
  destruct l as [f bs]. simpl in *.
  unfold InMemoryEventLogFromProto, InMemoryEventLog.ToProto. simpl.
  rewrite FilterQuery_roundtrip by exact Hf. simpl.
  rewrite BlockSlice_roundtrip by assumption. reflexivity.
Qed.

Lemma log_with_event_wf : wf_EventLog log_with_event.
Proof.
  constructor; simpl.
  - constructor; simpl; try lia; try exact I; repeat constructor.
  - constructor; simpl; unfold is_uint64, uint64_modulus; try lia;
      repeat constructor; simpl; lia.
  - repeat constructor; simpl; lia.
Qed.

Lemma C7_codec_roundtrip_witness :
  InMemoryEventLogFromProto (InMemoryEventLog.ToProto log_with_event)
    = Ok log_with_event.
Proof.
  exact (proj1 (C7_codec_roundtrip log_with_event log_with_event_wf)).
Defined.

(* ================================================================= *)
(** * Further properties of the package *)
(* ================================================================= *)

(** ** Block slices: no-ops, idempotence, concatenation *)

Section BlockSliceAlgebra.

Import BlockSlice.

Lemma scan_up_stop n bs :
  match skipn (scan_up n bs) bs with
  | [] => True
  | blk :: _ => n <= Number blk
  end.
Proof.
  induction bs as [|blk bs IH]; simpl; [exact I|].
  destruct (n <=? Number blk) eqn:E; simpl.
  - apply Z.leb_le. exact E.
  - exact IH.
Qed.

Lemma scan_up_head n bs :
  match bs with
  | [] => True
  | blk :: _ => n <= Number blk
  end ->
  scan_up n bs = O.
Proof.
  destruct bs as [|blk bs]; simpl; [reflexivity|].
  intros H. apply Z.leb_le in H. rewrite H. reflexivity.
Qed.

Lemma scan_down_stop n bs k i :
  scan_down n bs k = S i ->
  exists blk, nth_error bs i = Some blk /\ Number blk < n.
Proof.
  induction k as [|j IH]; simpl; [discriminate|].
  destruct (nth_error bs j) as [blk|] eqn:E.
  - destruct (Number blk <? n) eqn:L.
    + intros [= <-]. exists blk. split; [exact E|apply Z.ltb_lt; exact L].
    + exact IH.
  - exact IH.
Qed.

Lemma scan_down_trimmed n bs :
  let t := firstn (scan_down n bs (length bs)) bs in
  scan_down n t (length t) = length t.
Proof.
  intros t. subst t.
  pose proof (scan_down_le n bs (length bs)) as Hle.
  destruct (scan_down n bs (length bs)) as [|i] eqn:E; [reflexivity|].
  destruct (scan_down_stop _ _ _ _ E) as [blk [Hnth Hlt]].
  rewrite length_firstn, Nat.min_l by exact Hle. cbn [scan_down].
  rewrite nth_error_firstn.
  assert (Hi : (i <? S i)%nat = true) by (apply Nat.ltb_lt; lia).
  rewrite Hi, Hnth.
  apply Z.ltb_lt in Hlt. rewrite Hlt. reflexivity.
Qed.

(** X1.  [Rollback] to the end and [DeleteBeforeBlock] at the start leave a slice
    within its invariants exactly as it is. *)
Theorem Rollback_end_DeleteBefore_start_noop (b : BlockSlice) :
  valid b ->
  Rollback (End_ b) b = Ok b /\ DeleteBeforeBlock (Start b) b = b.
Proof.
  intros [Hs He Hd Hw Hinc Hin]. destruct b as [s e d bs]. simpl in *. split.
  - unfold Rollback. simpl.
    assert (E1 : (e <? e) = false) by (apply Z.ltb_irrefl).
    assert (E2 : (e <? s) = false) by (apply Z.ltb_ge; lia).
    rewrite E1, E2. unfold DeleteFromBlock. simpl.
    rewrite scan_down_all_below
      by (eapply Forall_impl; [|exact Hin]; simpl; intros; lia).
    rewrite firstn_all. unfold sub64. rewrite Z.sub_diag.
    change (wrap64 0) with 0. rewrite Z.sub_0_r, wrap64_small by exact Hd.
    reflexivity.
  - unfold DeleteBeforeBlock. simpl.
    rewrite scan_up_head; [reflexivity|].
    destruct bs as [|blk bs]; [exact I|]. inversion Hin; subst. lia.
Qed.

Lemma Rollback_end_DeleteBefore_start_noop_witness :
  Rollback (End_ slice_lagging) slice_lagging = Ok slice_lagging /\
  DeleteBeforeBlock (Start slice_lagging) slice_lagging = slice_lagging.
Proof.
  apply (Rollback_end_DeleteBefore_start_noop slice_lagging).
  exact slice_lagging_valid.
Defined.

(** X2.  Both truncations are idempotent, on any slice and for any [n]. *)
Theorem Delete_idempotent (n : Z) (b : BlockSlice) :
  DeleteBeforeBlock n (DeleteBeforeBlock n b) = DeleteBeforeBlock n b /\
  DeleteFromBlock n (DeleteFromBlock n b) = DeleteFromBlock n b.
Proof.
  split.
  - unfold DeleteBeforeBlock. simpl. f_equal.
    rewrite scan_up_head; [reflexivity|]. apply scan_up_stop.
  - unfold DeleteFromBlock. simpl. f_equal.
    + unfold sub64. rewrite Z.sub_diag. change (wrap64 0) with 0.
      rewrite Z.sub_0_r. unfold wrap64. apply Z.mod_mod.
      unfold uint64_modulus. lia.
    + pose proof (scan_down_trimmed n (Blocks b)) as H. simpl in H.
      rewrite H. apply firstn_all.
Qed.

(** X3.  [Rollback] inside the window of a slice within its invariants: it
    succeeds, the start stays, the end is [n], the blocks are exactly those
    below [n], and the hint is the old one less [end - n] modulo [2^64]. *)
Theorem Rollback_inside_window (b : BlockSlice) (n : Z) :
  valid b -> Start b <= n <= End_ b ->
  Rollback n b =
    Ok {| Start := Start b;
          End_ := n;
          DistanceFromHead := (DistanceFromHead b - (End_ b - n)) mod 2 ^ 64;
          Blocks := filter (fun blk => Number blk <? n) (Blocks b) |}.
Proof.
  intros Hv Hn. pose proof Hv as [Hs He Hd Hw Hinc Hin].
  unfold Rollback.
  assert (E1 : (End_ b <? n) = false) by (apply Z.ltb_ge; lia).
  assert (E2 : (n <? Start b) = false) by (apply Z.ltb_ge; lia).
  rewrite E1, E2. unfold DeleteFromBlock.
  rewrite scan_down_filter by exact Hinc.
  unfold is_uint64 in *.
  rewrite (sub64_small (End_ b) n) by (unfold is_uint64; lia).
  reflexivity.
Qed.

Lemma Rollback_inside_window_witness :
  Rollback 103 slice_lagging =
    Ok {| Start := 100; End_ := 103; DistanceFromHead := 4; Blocks := [] |}.
Proof.
  apply (Rollback_inside_window slice_lagging 103).
  - exact slice_lagging_valid.
  - simpl. lia.
Defined.

Lemma DeleteBeforeBlock_keeps_valid (b : BlockSlice) (n : Z) :
  valid b -> 0 <= n <= End_ b ->
  Blocks (DeleteBeforeBlock n b) = filter (fun blk => n <=? Number blk) (Blocks b) /\
  valid (DeleteBeforeBlock n b).
Proof.
  intros Hv Hn. pose proof Hv as [Hs He Hd Hw Hinc Hin].
  assert (HB : Blocks (DeleteBeforeBlock n b)
               = filter (fun blk => n <=? Number blk) (Blocks b))
    by (apply scan_up_filter; exact Hinc).
  split; [exact HB|].
  unfold is_uint64 in *.
  constructor; try rewrite HB; simpl; try assumption; try (unfold is_uint64; lia).
  - apply increasing_filter. exact Hinc.
  - apply Forall_forall. intros y Hy. apply filter_In in Hy. destruct Hy as [Hy Hle].
    apply Z.leb_le in Hle. rewrite Forall_forall in Hin. specialize (Hin y Hy). lia.
Qed.

(** X4.  [DeleteBeforeBlock n] with [n] up to the end of a slice within its
    invariants keeps exactly the blocks at or above [n], and the slice stays
    within its invariants (also when [n] is before the start, which then
    moves back). *)
Theorem DeleteBeforeBlock_up_to_end (b : BlockSlice) (n : Z) :
  valid b -> 0 <= n <= End_ b ->
  Blocks (DeleteBeforeBlock n b) = filter (fun blk => n <=? Number blk) (Blocks b) /\
  valid (DeleteBeforeBlock n b).
Proof. apply DeleteBeforeBlock_keeps_valid. Qed.

Lemma DeleteBeforeBlock_up_to_end_witness :
  Blocks (DeleteBeforeBlock 103 history_100_105)
    = filter (fun blk => 103 <=? Number blk) (Blocks history_100_105) /\
  valid (DeleteBeforeBlock 103 history_100_105).
Proof.
  apply (DeleteBeforeBlock_up_to_end history_100_105 103).
  - exact history_100_105_valid.
  - simpl. lia.
Defined.

Lemma increasing_app l1 l2 :
  increasing l1 -> increasing l2 ->
  (forall x y, In x l1 -> In y l2 -> Number x < Number y) ->
  increasing (l1 ++ l2).
Proof.
  unfold increasing. induction 1 as [|a l Hs IH Hall]; intros H2 Hlt; simpl.
  - exact H2.
  - constructor.
    + apply IH; [exact H2|]. intros x y Hx Hy. apply Hlt; [right; exact Hx|exact Hy].
    + apply Forall_app. split; [exact Hall|].
      apply Forall_forall. intros y Hy. apply Hlt; [left; reflexivity|exact Hy].
Qed.

Lemma Concat_keeps_valid (b other : BlockSlice) :
  valid b -> valid other -> End_ b = Start other ->
  exists r,
    Concat other b = Ok r /\ valid r /\
    Start r = Start b /\ End_ r = End_ other /\
    Blocks r = Blocks b ++ Blocks other.
Proof.
  intros [Hs He Hd Hw Hinc Hin] [Hs' He' Hd' Hw' Hinc' Hin'] Heq.
  unfold Concat. apply Z.eqb_eq in Heq. rewrite Heq. simpl.
  apply Z.eqb_eq in Heq.
  eexists. split; [reflexivity|]. split; [|repeat split].
  rewrite Forall_forall in Hin, Hin'.
  constructor; simpl; try assumption; try lia.
  - apply increasing_app; try assumption.
    intros x y Hx Hy. specialize (Hin x Hx). specialize (Hin' y Hy). lia.
  - apply Forall_app. split; apply Forall_forall; intros y Hy.
    + specialize (Hin y Hy). lia.
    + specialize (Hin' y Hy). lia.
Qed.

(** X5.  [Concat] of two slices within their invariants, the second starting
    where the first ends, succeeds and gives a slice within the invariants
    that spans both windows and holds the blocks of both. *)
Theorem Concat_valid (b other : BlockSlice) :
  valid b -> valid other -> End_ b = Start other ->
  exists r,
    Concat other b = Ok r /\ valid r /\
    Start r = Start b /\ End_ r = End_ other /\
    Blocks r = Blocks b ++ Blocks other.
Proof. apply Concat_keeps_valid. Qed.

(** X6.  [Concat] is associative on compatible slices: both groupings succeed,
    with the same result. *)
Theorem Concat_assoc (a b c : BlockSlice) :
  End_ a = Start b -> End_ b = Start c ->
  rbind (Concat b a) (Concat c) = rbind (Concat c b) (fun bc => Concat bc a) /\
  exists r, rbind (Concat b a) (Concat c) = Ok r.
Proof.
  intros H1 H2. unfold Concat.
  apply Z.eqb_eq in H1. rewrite H1. simpl.
  apply Z.eqb_eq in H2. rewrite H2. simpl. rewrite H1. simpl.
  rewrite app_assoc. split; [reflexivity|]. eexists. reflexivity.
Qed.

Lemma Concat_assoc_witness :
  rbind (Concat slice_lagging slice_before_100) (Concat fetch_after_106)
    = rbind (Concat fetch_after_106 slice_lagging)
        (fun bc => Concat bc slice_before_100) /\
  exists r, rbind (Concat slice_lagging slice_before_100) (Concat fetch_after_106) = Ok r.
Proof.
  apply (Concat_assoc slice_before_100 slice_lagging fetch_after_106); reflexivity.
Defined.

End BlockSliceAlgebra.

Lemma Concat_valid_witness :
  exists r,
    BlockSlice.Concat fetch_after_106 slice_lagging = Ok r /\ BlockSlice.valid r /\
    Start r = Start slice_lagging /\ End_ r = End_ fetch_after_106 /\
    Blocks r = Blocks slice_lagging ++ Blocks fetch_after_106.
Proof.
  apply (Concat_valid slice_lagging fetch_after_106).
  - exact slice_lagging_valid.
  - constructor; simpl; unfold is_uint64, uint64_modulus; try lia;
      repeat constructor; simpl; lia.
  - reflexivity.
Defined.

(** ** Reconciliation: what [MatchBlocks] returns *)

Section MatchBlocksFacts.

Lemma bytes_Equal_eq (a b : list byte) : bytes_Equal a b = true <-> a = b.
Proof.
  revert b. induction a as [|x a IH]; intros [|y b]; simpl;
    try (split; [discriminate|discriminate]); [tauto|].
  rewrite andb_true_iff, IH. split.
  - intros [Hxy ->]. f_equal.
    destruct (Byte.eqb x y) eqn:E; [|discriminate].
    apply Byte.byte_dec_bl. exact E.
  - intros [= -> ->]. split; [|reflexivity].
    apply Byte.byte_dec_lb. reflexivity.
Qed.

Lemma last_cons_default {A} (x : A) (l : list A) (d : A) :
  last (x :: l) d = last l x.
Proof.
  revert x d. induction l as [|y l IH]; intros x d; [reflexivity|].
  change (last (x :: y :: l) d) with (last (y :: l) d).
  rewrite (IH y d), (IH y x). reflexivity.
Qed.

(** The loop over a run of pairs with equal hashes. *)
Lemma match_loop_equal (p q pre rest obs : list Block) (L : Z) :
  map Hash p = map Hash q ->
  match_loop (p ++ obs) (pre ++ q ++ rest) (length pre) L =
  match_loop obs (pre ++ q ++ rest) (length pre + length q) (last (map Number q) L).
Proof.
  revert q pre L. induction p as [|ob p IH]; intros [|nb q] pre L Hh;
    simpl in Hh; try discriminate.
  - simpl. rewrite Nat.add_0_r. reflexivity.
  - injection Hh as Hhd Htl. simpl app at 1. cbn [match_loop].
    rewrite nth_error_app2 by lia. rewrite Nat.sub_diag. cbn [nth_error app].
    assert (E : bytes_Equal (common.Bytes (Hash ob)) (common.Bytes (Hash nb)) = true)
      by (apply bytes_Equal_eq; exact Hhd).
    rewrite E. cbn [negb].
    specialize (IH q (pre ++ [nb]) (Number nb) Htl).
    rewrite <- app_assoc in IH. simpl in IH.
    rewrite length_app in IH. simpl length in IH.
    rewrite Nat.add_1_r in IH. rewrite IH.
    simpl map. rewrite last_cons_default. simpl length.
    rewrite Nat.add_succ_r. reflexivity.
Qed.

End MatchBlocksFacts.



(** X8.  When the pairs agree up to a pair whose hashes differ, [MatchBlocks]
    disagrees, and the last good block is the fetched block before that pair:
    0 when the very first pair differs, however many blocks of the history
    lie before the overlap. *)
Theorem MatchBlocks_disagrees
        (new old : BlockSlice) (p q obs rest : list Block) (ob nb : Block) :
  End_ old <= End_ new ->
  Blocks (BlockSlice.DeleteBeforeBlock (Start new) old) = p ++ ob :: obs ->
  Blocks new = q ++ nb :: rest ->
  map Hash p = map Hash q ->
  Hash ob <> Hash nb ->
  MatchBlocks new old = Ok (false, last (map Number q) 0).
Proof.
  intros Hend Hold Hnew Hh Hne. unfold MatchBlocks.
  assert (E : (End_ new <? End_ old) = false) by (apply Z.ltb_ge; lia).
  rewrite E. cbv zeta. rewrite Hold, Hnew.
  pose proof (match_loop_equal p q [] (nb :: rest) (ob :: obs) 0 Hh) as H.
  simpl app in H. simpl length in H. rewrite H. cbn [match_loop].
  change (q ++ nb :: rest) with (q ++ [nb] ++ rest).
  rewrite nth_error_app2 by lia. rewrite Nat.sub_diag. cbn [nth_error app].
  destruct (bytes_Equal (common.Bytes (Hash ob)) (common.Bytes (Hash nb))) eqn:Eb.
  - apply bytes_Equal_eq in Eb. contradiction.
  - reflexivity.
Qed.

Lemma MatchBlocks_disagrees_witness :
  MatchBlocks fetch_reorged_105 history_100_105 = Ok (false, 100).
Proof.
  apply (MatchBlocks_disagrees fetch_reorged_105 history_100_105
           [block_at 100 x0a] [block_at 100 x0a] [] [] (block_at 105 x0b) (block_at 105 x0c)).
  - simpl. lia.
  - reflexivity.
  - reflexivity.
  - reflexivity.
  - simpl. intros H. discriminate H.
Defined.

(** ** Rules for [hoare] *)

(** Split a conjunction into its parts, and nothing else. *)
Ltac splits := repeat match goal with |- _ /\ _ => split end.

Section Hoare.

Context {S : Type}.

Lemma hoare_ret {A} (P : S -> Prop) (a : A) (Q : result A -> S -> Prop) :
  (forall s, P s -> Q (Ok a) s) -> hoare P (ret a) Q.
Proof. intros H s Hs. apply H. exact Hs. Qed.

Lemma hoare_lift {A} (P : S -> Prop) (r : result A) (Q : result A -> S -> Prop) :
  (forall s, P s -> Q r s) -> hoare P (lift r) Q.
Proof. intros H s Hs. apply H. exact Hs. Qed.

Lemma hoare_modify (P : S -> Prop) (f : S -> S) (Q : result unit -> S -> Prop) :
  (forall s, P s -> Q (Ok tt) (f s)) -> hoare P (modify f) Q.
Proof. intros H s Hs. apply H. exact Hs. Qed.

Lemma hoare_bind {A B} (M : A -> S -> Prop) (P : S -> Prop)
      (m : Task S A) (k : A -> Task S B) (Q : result B -> S -> Prop) :
  hoare P m (fun r s => match r with
                        | Ok a => M a s
                        | Fail e => Q (Fail e) s
                        | Panic => Q Panic s
                        end) ->
  (forall a, hoare (M a) (k a) Q) ->
  hoare P (bind m k) Q.
Proof.
  intros Hm Hk s Hs. specialize (Hm s Hs). unfold bind.
  destruct (m s) as [[a|e|] s']; simpl in *; try exact Hm.
  apply Hk. exact Hm.
Qed.

(** After [get] the value bound is the state. *)
Lemma hoare_get_bind {B} (P : S -> Prop) (k : S -> Task S B)
      (Q : result B -> S -> Prop) :
  (forall c, hoare (fun s => s = c /\ P s) (k c) Q) -> hoare P (bind get k) Q.
Proof. intros H s Hs. unfold bind, get. apply (H s). split; [reflexivity|exact Hs]. Qed.

Lemma hoare_for_each {A} (I : S -> Prop) (l : list A) (body : A -> Task S unit)
      (Q : result unit -> S -> Prop) :
  (forall x, hoare I (body x) (fun r s => match r with
                                          | Ok _ => I s
                                          | Fail e => Q (Fail e) s
                                          | Panic => Q Panic s
                                          end)) ->
  (forall s, I s -> Q (Ok tt) s) ->
  hoare I (for_each l body) Q.
Proof.
  intros Hb Hq. induction l as [|x l IH]; simpl.
  - apply hoare_ret. exact Hq.
  - apply (hoare_bind (fun _ => I)); [apply Hb|intros _; exact IH].
Qed.

End Hoare.

(** ** ChainStreamer: what a batch does to the cursor and the history *)

Section ProcessFacts.

Import ChainStreamer.

(** A send changes the channel and nothing else, and fails only with
    [Canceled]. *)
Lemma hoare_send (P : chainStreamer -> Prop) (m : Message)
      (Q : result unit -> chainStreamer -> Prop) :
  (forall s ch, P s -> Q (Ok tt) (with_chan ch s)) ->
  (forall s ch, P s -> Q (Fail Canceled) (with_chan ch s)) ->
  hoare P (send m) Q.
Proof.
  intros Hok Hc s Hs. unfold send, sendOrDone.
  destruct (done (chan s)) as [[|k]|]; simpl; [apply Hc|apply Hok|apply Hok]; exact Hs.
Qed.

(** What [MatchBlocks] may return as an error. *)
Lemma MatchBlocks_error new old e :
  MatchBlocks new old = Fail e ->
  e = ErrNewEndsBeforeOld (Start new) (End_ new) (Start old) (End_ old).
Proof.
  unfold MatchBlocks. destruct (End_ new <? End_ old).
  - intros [= <-]. reflexivity.
  - cbv zeta. intros H. apply match_loop_never_fails in H. contradiction.
Qed.

Lemma MatchBlocks_ends new old r :
  MatchBlocks new old = Ok r -> End_ old <= End_ new.
Proof.
  unfold MatchBlocks. destruct (End_ new <? End_ old) eqn:E; [discriminate|].
  intros _. apply Z.ltb_ge. exact E.
Qed.

Lemma Rollback_ok n b h :
  BlockSlice.Rollback n b = Ok h -> Start b <= n <= End_ b /\ End_ h = n.
Proof.
  unfold BlockSlice.Rollback.
  destruct (End_ b <? n) eqn:E1; [discriminate|].
  destruct (n <? Start b) eqn:E2; [discriminate|].
  apply Z.ltb_ge in E1, E2. intros [= <-]. simpl. lia.
Qed.

Lemma Rollback_error n b e :
  BlockSlice.Rollback n b = Fail e -> forall got want, e <> ErrConcatStart got want.
Proof.
  unfold BlockSlice.Rollback.
  destruct (End_ b <? n); [intros [= <-]; discriminate|].
  destruct (n <? Start b); [intros [= <-]; discriminate|discriminate].
Qed.

Lemma emit_settled (b : BlockSlice) :
  BlockSlice.valid b ->
  hoare (fun cs => BlockSlice.valid (history cs) /\ next cs = End_ (history cs) /\
                   Start b <= next cs <= End_ b)
        (emit b) settled.
Proof.
  intros Hb. unfold emit.
  apply hoare_get_bind. intros c.
  pose proof (BlockSlice.valid_Start _ Hb) as HbS. unfold is_uint64 in HbS.
  apply (hoare_bind
           (fun h s => s = c /\ BlockSlice.valid h /\ End_ h = End_ b)).
  { apply hoare_lift. intros s (-> & Hh & Hnext & Hwin).
    destruct (DeleteBeforeBlock_keeps_valid b (next c) Hb) as [_ Hb']; [lia|].
    destruct (Concat_keeps_valid (history c) _ Hh Hb')
      as (h & Hc & Hvh & _ & HhE & _); [simpl; symmetry; exact Hnext|].
    rewrite Hc. simpl in HhE. splits; auto. }
  intros h.
  set (I := fun s : chainStreamer =>
              BlockSlice.valid (history s) /\ End_ (history s) = End_ b).
  apply (hoare_bind (fun _ => I)).
  { apply hoare_modify. intros s (-> & Hvh & HhE). subst I. simpl.
    destruct (MaxEventlogSize <=? End_ h) eqn:E; [|split; assumption].
    apply Z.leb_le in E. unfold MaxEventlogSize in *.
    pose proof (BlockSlice.valid_End _ Hvh) as HE. unfold is_uint64 in HE.
    rewrite sub64_small by (unfold is_uint64; lia).
    split; [|exact HhE].
    apply DeleteBeforeBlock_keeps_valid; [exact Hvh|lia]. }
  intros _.
  apply (hoare_bind (fun _ => I)).
  { apply hoare_for_each.
    - intros blk. apply hoare_send.
      + intros s ch Hs. exact Hs.
      + intros s ch [Hv _]. split; [exact Hv|]. intros got want. discriminate.
    - intros s Hs. exact Hs. }
  intros _.
  apply (hoare_bind (fun _ s => I s /\ next s = End_ b)).
  { apply hoare_modify. intros s Hs. split; [exact Hs|reflexivity]. }
  intros _.
  apply (hoare_bind (fun _ s => I s /\ next s = End_ b)).
  { apply hoare_send.
    - intros s ch Hs. exact Hs.
    - intros s ch [[Hv _] _]. split; [exact Hv|]. intros got want. discriminate. }
  intros _. apply hoare_ret. intros s [[Hv He] Hn].
  split; [exact Hv|]. simpl. congruence.
Qed.

Lemma reconcile_settled (b : BlockSlice) :
  hoare (fun cs => BlockSlice.valid (history cs) /\ next cs = End_ (history cs) /\
                   Start b <= next cs)
        (reconcile b)
        (fun r cs =>
           settled r cs /\
           match r with
           | Ok true => Start b <= next cs <= End_ b
           | _ => True
           end).
Proof.
  unfold reconcile.
  apply hoare_get_bind. intros c.
  apply (hoare_bind
           (fun m s => s = c /\ BlockSlice.valid (history c) /\
                       next c = End_ (history c) /\ Start b <= next c /\
                       End_ (history c) <= End_ b)).
  { apply hoare_lift. intros s (-> & Hv & Hn & Hs).
    destruct (MatchBlocks b (history c)) as [m|e|] eqn:EM.
    - apply MatchBlocks_ends in EM. splits; auto.
    - apply MatchBlocks_error in EM. subst e.
      split; [|exact I]. split; [exact Hv|]. intros got want. discriminate.
    - split; [|exact I]. split; [exact Hv|exact I]. }
  intros m. destruct (fst m).
  { apply hoare_ret. intros s (-> & Hv & Hn & Hs & He).
    split; [split; assumption|]. lia. }
  set (rp := rollback_point (from c) (snd m)).
  apply (hoare_bind
           (fun _ s => s = with_next rp c /\ BlockSlice.valid (history c) /\
                       End_ (history c) <= End_ b)).
  { apply hoare_modify. intros s (-> & Hv & Hn & Hs & He). splits; auto. }
  intros _.
  apply (hoare_bind
           (fun h s => s = with_next rp c /\ BlockSlice.valid h /\
                       End_ h = rp /\ rp <= End_ b)).
  { apply hoare_lift. intros s (-> & Hv & He). simpl.
    destruct (BlockSlice.Rollback rp (history c)) as [h|e|] eqn:ER.
    - pose proof (Rollback_valid _ _ _ Hv ER) as Hvh.
      apply Rollback_ok in ER. destruct ER as [Hwin Hh].
      splits; auto; lia.
    - split; [|exact I]. split; [exact Hv|]. apply (Rollback_error _ _ _ ER).
    - split; [|exact I]. split; [exact Hv|exact I]. }
  intros h.
  set (J := fun s : chainStreamer =>
              BlockSlice.valid (history s) /\ End_ (history s) = rp /\
              next s = rp /\ rp <= End_ b).
  apply (hoare_bind (fun _ => J)).
  { apply hoare_modify. intros s (-> & Hvh & Hh & He). subst J. simpl.
    splits; auto. }
  intros _.
  apply (hoare_bind (fun _ => J)).
  { apply hoare_send.
    - intros s ch Hs. exact Hs.
    - intros s ch (Hv & _). split; [|exact I]. split; [exact Hv|].
      intros got want. discriminate. }
  intros _. apply hoare_ret. intros s (Hv & Hh & Hnx & He).
  split; [split; [exact Hv|simpl; congruence]|].
  destruct (rp <? Start b) eqn:E; simpl; [exact I|].
  apply Z.ltb_ge in E. lia.
Qed.

Lemma process_settled (b : BlockSlice) :
  BlockSlice.valid b ->
  hoare (fun cs => BlockSlice.valid (history cs) /\ next cs = End_ (history cs) /\
                   Start b <= next cs)
        (process b) settled.
Proof.
  intros Hb. unfold process.
  apply (hoare_bind
           (fun (p : bool) cs =>
              BlockSlice.valid (history cs) /\ next cs = End_ (history cs) /\
              (p = true -> Start b <= next cs <= End_ b))).
  { intros cs Hcs. pose proof (reconcile_settled b cs Hcs) as H.
    destruct (fst (reconcile b cs)) as [[|]|e|]; simpl in *;
      destruct H as [[Hv Hn] Hw]; try (split; assumption).
    - splits; auto.
    - splits; auto. discriminate. }
  intros [|].
  - intros cs (Hv & Hn & Hw). apply (emit_settled b Hb).
    splits; auto; apply Hw; reflexivity.
  - apply hoare_ret. intros cs (Hv & Hn & _). split; assumption.
Qed.

End ProcessFacts.

(** X9.  [process] keeps the streamer settled: from a history within the slice
    invariants with the cursor at its end, and a batch within the invariants
    that starts at or before the cursor, it leaves the history within the
    invariants; when it returns without an error the cursor is again at the
    end of the history; and whatever error it returns, it is never the one
    of [Concat]. *)
Theorem process_keeps_settled (b : BlockSlice) (cs : ChainStreamer.chainStreamer) :
  BlockSlice.valid b ->
  BlockSlice.valid (ChainStreamer.history cs) ->
  ChainStreamer.next cs = End_ (ChainStreamer.history cs) ->
  Start b <= ChainStreamer.next cs ->
  settled (fst (ChainStreamer.process b cs)) (snd (ChainStreamer.process b cs)).
Proof.
  intros Hb Hv Hn Hs. apply (process_settled b Hb). splits; auto.
Qed.

Lemma process_keeps_settled_witness :
  settled (fst (ChainStreamer.process slice_100_106 (streamer_at 100 client_head_moves_back)))
          (snd (ChainStreamer.process slice_100_106 (streamer_at 100 client_head_moves_back))).
Proof.
  apply (process_keeps_settled slice_100_106 (streamer_at 100 client_head_moves_back)).
  - exact slice_100_106_valid.
  - apply EmptyBlockSlice_valid. unfold is_uint64, uint64_modulus. lia.
  - reflexivity.
  - simpl. lia.
Defined.

(** ** ChainStreamer: the messages of a batch *)

Section BatchFacts.

Import ChainStreamer.

Lemma with_chan_chan cs : with_chan (chan cs) cs = cs.
Proof. destruct cs. reflexivity. Qed.

(** A run of sends by the streamer is a run of sends on its channel. *)
Lemma for_each_send_chan {A} (f : A -> Message) (l : list A) (cs : chainStreamer) :
  for_each l (fun x => send (f x)) cs =
  (fst (for_each l (fun x => sendOrDone (f x)) (chan cs)),
   with_chan (snd (for_each l (fun x => sendOrDone (f x)) (chan cs))) cs).
Proof.
  revert cs. induction l as [|x l IH]; intros cs; simpl.
  - unfold ret. simpl. rewrite with_chan_chan. reflexivity.
  - unfold bind. unfold send at 1.
    destruct (sendOrDone (f x) (chan cs)) as [[u|e|] ch]; simpl; try reflexivity.
    rewrite IH. simpl. reflexivity.
Qed.

Lemma send_None m cs :
  done (chan cs) = None ->
  send m cs = (Ok tt, with_chan {| sent := sent (chan cs) ++ [m]; done := None |} cs).
Proof. intros H. unfold send, sendOrDone. rewrite H. reflexivity. Qed.

(** The emission step on a channel that is never cancelled. *)
Lemma emit_open (b : BlockSlice) (cs : chainStreamer) :
  next cs = End_ (history cs) -> done (chan cs) = None ->
  let b' := BlockSlice.DeleteBeforeBlock (next cs) b in
  let h := {| Start := Start (history cs); End_ := End_ b;
              DistanceFromHead := DistanceFromHead b;
              Blocks := Blocks (history cs) ++ Blocks b' |} in
  exists cs',
    emit b cs = (Ok b', cs') /\
    sent (chan cs') = sent (chan cs) ++ map AppendMsg (Blocks b') ++ [SetNextMsg (End_ b)] /\
    done (chan cs') = None /\
    next cs' = End_ b /\
    from cs' = from cs /\
    history cs' = if MaxEventlogSize <=? End_ b
                  then BlockSlice.DeleteBeforeBlock (sub64 (End_ b) MaxEventlogSize) h
                  else h.
Proof.
  intros Hn Hd b' h.
  unfold emit, bind, get, lift. fold b'.
  assert (Hc : BlockSlice.Concat b' (history cs) = Ok h).
  { unfold BlockSlice.Concat. subst b'. simpl. rewrite <- Hn, Z.eqb_refl. reflexivity. }
  rewrite Hc. unfold modify at 1.
  rewrite for_each_send_chan, for_each_send. simpl chan. rewrite Hd.
  cbn [fst snd]. unfold modify. rewrite send_None by (simpl; reflexivity).
  eexists. split; [reflexivity|]. simpl.
  rewrite <- app_assoc. splits; reflexivity.
Qed.

Lemma reconcile_agreed (b : BlockSlice) (cs : chainStreamer) (L : Z) :
  MatchBlocks b (history cs) = Ok (true, L) -> reconcile b cs = (Ok true, cs).
Proof. intros HM. unfold reconcile, bind, get, lift. rewrite HM. reflexivity. Qed.

Lemma reconcile_reorg (b : BlockSlice) (cs : chainStreamer) (L : Z) :
  MatchBlocks b (history cs) = Ok (false, L) ->
  let rp := rollback_point (from cs) L in
  reconcile b cs =
  match BlockSlice.Rollback rp (history cs) with
  | Ok h =>
      let (r, ch) := sendOrDone (RollbackMsg rp) (chan cs) in
      (match r with
       | Ok _ => Ok (negb (rp <? Start b))
       | Fail e => Fail e
       | Panic => Panic
       end,
       with_chan ch (with_history h (with_next rp cs)))
  | Fail e => (Fail e, with_next rp cs)
  | Panic => (Panic, with_next rp cs)
  end.
Proof.
  intros HM rp. unfold reconcile, bind, get, lift. rewrite HM. simpl. fold rp.
  unfold modify. simpl.
  destruct (BlockSlice.Rollback rp (history cs)) as [h|e|]; try reflexivity.
  unfold send. simpl.
  destruct (sendOrDone (RollbackMsg rp) (chan cs)) as [[u|e|] ch]; reflexivity.
Qed.

End BatchFacts.

(** X10.  A batch that agrees with the history, on a channel that is never
    cancelled: [process] sends one [Append] per fetched block at or above the
    cursor, in order, then [SetNext] with the end of the batch; the cursor
    and the end of the history move to that end, and a history that ends at
    or past 1024 starts 1024 blocks before its end. *)
Theorem process_agreed (b : BlockSlice) (cs : ChainStreamer.chainStreamer) (L : Z) :
  MatchBlocks b (ChainStreamer.history cs) = Ok (true, L) ->
  ChainStreamer.next cs = End_ (ChainStreamer.history cs) ->
  done (ChainStreamer.chan cs) = None ->
  BlockSlice.increasing (Blocks b) ->
  is_uint64 (End_ b) ->
  exists cs',
    ChainStreamer.process b cs
      = (Ok (BlockSlice.DeleteBeforeBlock (ChainStreamer.next cs) b), cs') /\
    sent (ChainStreamer.chan cs')
      = sent (ChainStreamer.chan cs)
        ++ map AppendMsg (filter (fun blk => ChainStreamer.next cs <=? Number blk) (Blocks b))
        ++ [SetNextMsg (End_ b)] /\
    ChainStreamer.next cs' = End_ b /\
    End_ (ChainStreamer.history cs') = End_ b /\
    (MaxEventlogSize <= End_ b ->
     Start (ChainStreamer.history cs') = End_ b - MaxEventlogSize).
Proof.
  intros HM Hn Hd Hinc HE.
  unfold ChainStreamer.process, bind. rewrite (reconcile_agreed b cs L HM).
  destruct (emit_open b cs Hn Hd) as (cs' & He & Hs & _ & Hnx & _ & Hh).
  exists cs'. split; [exact He|].
  rewrite <- (scan_up_filter _ _ Hinc).
  split; [exact Hs|]. split; [exact Hnx|].
  rewrite Hh. unfold is_uint64, MaxEventlogSize in *.
  destruct (1024 <=? End_ b) eqn:E; simpl.
  - split; [reflexivity|]. intros _. apply sub64_small.
    apply Z.leb_le in E. unfold is_uint64. lia.
  - split; [reflexivity|]. apply Z.leb_gt in E. lia.
Qed.

Lemma process_agreed_witness :
  exists cs',
    ChainStreamer.process fetch_after_106 streamer_with_history
      = (Ok (BlockSlice.DeleteBeforeBlock 106 fetch_after_106), cs') /\
    sent (ChainStreamer.chan cs')
      = [] ++ map AppendMsg (filter (fun blk => 106 <=? Number blk) (Blocks fetch_after_106))
           ++ [SetNextMsg 2106] /\
    ChainStreamer.next cs' = 2106 /\
    End_ (ChainStreamer.history cs') = 2106 /\
    (MaxEventlogSize <= 2106 -> Start (ChainStreamer.history cs') = 2106 - MaxEventlogSize).
Proof.
  apply (process_agreed fetch_after_106 streamer_with_history 0).
  - reflexivity.
  - reflexivity.
  - reflexivity.
  - repeat constructor; simpl; lia.
  - unfold is_uint64, uint64_modulus. simpl. lia.
Defined.

(** X11.  A batch that disagrees with the history after last good block [L], when
    the rollback point lies inside the history and the channel is never
    cancelled: [process] sends [Rollback] with the rollback point; if that
    point is before the batch it stops there, with the cursor at the rollback
    point; otherwise it goes on with one [Append] per fetched block at or
    above the rollback point and [SetNext] with the end of the batch. *)
Theorem process_reorg (b : BlockSlice) (cs : ChainStreamer.chainStreamer) (L : Z) :
  MatchBlocks b (ChainStreamer.history cs) = Ok (false, L) ->
  let rp := ChainStreamer.rollback_point (ChainStreamer.from cs) L in
  Start (ChainStreamer.history cs) <= rp <= End_ (ChainStreamer.history cs) ->
  done (ChainStreamer.chan cs) = None ->
  BlockSlice.increasing (Blocks b) ->
  exists cs',
    ChainStreamer.process b cs
      = (Ok (if rp <? Start b then b else BlockSlice.DeleteBeforeBlock rp b), cs') /\
    sent (ChainStreamer.chan cs')
      = sent (ChainStreamer.chan cs)
        ++ RollbackMsg rp
           :: (if rp <? Start b then []
               else map AppendMsg (filter (fun blk => rp <=? Number blk) (Blocks b))
                    ++ [SetNextMsg (End_ b)]) /\
    ChainStreamer.next cs' = (if rp <? Start b then rp else End_ b) /\
    End_ (ChainStreamer.history cs') = (if rp <? Start b then rp else End_ b).
Proof.
  intros HM rp Hwin Hd Hinc.
  unfold ChainStreamer.process, bind. rewrite (reconcile_reorg b cs L HM). fold rp.
  assert (HR : BlockSlice.Rollback rp (ChainStreamer.history cs)
               = Ok (BlockSlice.DeleteFromBlock rp (ChainStreamer.history cs))).
  { unfold BlockSlice.Rollback.
    assert (E1 : (End_ (ChainStreamer.history cs) <? rp) = false) by (apply Z.ltb_ge; lia).
    assert (E2 : (rp <? Start (ChainStreamer.history cs)) = false) by (apply Z.ltb_ge; lia).
    rewrite E1, E2. reflexivity. }
  rewrite HR. unfold sendOrDone. rewrite Hd.
  destruct (rp <? Start b) eqn:E; cbn [negb].
  - eexists. split; [reflexivity|]. simpl. splits; reflexivity.
  - match goal with
    | |- context [ChainStreamer.emit b ?c] =>
        destruct (emit_open b c) as (cs' & He & Hs & _ & Hnx & _ & Hh);
          [reflexivity|reflexivity|]
    end.
    simpl in He, Hs, Hh. rewrite He.
    exists cs'. split; [reflexivity|].
    rewrite <- (scan_up_filter _ _ Hinc).
    split; [rewrite Hs, <- app_assoc; reflexivity|].
    split; [exact Hnx|]. rewrite Hh.
    destruct (MaxEventlogSize <=? End_ b); reflexivity.
Qed.

Lemma process_reorg_witness :
  exists cs',
    ChainStreamer.process fetch_reorged_105 streamer_with_history_105
      = (Ok (BlockSlice.DeleteBeforeBlock 101 fetch_reorged_105), cs') /\
    sent (ChainStreamer.chan cs')
      = [] ++ [RollbackMsg 101; AppendMsg (block_at 105 x0c); SetNextMsg 2095] /\
    ChainStreamer.next cs' = 2095 /\
    End_ (ChainStreamer.history cs') = 2095.
Proof.
  apply (process_reorg fetch_reorged_105 streamer_with_history_105 100).
  - reflexivity.
  - vm_compute. split; intros H; discriminate H.
  - reflexivity.
  - repeat constructor; simpl; lia.
Defined.



(** X13.  The first poll of a subscription.  The history is empty, so nothing can
    disagree: when the source answers with a batch that ends at or after
    [from] and the consumer keeps receiving, the subscription delivers one
    [Append] per fetched block numbered [from] or more, then [SetNext] with
    the end of the batch, and goes on polling. *)
Theorem Stream_first_poll
        (cl : Client) (from_ : Z) (cr : ChainStreamer.t) (b : BlockSlice) :
  dialError cl = None ->
  (forall q, responses cl (length (calls cl)) q (ChainStreamer.FetchTxDetails cr) = Ok b) ->
  from_ <= End_ b ->
  BlockSlice.increasing (Blocks b) ->
  ChainStreamer.Stream cl 1 None from_ cr =
    Ok {| C := map AppendMsg (filter (fun blk => from_ <=? Number blk) (Blocks b))
               ++ [SetNextMsg (End_ b)];
          Err := Pending |}.
Proof.
  intros Hdial Hresp Hend Hinc.
  unfold ChainStreamer.Stream, ChainStreamer.makeChainStreamer. rewrite Hdial.
  set (cs0 := {| ChainStreamer.filter := ChainStreamer.Filter cr |}).
  change (ChainStreamer.run 1) with (ChainStreamer.iteration ;; ret tt).
  unfold ChainStreamer.iteration, bind at 1 2, get.
  unfold bind at 1. unfold ChainStreamer.fetch at 1, GetLogs.
  simpl responses. simpl calls. simpl ChainStreamer.fetchTxDetails.
  rewrite Hresp. cbv beta iota.
  set (cs1 := ChainStreamer.with_client _ cs0).
  assert (HM : MatchBlocks b (ChainStreamer.history cs1) = Ok (true, 0)).
  { unfold MatchBlocks. simpl.
    assert (E : (End_ b <? from_) = false) by (apply Z.ltb_ge; lia).
    rewrite E. reflexivity. }
  unfold bind at 1. unfold ChainStreamer.process, bind at 1.
  rewrite (reconcile_agreed b cs1 0 HM).
  destruct (emit_open b cs1) as (cs2 & He & Hs & Hd & _); [reflexivity|reflexivity|].
  rewrite He. cbv beta iota.
  simpl in Hs. rewrite (scan_up_filter _ _ Hinc) in Hs.
  assert (Hw : forall t : Task ChainStreamer.chainStreamer unit,
             (t = ChainStreamer.wait \/ t = ret tt) ->
             t cs2 = (Ok tt, cs2)).
  { intros t [->| ->]; [|reflexivity].
    unfold ChainStreamer.wait, waitOrDone. rewrite Hd.
    destruct cs2 as [f [sn dn] c h n fr fb bo ft]. simpl in *. subst dn. reflexivity. }
  rewrite Hw by (destruct (DistanceFromHead _ =? 0); auto).
  simpl. rewrite Hs. reflexivity.
Qed.

Lemma Stream_first_poll_witness :
  ChainStreamer.Stream client_reorg_145 1 None 100 default_streamer =
    Ok {| C := map AppendMsg (filter (fun blk => 100 <=? Number blk) [block_at 145 x0a])
               ++ [SetNextMsg 151];
          Err := Pending |}.
Proof.
  apply (Stream_first_poll client_reorg_145 100 default_streamer
           {| Start := 100; End_ := 151; DistanceFromHead := 0;
              Blocks := [block_at 145 x0a] |}).
  - reflexivity.
  - intros q. reflexivity.
  - simpl. lia.
  - repeat constructor.
Defined.

(** ** The in-memory log under its operations *)

Lemma apply_message_valid (m : Message) (l l' : InMemoryEventLog.t) :
  BlockSlice.valid (InMemoryEventLog.blockSlice l) -> fits m ->
  apply_message m l = Ok l' ->
  BlockSlice.valid (InMemoryEventLog.blockSlice l') /\
  InMemoryEventLog.FirstBlock l' = InMemoryEventLog.FirstBlock l /\
  InMemoryEventLog.filter l' = InMemoryEventLog.filter l.
Proof.
  intros Hv Hf. unfold apply_message, fits in *.
  unfold InMemoryEventLog.Append, InMemoryEventLog.Rollback, InMemoryEventLog.SetNext,
    InMemoryEventLog.FirstBlock.
  destruct (MsgAction m).
  - destruct (MsgBlock m) as [blk|]; simpl; [|discriminate].
    destruct (BlockSlice.Append blk (InMemoryEventLog.blockSlice l)) as [s|e|] eqn:E;
      simpl; try discriminate.
    intros [= <-]. simpl. split; [eapply Append_valid; eassumption|].
    unfold BlockSlice.Append in E.
    destruct (Number blk <? End_ (InMemoryEventLog.blockSlice l)); [discriminate|].
    injection E as <-. split; reflexivity.
  - destruct (BlockSlice.Rollback (MsgNumber m) (InMemoryEventLog.blockSlice l))
      as [s|e|] eqn:E; simpl; try discriminate.
    intros [= <-]. simpl. split; [eapply Rollback_valid; eassumption|].
    unfold BlockSlice.Rollback in E.
    destruct (End_ (InMemoryEventLog.blockSlice l) <? MsgNumber m); [discriminate|].
    destruct (MsgNumber m <? Start (InMemoryEventLog.blockSlice l)); [discriminate|].
    injection E as <-. split; reflexivity.
  - destruct (BlockSlice.Extend (MsgNumber m) (InMemoryEventLog.blockSlice l))
      as [s|e|] eqn:E; simpl; try discriminate.
    intros [= <-]. simpl. split; [eapply Extend_valid; eassumption|].
    unfold BlockSlice.Extend in E.
    destruct (MsgNumber m <? End_ (InMemoryEventLog.blockSlice l)); [discriminate|].
    injection E as <-. split; reflexivity.
Qed.

Lemma apply_messages_valid (ms : list Message) (l l' : InMemoryEventLog.t) :
  BlockSlice.valid (InMemoryEventLog.blockSlice l) -> Forall fits ms ->
  apply_messages ms l = Ok l' ->
  BlockSlice.valid (InMemoryEventLog.blockSlice l') /\
  InMemoryEventLog.FirstBlock l' = InMemoryEventLog.FirstBlock l /\
  InMemoryEventLog.filter l' = InMemoryEventLog.filter l.
Proof.
  intros Hv Hf. revert l Hv. induction Hf as [|m ms Hm _ IH]; intros l Hv; simpl.
  - intros [= <-]. splits; auto.
  - destruct (apply_message m l) as [l1|e|] eqn:E; simpl; try discriminate.
    destruct (apply_message_valid m l l1 Hv Hm E) as (Hv1 & Hf1 & Hq1).
    intros H. destruct (IH l1 Hv1 H) as (Hv' & Hf' & Hq').
    splits; congruence.
Qed.

(** X14.  A log opened at [from] stays within the slice invariants, with its first
    block at [from] and its filter unchanged, under every sequence of
    [Append], [Rollback] and [SetNext] that succeeds. *)
Theorem log_stays_valid
        (from : Z) (f : ethereum.FilterQuery) (ms : list Message) (l : InMemoryEventLog.t) :
  is_uint64 from -> Forall fits ms ->
  apply_messages ms (InMemoryEventLog.NewInMemoryEventLog from f) = Ok l ->
  BlockSlice.valid (InMemoryEventLog.blockSlice l) /\
  InMemoryEventLog.FirstBlock l = from /\
  InMemoryEventLog.Filter l = f.
Proof.
  intros Hu Hf H.
  apply (apply_messages_valid ms _ l) in H; [exact H| |exact Hf].
  apply EmptyBlockSlice_valid. exact Hu.
Qed.

Lemma log_stays_valid_witness :
  BlockSlice.valid (InMemoryEventLog.blockSlice log_100_106) /\
  InMemoryEventLog.FirstBlock log_100_106 = 100 /\
  InMemoryEventLog.Filter log_100_106 = no_filter.
Proof.
  apply (log_stays_valid 100 no_filter
           [AppendMsg (block_at 107 x0b); RollbackMsg 103; SetNextMsg 104;
            AppendMsg (block_at 105 x0a)] log_100_106).
  - unfold is_uint64, uint64_modulus. lia.
  - repeat constructor; unfold fits, uint64_modulus; simpl; lia.
  - reflexivity.
Defined.

(** X15.  After [Append b] a replay of the whole log delivers the blocks it held,
    then [b], then [SetNext] with the number after [b]. *)
Theorem replay_after_Append (l l' : InMemoryEventLog.t) (b : Block) :
  BlockSlice.valid (InMemoryEventLog.blockSlice l) ->
  Number b < uint64_modulus - 1 ->
  InMemoryEventLog.Append b l = Ok l' ->
  InMemoryEventLog.Stream None (InMemoryEventLog.FirstBlock l') l' =
    Ok {| C := map AppendMsg (Blocks (InMemoryEventLog.blockSlice l))
               ++ [AppendMsg b; SetNextMsg (Number b + 1)];
          Err := Posted None |}.
Proof.
  intros Hv Hn HA. pose proof Hv as [Hs He Hd Hw Hinc Hin].
  unfold InMemoryEventLog.Append, BlockSlice.Append in HA.
  destruct (Number b <? End_ (InMemoryEventLog.blockSlice l)) eqn:E; [discriminate|].
  apply Z.ltb_ge in E. simpl in HA. injection HA as <-.
  unfold InMemoryEventLog.Stream. rewrite stream_sends.
  unfold InMemoryEventLog.FirstBlock, InMemoryEventLog.NextBlock. simpl.
  rewrite scan_up_head.
  - simpl. rewrite for_each_send. simpl. rewrite map_id.
    unfold is_uint64 in *. rewrite add64_small by (unfold is_uint64; lia).
    rewrite map_app. simpl. rewrite <- app_assoc. reflexivity.
  - rewrite Forall_forall in Hin.
    destruct (Blocks (InMemoryEventLog.blockSlice l)) as [|x xs] eqn:EB; simpl; [lia|].
    apply (Hin x). left. reflexivity.
Qed.

Lemma replay_after_Append_witness :
  InMemoryEventLog.Stream None 100 log_100_106 =
    Ok {| C := map AppendMsg [] ++ [AppendMsg (block_at 105 x0a); SetNextMsg (105 + 1)];
          Err := Posted None |}.
Proof.
  apply (replay_after_Append (InMemoryEventLog.NewInMemoryEventLog 100 no_filter)
           log_100_106 (block_at 105 x0a)).
  - apply EmptyBlockSlice_valid. unfold is_uint64, uint64_modulus. lia.
  - unfold uint64_modulus. simpl. lia.
  - reflexivity.
Defined.

(** ** GetLogs: the slice made of a node's logs *)

Section GetLogsFacts.

Import events.

Lemma less_false (a b : types.Log) :
  less b a = false <->
  types.BlockNumber a < types.BlockNumber b \/
  (types.BlockNumber a = types.BlockNumber b /\ types.Index a <= types.Index b).
Proof.
  unfold less. destruct (types.BlockNumber b =? types.BlockNumber a) eqn:E.
  - apply Z.eqb_eq in E. rewrite Z.ltb_ge. lia.
  - apply Z.eqb_neq in E. rewrite Z.ltb_ge. lia.
Qed.

Lemma Event_Log_event_of_log (l : types.Log) : Event_Log (event_of_log l) = l.
Proof. destruct l. reflexivity. Qed.

Lemma by_index_snoc (es : list Event) (x : Event) :
  by_index es -> Forall (fun e => Index e <= Index x) es -> by_index (es ++ [x]).
Proof.
  unfold by_index. induction 1 as [|a l Hs IH Hall]; intros Hx; simpl.
  - repeat constructor.
  - inversion Hx; subst. constructor; [apply IH; assumption|].
    apply Forall_app. split; [exact Hall|repeat constructor; assumption].
Qed.

(** The grouping loop from a block being filled: what it has built is
    increasing and well grouped, and holds the events of the logs in
    order. *)
Lemma fold_group (logs : list types.Log) :
  forall (blocks : list Block) (b : Block),
    sorted_logs logs ->
    BlockSlice.increasing (blocks ++ [b]) ->
    Forall well_grouped (blocks ++ [b]) ->
    (forall x e l, In x (blocks ++ [b]) -> In e (Events x) -> In l logs ->
                   less l (Event_Log e) = false) ->
    exists blocks' b',
      fold_left group_step logs (blocks, Some b) = (blocks', Some b') /\
      BlockSlice.increasing (blocks' ++ [b']) /\
      Forall well_grouped (blocks' ++ [b']) /\
      flat_map Events (blocks' ++ [b'])
        = flat_map Events (blocks ++ [b]) ++ map event_of_log logs.
Proof.
  induction logs as [|l logs IH]; intros blocks b Hsort Hinc Hwg Hle.
  - exists blocks, b. simpl. rewrite app_nil_r. splits; auto.
  - inversion Hsort as [|? ? Hs Hl]; subst.
    rewrite Forall_forall in Hl.
    pose proof Hwg as Hwg'. rewrite Forall_forall in Hwg'.
    assert (Hb_in : In b (blocks ++ [b])) by (apply in_or_app; right; left; reflexivity).
    assert (Hnum : forall x, In x (blocks ++ [b]) -> Number x <= types.BlockNumber l).
    { intros x Hx. destruct (Hwg' x Hx) as ((e & rest & He & _) & _ & Hbn).
      rewrite Forall_forall in Hbn.
      assert (Hin : In e (Events x)) by (rewrite He; left; reflexivity).
      specialize (Hle x e l Hx Hin (or_introl eq_refl)).
      apply less_false in Hle. specialize (Hbn e Hin).
      cbn [Event_Log types.BlockNumber] in Hle. lia. }
    destruct (increasing_app_inv _ _ Hinc) as [Hincb Hltb].
    apply Forall_app in Hwg. destruct Hwg as [Hwgb Hwgl].
    inversion Hwgl as [|? ? Hwb _]; subst.
    destruct Hwb as ((e0 & rest0 & He0 & Hh0) & Hidx & Hbn).
    cbn [fold_left]. unfold group_step at 2.
    destruct (negb (types.BlockNumber l =? Number b)) eqn:E.
    + apply negb_true_iff, Z.eqb_neq in E.
      set (nb := {| Number := types.BlockNumber l; Hash := types.BlockHash l;
                    Events := [event_of_log l] |}).
      destruct (IH (blocks ++ [b]) nb Hs) as (blocks' & b' & HF & HI & HW & HE).
      * apply increasing_snoc; [exact Hinc|].
        apply Forall_forall. intros y Hy. simpl.
        apply in_app_or in Hy. destruct Hy as [Hy|[<-|[]]].
        -- rewrite Forall_forall in Hltb. specialize (Hltb y Hy).
           specialize (Hnum b Hb_in). lia.
        -- specialize (Hnum b Hb_in). lia.
      * apply Forall_app. split; [apply Forall_forall; exact Hwg'|].
        constructor; [|constructor]. unfold well_grouped. simpl. splits.
        -- exists (event_of_log l), []. split; reflexivity.
        -- repeat constructor.
        -- repeat constructor.
      * intros x e l' Hx He Hl'. apply in_app_or in Hx. destruct Hx as [Hx|[<-|[]]].
        -- apply (Hle x e l' Hx He). right. exact Hl'.
        -- simpl in He. destruct He as [<-|[]].
           rewrite Event_Log_event_of_log. apply Hl. exact Hl'.
      * exists blocks', b'. splits; auto.
        rewrite HE, flat_map_app. simpl. rewrite <- !app_assoc. reflexivity.
    + apply negb_false_iff, Z.eqb_eq in E.
      set (b' := {| Number := Number b; Hash := Hash b;
                    Events := Events b ++ [event_of_log l] |}).
      destruct (IH blocks b' Hs) as (blocks' & b'' & HF & HI & HW & HE).
      * apply increasing_snoc; [exact Hincb|exact Hltb].
      * apply Forall_app. split; [exact Hwgb|].
        constructor; [|constructor]. unfold well_grouped. simpl. splits.
        -- exists e0, (rest0 ++ [event_of_log l]). rewrite He0. split; [reflexivity|exact Hh0].
        -- apply by_index_snoc; [exact Hidx|].
           apply Forall_forall. intros e He.
           specialize (Hle b e l Hb_in He (or_introl eq_refl)).
           apply less_false in Hle. rewrite Forall_forall in Hbn. specialize (Hbn e He).
           cbn [Event_Log types.BlockNumber types.Index] in Hle. simpl. lia.
        -- apply Forall_app. split; [exact Hbn|]. repeat constructor. simpl. exact E.
      * intros x e l' Hx He Hl'. apply in_app_or in Hx. destruct Hx as [Hx|[<-|[]]].
        -- apply (Hle x e l'); [apply in_or_app; left; exact Hx|exact He|right; exact Hl'].
        -- simpl in He. apply in_app_or in He. destruct He as [He|[<-|[]]].
           ++ apply (Hle b e l'); [exact Hb_in|exact He|right; exact Hl'].
           ++ rewrite Event_Log_event_of_log. apply Hl. exact Hl'.
      * exists blocks', b''. splits; auto.
        rewrite HE, !flat_map_app. simpl. rewrite ?app_nil_r, <- ?app_assoc. reflexivity.
Qed.

(** The blocks [GetLogs] makes of sorted logs. *)
Lemma group_sorted (logs : list types.Log) :
  sorted_logs logs ->
  BlockSlice.increasing (group logs) /\
  Forall well_grouped (group logs) /\
  flat_map Events (group logs) = map event_of_log logs.
Proof.
  intros Hsort. unfold group. destruct logs as [|l logs].
  - simpl. splits; constructor.
  - inversion Hsort as [|? ? Hs Hl]; subst. rewrite Forall_forall in Hl.
    cbn [fold_left].
    set (nb := {| Number := types.BlockNumber l; Hash := types.BlockHash l;
                  Events := [event_of_log l] |}).
    change (group_step ([], None) l) with (@nil Block, Some nb).
    destruct (fold_group logs [] nb Hs) as (blocks' & b' & HF & HI & HW & HE).
    + repeat constructor.
    + repeat constructor; exists (event_of_log l), []; split; reflexivity.
    + intros x e l' [<-|[]] [<-|[]] Hl'.
      rewrite Event_Log_event_of_log. apply Hl. exact Hl'.
    + rewrite HF. cbv beta iota. splits; [exact HI|exact HW|rewrite HE; reflexivity].
Qed.

(** What a successful [GetLogs] has gone through. *)
Lemma GetLogs_Ok sort_Slice (c : ethclient.Client) (q q' : ethereum.FilterQuery)
      (b : BlockSlice) :
  GetLogs sort_Slice c q = (Ok b, q') ->
  exists head from to logs,
    ethclient.BlockNumber c = Ok head /\
    ethereum.FromBlock q = Some from /\
    ethereum.ToBlock q = Some to /\
    q' = {| ethereum.FromBlock := ethereum.FromBlock q;
            ethereum.ToBlock := Some (if head <=? big.Uint64 to then head else to);
            ethereum.Addresses := ethereum.Addresses q;
            ethereum.Topics := ethereum.Topics q |} /\
    ethclient.FilterLogs c q' = Ok logs /\
    b = {| Start := big.Uint64 from;
           End_ := add64 (big.Uint64 (if head <=? big.Uint64 to then head else to)) 1;
           DistanceFromHead :=
             sub64 head (big.Uint64 (if head <=? big.Uint64 to then head else to));
           Blocks := group (sort_Slice less logs) |}.
Proof.
  unfold GetLogs.
  destruct (ethclient.BlockNumber c) as [head|e|]; try discriminate.
  destruct (ethereum.ToBlock q) as [to|]; try discriminate.
  cbv zeta. cbn [ethereum.FromBlock].
  match goal with
  | |- context [ethclient.FilterLogs c ?x] => set (q1 := x)
  end.
  destruct (ethclient.FilterLogs c q1) as [logs|e|] eqn:EF; try discriminate.
  destruct (ethereum.FromBlock q) as [from|]; try discriminate.
  intros [= <- <-]. exists head, from, to, logs. splits; auto.
Qed.

(** The numbers of the blocks are block numbers of the logs. *)
Lemma group_numbers (logs : list types.Log) (blk : Block) :
  sorted_logs logs -> In blk (group logs) ->
  exists l, In l logs /\ types.BlockNumber l = Number blk.
Proof.
  intros Hs Hin. destruct (group_sorted logs Hs) as (_ & Hwg & Hflat).
  rewrite Forall_forall in Hwg.
  destruct (Hwg blk Hin) as ((e & rest & He & _) & _ & Hbn).
  rewrite Forall_forall in Hbn.
  assert (Hie : In e (Events blk)) by (rewrite He; left; reflexivity).
  assert (Hf : In e (flat_map Events (group logs)))
    by (apply in_flat_map; exists blk; split; assumption).
  rewrite Hflat in Hf. apply in_map_iff in Hf. destruct Hf as (l & <- & Hl).
  exists l. split; [exact Hl|]. apply (Hbn _ Hie).
Qed.

Lemma Uint64_small (x : Z) : is_uint64 x -> big.Uint64 x = x.
Proof.
  intros H. unfold big.Uint64. unfold is_uint64 in H.
  rewrite Z.abs_eq by lia. apply wrap64_small. exact H.
Qed.

(** The slice of a successful [GetLogs] from a node that answers within the
    range asked for and whose head leaves room for one more block. *)
Lemma GetLogs_sound sort_Slice (c : ethclient.Client) (q q' : ethereum.FilterQuery)
      (b : BlockSlice) :
  (forall logs, sorted_logs (sort_Slice less logs) /\ incl (sort_Slice less logs) logs) ->
  in_range c ->
  (forall head, ethclient.BlockNumber c = Ok head -> 0 <= head < uint64_modulus - 1) ->
  GetLogs sort_Slice c q = (Ok b, q') ->
  sound b /\
  exists from, ethereum.FromBlock q = Some from /\ Start b = big.Uint64 from.
Proof.
  intros Hsort Hrange Hhead HG.
  destruct (GetLogs_Ok _ _ _ _ _ HG) as (head & from & to & logs & H1 & H2 & H3 & H4 & H5 & H6).
  specialize (Hhead head H1).
  set (to' := if head <=? big.Uint64 to then head else to) in *.
  assert (Hto : 0 <= big.Uint64 to' <= head).
  { subst to'. destruct (head <=? big.Uint64 to) eqn:E.
    - rewrite Uint64_small by (unfold is_uint64; lia). lia.
    - apply Z.leb_gt in E. pose proof (wrap64_range (Z.abs to)) as Hw.
      unfold is_uint64 in Hw. unfold big.Uint64 in *. lia. }
  split; [|exists from; split; [exact H2|subst b; reflexivity]].
  destruct (Hsort logs) as [Hs Hincl].
  destruct (group_sorted _ Hs) as (Hinc & _ & _).
  subst b. unfold sound. cbn [Start End_ DistanceFromHead Blocks].
  splits.
  - apply wrap64_range.
  - apply wrap64_range.
  - apply wrap64_range.
  - exact Hinc.
  - apply Forall_forall. intros blk Hblk.
    destruct (group_numbers _ _ Hs Hblk) as (l & Hl & <-).
    apply Hincl in Hl.
    assert (Hr := Hrange q' from to' logs). subst q'. cbn in Hr.
    specialize (Hr H2 eq_refl H5). rewrite Forall_forall in Hr. specialize (Hr l Hl).
    rewrite add64_small by (unfold is_uint64; lia). lia.
Qed.

Lemma nodes_honest sort_Slice (nodes : nat -> ethclient.Client) :
  (forall logs, sorted_logs (sort_Slice less logs) /\ incl (sort_Slice less logs) logs) ->
  (forall k, in_range (nodes k)) ->
  (forall k head, ethclient.BlockNumber (nodes k) = Ok head ->
                  0 <= head < uint64_modulus - 1) ->
  honest (client_of_nodes sort_Slice nodes).
Proof.
  intros Hsort Hrange Hhead k q d b. unfold client_of_nodes. cbn [responses].
  destruct (GetLogs sort_Slice (nodes k) q) as [r q'] eqn:EG. cbn [fst]. intros ->.
  apply (GetLogs_sound sort_Slice (nodes k) q q' b Hsort (Hrange k) (Hhead k) EG).
Qed.

End GetLogsFacts.

(** X16.  The slice [GetLogs] returns has its blocks in increasing order of
    number; each block has at least one event, carries the block hash of its
    first event, and holds events of its own number in the order of their
    index; and the events of the blocks, in order, are those of the sorted
    logs of the node. *)
Theorem GetLogs_blocks_sorted
        (sort_Slice : (types.Log -> types.Log -> bool) -> list types.Log -> list types.Log)
        (c : ethclient.Client) (q q' : ethereum.FilterQuery) (b : BlockSlice) :
  (forall logs, ethclient.FilterLogs c q' = Ok logs ->
                sorted_logs (sort_Slice events.less logs)) ->
  events.GetLogs sort_Slice c q = (Ok b, q') ->
  BlockSlice.increasing (Blocks b) /\
  Forall well_grouped (Blocks b) /\
  exists logs,
    ethclient.FilterLogs c q' = Ok logs /\
    flat_map Events (Blocks b) = map events.event_of_log (sort_Slice events.less logs).
Proof.
  intros Hsort HG.
  destruct (GetLogs_Ok _ _ _ _ _ HG) as (head & from & to & logs & H1 & H2 & H3 & H4 & H5 & H6).
  destruct (group_sorted _ (Hsort logs H5)) as (Hinc & Hwg & Hflat).
  subst b. cbn [Blocks]. splits; auto. exists logs. split; assumption.
Qed.

(** X17.  [GetLogs] over a window: with the head at [head] and a query for
    [[from, to]], it asks the node for [[from, min to head]] (and leaves
    that bound in the query); when the node answers with logs of that range,
    the slice starts at [from], ends after [min to head], and is
    [head - min to head] blocks behind the head; it is within the slice
    invariants as soon as [from] is not past its end. *)
Theorem GetLogs_window
        (sort_Slice : (types.Log -> types.Log -> bool) -> list types.Log -> list types.Log)
        (c : ethclient.Client) (q : ethereum.FilterQuery)
        (head from to : Z) (logs : list types.Log) :
  ethclient.BlockNumber c = Ok head -> 0 <= head < uint64_modulus - 1 ->
  ethereum.FromBlock q = Some from -> ethereum.ToBlock q = Some to ->
  is_uint64 from -> is_uint64 to ->
  let q' := {| ethereum.FromBlock := Some from;
               ethereum.ToBlock := Some (Z.min to head);
               ethereum.Addresses := ethereum.Addresses q;
               ethereum.Topics := ethereum.Topics q |} in
  ethclient.FilterLogs c q' = Ok logs ->
  sorted_logs (sort_Slice events.less logs) ->
  incl (sort_Slice events.less logs) logs ->
  Forall (fun l => from <= types.BlockNumber l <= Z.min to head) logs ->
  exists b,
    events.GetLogs sort_Slice c q = (Ok b, q') /\
    Start b = from /\
    End_ b = Z.min to head + 1 /\
    DistanceFromHead b = head - Z.min to head /\
    Blocks b = events.group (sort_Slice events.less logs) /\
    (from <= End_ b -> BlockSlice.valid b).
Proof.
  intros Hhead Hh Hfrom Hto Hf Ht q' HF Hs Hincl Hr.
  unfold events.GetLogs. rewrite Hhead, Hto. cbv zeta. cbn [ethereum.FromBlock].
  rewrite Hfrom, (Uint64_small to Ht).
  assert (Hmin : (if head <=? to then head else to) = Z.min to head).
  { destruct (head <=? to) eqn:E.
    - apply Z.leb_le in E. rewrite Z.min_r by lia. reflexivity.
    - apply Z.leb_gt in E. rewrite Z.min_l by lia. reflexivity. }
  rewrite Hmin. fold q'. rewrite HF.
  unfold is_uint64 in *.
  assert (Hm : 0 <= Z.min to head <= head) by lia.
  rewrite (Uint64_small from) by exact Hf.
  rewrite (Uint64_small (Z.min to head)) by (unfold is_uint64; lia).
  rewrite add64_small by (unfold is_uint64; lia).
  rewrite sub64_small by (unfold is_uint64; lia).
  eexists. split; [reflexivity|]. cbn [Start End_ DistanceFromHead Blocks].
  splits; try reflexivity.
  intros Hw. destruct (group_sorted _ Hs) as (Hinc & _ & _).
  constructor; cbn [Start End_ DistanceFromHead Blocks];
    try (unfold is_uint64; lia); [exact Hinc|].
  apply Forall_forall. intros blk Hblk.
  destruct (group_numbers _ _ Hs Hblk) as (l & Hl & <-).
  apply Hincl in Hl. rewrite Forall_forall in Hr. specialize (Hr l Hl). lia.
Qed.

(** ** Insertion sort and the example node *)

Section SortFacts.

Import events.

Lemma less_true (a b : types.Log) :
  less a b = true <->
  types.BlockNumber a < types.BlockNumber b \/
  (types.BlockNumber a = types.BlockNumber b /\ types.Index a < types.Index b).
Proof.
  unfold less. destruct (types.BlockNumber a =? types.BlockNumber b) eqn:E.
  - apply Z.eqb_eq in E. rewrite Z.ltb_lt. lia.
  - apply Z.eqb_neq in E. rewrite Z.ltb_lt. lia.
Qed.

Lemma insert_by_In {A} (lt : A -> A -> bool) (x z : A) (l : list A) :
  In z (insert_by lt x l) -> z = x \/ In z l.
Proof.
  induction l as [|y rest IH]; simpl.
  - intros [<-|[]]. left. reflexivity.
  - destruct (lt x y); simpl.
    + intros [<-|H]; [left; reflexivity|right; exact H].
    + intros [<-|H]; [right; left; reflexivity|].
      destruct (IH H) as [->|H']; [left; reflexivity|right; right; exact H'].
Qed.

Lemma insertion_sort_incl {A} (lt : A -> A -> bool) (l : list A) :
  incl (insertion_sort lt l) l.
Proof.
  induction l as [|x l IH]; intros z; simpl; [tauto|].
  intros H. apply insert_by_In in H. destruct H as [->|H]; [left; reflexivity|].
  right. apply IH. exact H.
Qed.

Lemma insert_by_sorted (x : types.Log) (l : list types.Log) :
  sorted_logs l -> sorted_logs (insert_by less x l).
Proof.
  unfold sorted_logs. induction 1 as [|y rest Hs IH Hall]; simpl.
  - repeat constructor.
  - destruct (less x y) eqn:E.
    + apply less_true in E. constructor; [constructor; assumption|].
      constructor; [apply less_false; lia|].
      eapply Forall_impl; [|exact Hall]. intros z Hz. simpl in Hz.
      apply less_false in Hz. apply less_false. lia.
    + constructor; [exact IH|].
      apply Forall_forall. intros z Hz. apply insert_by_In in Hz.
      destruct Hz as [->|Hz]; [exact E|].
      rewrite Forall_forall in Hall. apply Hall. exact Hz.
Qed.

Lemma insertion_sort_sorts (l : list types.Log) :
  sorted_logs (insertion_sort less l) /\ incl (insertion_sort less l) l.
Proof.
  split; [|apply insertion_sort_incl].
  induction l as [|x l IH]; simpl; [constructor|].
  apply insert_by_sorted. exact IH.
Qed.

Lemma node_at_in_range (head : Z) (chain : list types.Log) : in_range (node_at head chain).
Proof.
  intros q from to logs Hf Ht. unfold node_at. cbn [ethclient.FilterLogs].
  rewrite Hf, Ht. intros [= <-].
  apply Forall_forall. intros l Hl. apply filter_In in Hl. destruct Hl as [_ Hl].
  apply andb_true_iff in Hl. destruct Hl as [H1 H2].
  apply Z.leb_le in H1, H2. lia.
Qed.

End SortFacts.

Lemma GetLogs_blocks_sorted_witness :
  BlockSlice.increasing (Blocks slice_107_108) /\
  Forall well_grouped (Blocks slice_107_108) /\
  exists logs,
    ethclient.FilterLogs (node_at 150 chain_107_108) query_100_150 = Ok logs /\
    flat_map Events (Blocks slice_107_108)
      = map events.event_of_log (insertion_sort events.less logs).
Proof.
  apply (GetLogs_blocks_sorted insertion_sort (node_at 150 chain_107_108)
           query_100_2099 query_100_150 slice_107_108).
  - intros logs _. apply insertion_sort_sorts.
  - reflexivity.
Defined.

Lemma GetLogs_window_witness :
  exists b,
    events.GetLogs insertion_sort (node_at 150 chain_107_108) query_100_2099
      = (Ok b, query_100_150) /\
    Start b = 100 /\
    End_ b = Z.min 2099 150 + 1 /\
    DistanceFromHead b = 150 - Z.min 2099 150 /\
    Blocks b = events.group (insertion_sort events.less
                               [log_at 108 x0c 0; log_at 107 x0b 4; log_at 107 x0b 2]) /\
    (100 <= End_ b -> BlockSlice.valid b).
Proof.
  apply (GetLogs_window insertion_sort (node_at 150 chain_107_108) query_100_2099
           150 100 2099 [log_at 108 x0c 0; log_at 107 x0b 4; log_at 107 x0b 2]).
  - reflexivity.
  - unfold uint64_modulus. lia.
  - reflexivity.
  - reflexivity.
  - unfold is_uint64, uint64_modulus. lia.
  - unfold is_uint64, uint64_modulus. lia.
  - reflexivity.
  - apply insertion_sort_sorts.
  - apply insertion_sort_incl.
  - repeat constructor; simpl; lia.
Defined.

(** ** ChainStreamer: its messages applied to a log *)

Section FeedFacts.

Import ChainStreamer.

Lemma apply_messages_app (ms1 ms2 : list Message) (l : InMemoryEventLog.t) :
  apply_messages (ms1 ++ ms2) l = rbind (apply_messages ms1 l) (apply_messages ms2).
Proof.
  revert l. induction ms1 as [|m ms1 IH]; intros l; [reflexivity|].
  cbn [app apply_messages]. destruct (apply_message m l); simpl; auto.
Qed.

(** A run of [Append] messages with increasing numbers from the cursor on,
    all below [E]: the log takes them all. *)
Lemma apply_appends (bs : list Block) (E : Z) (l : InMemoryEventLog.t) :
  BlockSlice.valid (InMemoryEventLog.blockSlice l) ->
  BlockSlice.increasing bs ->
  Forall (fun blk => InMemoryEventLog.NextBlock l <= Number blk < E) bs ->
  InMemoryEventLog.NextBlock l <= E -> is_uint64 E ->
  exists l1,
    apply_messages (map AppendMsg bs) l = Ok l1 /\
    BlockSlice.valid (InMemoryEventLog.blockSlice l1) /\
    InMemoryEventLog.FirstBlock l1 = InMemoryEventLog.FirstBlock l /\
    InMemoryEventLog.NextBlock l1 <= E /\
    Blocks (InMemoryEventLog.blockSlice l1) = Blocks (InMemoryEventLog.blockSlice l) ++ bs.
Proof.
  revert l. induction bs as [|blk bs IH]; intros l Hv Hinc Hall HE HU.
  - exists l. simpl. rewrite app_nil_r. splits; auto.
  - apply increasing_cons_inv in Hinc. destruct Hinc as [Hinc Hlt].
    inversion Hall as [|? ? Hblk Hall']; subst.
    unfold InMemoryEventLog.NextBlock in *. unfold is_uint64 in HU.
    cbv beta in Hblk.
    assert (HA : apply_message (AppendMsg blk) l =
                 Ok (InMemoryEventLog.with_blockSlice l
                       {| Start := Start (InMemoryEventLog.blockSlice l);
                          End_ := Number blk + 1;
                          DistanceFromHead := 0;
                          Blocks := Blocks (InMemoryEventLog.blockSlice l) ++ [blk] |})).
    { unfold apply_message, AppendMsg, deref, InMemoryEventLog.Append, BlockSlice.Append.
      cbn [MsgAction MsgBlock].
      replace (Number blk <? End_ (InMemoryEventLog.blockSlice l)) with false
        by (symmetry; apply Z.ltb_ge; lia).
      pose proof (BlockSlice.valid_End _ Hv) as HEl. unfold is_uint64 in HEl.
      rewrite add64_small by (unfold is_uint64; lia). reflexivity. }
    assert (Hfit : fits (AppendMsg blk))
      by (unfold fits, AppendMsg; cbn [MsgAction MsgBlock]; lia).
    pose proof (apply_message_valid _ _ _ Hv Hfit HA) as (Hv0 & _ & _).
    set (l0 := InMemoryEventLog.with_blockSlice l _) in *.
    destruct (IH l0) as (l1 & H1 & Hv1 & Hs1 & He1 & Hb1); auto.
    + rewrite Forall_forall in Hall', Hlt. apply Forall_forall. intros y Hy.
      specialize (Hall' y Hy). specialize (Hlt y Hy). simpl. lia.
    + simpl. lia.
    + exists l1. cbn [map apply_messages]. rewrite HA. cbn [rbind].
      splits; auto. rewrite Hb1. simpl. rewrite <- app_assoc. reflexivity.
Qed.

(** The emission step feeds the subscriber's log. *)
Lemma emit_feeds (b : BlockSlice) (cs : chainStreamer) (l : InMemoryEventLog.t) :
  BlockSlice.valid b ->
  next cs = End_ (history cs) -> Start b <= next cs <= End_ b ->
  done (chan cs) = None -> mirrors l cs ->
  exists ms l',
    fst (emit b cs) = Ok (BlockSlice.DeleteBeforeBlock (next cs) b) /\
    sent (chan (snd (emit b cs))) = sent (chan cs) ++ ms /\
    done (chan (snd (emit b cs))) = None /\
    apply_messages ms l = Ok l' /\ mirrors l' (snd (emit b cs)).
Proof.
  intros Hb Hn Hw Hd (Hl & Hfrom & Hnext & older & Hold).
  destruct (emit_open b cs Hn Hd) as (cs' & He & Hs & Hd' & Hnx & Hf & Hhist).
  rewrite He. cbn [fst snd].
  pose proof (BlockSlice.valid_Start _ Hb) as HbS.
  pose proof (BlockSlice.valid_End _ Hb) as HbE. unfold is_uint64 in HbS, HbE.
  destruct (DeleteBeforeBlock_keeps_valid b (next cs) Hb) as [_ Hb']; [lia|].
  set (b' := BlockSlice.DeleteBeforeBlock (next cs) b) in *.
  destruct (apply_appends (Blocks b') (End_ b) l) as (l1 & H1 & Hv1 & Hs1 & He1 & Hb1).
  { exact Hl. }
  { apply (BlockSlice.valid_increasing _ Hb'). }
  { rewrite Hnext. exact (BlockSlice.valid_inside _ Hb'). }
  { rewrite Hnext. lia. }
  { exact (BlockSlice.valid_End _ Hb). }
  unfold InMemoryEventLog.NextBlock, InMemoryEventLog.FirstBlock in *.
  assert (HX : InMemoryEventLog.SetNext (End_ b) l1 =
               Ok (InMemoryEventLog.with_blockSlice l1
                     {| Start := Start (InMemoryEventLog.blockSlice l1);
                        End_ := End_ b;
                        DistanceFromHead := DistanceFromHead (InMemoryEventLog.blockSlice l1);
                        Blocks := Blocks (InMemoryEventLog.blockSlice l1) |})).
  { unfold InMemoryEventLog.SetNext, BlockSlice.Extend.
    replace (End_ b <? End_ (InMemoryEventLog.blockSlice l1)) with false
      by (symmetry; apply Z.ltb_ge; lia).
    reflexivity. }
  set (l' := InMemoryEventLog.with_blockSlice l1 _) in HX.
  exists (map AppendMsg (Blocks b') ++ [SetNextMsg (End_ b)]), l'.
  splits.
  - reflexivity.
  - exact Hs.
  - exact Hd'.
  - rewrite apply_messages_app, H1. cbn [rbind apply_messages].
    unfold apply_message, SetNextMsg. cbn [MsgAction MsgNumber].
    rewrite HX. reflexivity.
  - unfold mirrors, InMemoryEventLog.NextBlock, InMemoryEventLog.FirstBlock.
    splits.
    + assert (HX' : BlockSlice.Extend (End_ b) (InMemoryEventLog.blockSlice l1)
                    = Ok (InMemoryEventLog.blockSlice l')).
      { unfold BlockSlice.Extend.
        replace (End_ b <? End_ (InMemoryEventLog.blockSlice l1)) with false
          by (symmetry; apply Z.ltb_ge; lia).
        reflexivity. }
      apply (Extend_valid _ _ _ Hv1 (proj2 HbE) HX').
    + subst l'. simpl. rewrite Hs1, Hf. lia.
    + rewrite Hnx. lia.
    + subst l'. simpl. symmetry. exact Hnx.
    + subst l'. cbn [InMemoryEventLog.blockSlice InMemoryEventLog.with_blockSlice Blocks].
      rewrite Hb1, Hold, Hhist.
      destruct (MaxEventlogSize <=? End_ b); cbn [Blocks BlockSlice.DeleteBeforeBlock].
      * match goal with
        | |- context [skipn ?n ?x] =>
            exists (older ++ firstn n x);
            rewrite <- (app_assoc older), <- (app_assoc older), (firstn_skipn n x)
        end.
        reflexivity.
      * exists older. rewrite <- app_assoc. reflexivity.
Qed.

(** [process] feeds the subscriber's log: the messages it sends on a channel
    that is never cancelled are all accepted by a log that mirrors the
    streamer, and leave it mirroring the streamer again. *)
Lemma process_feeds (b : BlockSlice) (cs : chainStreamer) (l : InMemoryEventLog.t) :
  BlockSlice.valid b -> BlockSlice.valid (history cs) ->
  next cs = End_ (history cs) -> Start b <= next cs ->
  done (chan cs) = None -> mirrors l cs ->
  exists ms l',
    sent (chan (snd (process b cs))) = sent (chan cs) ++ ms /\
    done (chan (snd (process b cs))) = None /\
    apply_messages ms l = Ok l' /\
    match fst (process b cs) with
    | Ok _ => mirrors l' (snd (process b cs))
    | _ => True
    end.
Proof.
  intros Hb Hh Hn Hs Hd Hm.
  assert (Hnone : forall (r : result BlockSlice) cs1,
             chan cs1 = chan cs ->
             match r with Ok _ => False | _ => True end ->
             exists ms l',
               sent (chan cs1) = sent (chan cs) ++ ms /\
               done (chan cs1) = None /\
               apply_messages ms l = Ok l' /\
               match r with
               | Ok _ => mirrors l' cs1
               | _ => True
               end).
  { intros r cs1 Hc Hr. exists [], l. rewrite Hc, app_nil_r.
    splits; auto. destruct r; [contradiction|exact I|exact I]. }
  unfold process, bind.
  destruct (MatchBlocks b (history cs)) as [[[|] L]|e|] eqn:EM.
  - rewrite (reconcile_agreed b cs L EM).
    apply MatchBlocks_ends in EM.
    destruct (emit_feeds b cs l Hb Hn ltac:(lia) Hd Hm) as (ms & l' & Hr & H1 & H2 & H3 & H4).
    exists ms, l'. destruct (emit b cs) as [r cs']. cbn [fst snd] in *. subst r.
    splits; auto.
  - rewrite (reconcile_reorg b cs L EM).
    set (rp := rollback_point (from cs) L).
    destruct Hm as (Hl & Hfrom & Hnext & older & Hold).
    destruct (BlockSlice.Rollback rp (history cs)) as [h|e|] eqn:ER;
      [|apply Hnone; [reflexivity|exact I]|apply Hnone; [reflexivity|exact I]].
    pose proof (Rollback_valid _ _ _ Hh ER) as Hvh.
    pose proof (Rollback_ok _ _ _ ER) as [Hwin HhE].
    unfold sendOrDone. rewrite Hd.
    unfold InMemoryEventLog.NextBlock, InMemoryEventLog.FirstBlock in *.
    pose proof (BlockSlice.valid_Start _ Hl) as HlS. unfold is_uint64 in HlS.
    pose proof (BlockSlice.valid_End _ Hl) as HlE. unfold is_uint64 in HlE.
    assert (Hfl : from cs <= rp)
      by (apply rollback_point_floor; unfold is_uint64; lia).
    assert (HR : BlockSlice.Rollback rp (InMemoryEventLog.blockSlice l)
                 = Ok (BlockSlice.DeleteFromBlock rp (InMemoryEventLog.blockSlice l))).
    { unfold BlockSlice.Rollback.
      replace (End_ (InMemoryEventLog.blockSlice l) <? rp) with false
        by (symmetry; apply Z.ltb_ge; lia).
      replace (rp <? Start (InMemoryEventLog.blockSlice l)) with false
        by (symmetry; apply Z.ltb_ge; lia).
      reflexivity. }
    set (l1 := InMemoryEventLog.with_blockSlice l
                 (BlockSlice.DeleteFromBlock rp (InMemoryEventLog.blockSlice l))).
    assert (HA : apply_message (RollbackMsg rp) l = Ok l1).
    { unfold apply_message, RollbackMsg. cbn [MsgAction MsgNumber].
      unfold InMemoryEventLog.Rollback. rewrite HR. reflexivity. }
    set (cs1 := with_chan _ (with_history h (with_next rp cs))).
    assert (Hm1 : mirrors l1 cs1).
    { unfold mirrors, InMemoryEventLog.NextBlock, InMemoryEventLog.FirstBlock.
      subst l1 cs1. simpl. splits; auto.
      - apply (Rollback_valid _ _ _ Hl HR).
      - lia.
      - unfold BlockSlice.Rollback in ER.
        destruct (End_ (history cs) <? rp); [discriminate|].
        destruct (rp <? Start (history cs)); [discriminate|].
        injection ER as <-. simpl.
        rewrite (scan_down_filter _ _ (BlockSlice.valid_increasing _ Hl)).
        rewrite (scan_down_filter _ _ (BlockSlice.valid_increasing _ Hh)).
        rewrite Hold, filter_app. eexists. reflexivity. }
    destruct (rp <? Start b) eqn:Erp; cbn [negb].
    + exists [RollbackMsg rp], l1. subst cs1. simpl. rewrite HA. simpl.
      splits; auto.
    + apply Z.ltb_ge in Erp. apply MatchBlocks_ends in EM.
      assert (Hn1 : next cs1 = End_ (history cs1))
        by (subst cs1; simpl; symmetry; exact HhE).
      assert (Hw1 : Start b <= next cs1 <= End_ b) by (subst cs1; simpl; lia).
      assert (Hd1 : done (chan cs1) = None) by reflexivity.
      destruct (emit_feeds b cs1 l1 Hb Hn1 Hw1 Hd1 Hm1)
        as (ms & l' & Hr & H1 & H2 & H3 & H4).
      exists (RollbackMsg rp :: ms), l'.
      destruct (emit b cs1) as [r cs']. cbn [fst snd] in *. subst r.
      splits; auto.
      * rewrite H1. subst cs1. simpl. rewrite <- app_assoc. reflexivity.
      * cbn [apply_messages]. rewrite HA. exact H3.
  - unfold reconcile, bind, get, lift. rewrite EM. apply Hnone; [reflexivity|exact I].
  - unfold reconcile, bind, get, lift. rewrite EM. apply Hnone; [reflexivity|exact I].
Qed.

Lemma sound_valid (b : BlockSlice) : sound b -> Start b <= End_ b -> BlockSlice.valid b.
Proof. intros (H1 & H2 & H3 & H4 & H5) Hw. constructor; assumption. Qed.

(** A batch that ends before the history does is refused, and nothing is
    sent. *)
Lemma process_short (b : BlockSlice) (cs : chainStreamer) :
  End_ b < End_ (history cs) ->
  process b cs =
    (Fail (ErrNewEndsBeforeOld (Start b) (End_ b) (Start (history cs)) (End_ (history cs))),
     cs).
Proof.
  intros H. unfold process, bind, reconcile, bind, get, lift, MatchBlocks.
  replace (End_ b <? End_ (history cs)) with true by (symmetry; apply Z.ltb_lt; exact H).
  reflexivity.
Qed.

(** What [fetch] returns from an honest source, and what it leaves. *)
Lemma fetch_honest (f : Z) (cs : chainStreamer) :
  honest (client cs) ->
  history (snd (fetch f cs)) = history cs /\
  next (snd (fetch f cs)) = next cs /\
  from (snd (fetch f cs)) = from cs /\
  chan (snd (fetch f cs)) = chan cs /\
  batchOverlap (snd (fetch f cs)) = batchOverlap cs /\
  honest (client (snd (fetch f cs))) /\
  forall b, fst (fetch f cs) = Ok b -> is_uint64 f -> sound b /\ Start b = f.
Proof.
  intros Hh. unfold fetch, GetLogs. cbn [fst snd]. unfold with_client. cbn.
  splits; auto.
  intros b Hb Hf. apply Hh in Hb. destruct Hb as (Hv & from_ & Hq & HS). cbn in Hq.
  split; [exact Hv|]. injection Hq as <-. rewrite HS.
  unfold big.Uint64. unfold is_uint64 in Hf.
  rewrite Z.abs_eq by lia. apply wrap64_small. exact Hf.
Qed.

(** One turn of the loop feeds the subscriber's log. *)
Lemma iteration_feeds (cs : chainStreamer) (l : InMemoryEventLog.t) :
  honest (client cs) ->
  BlockSlice.valid (history cs) -> next cs = End_ (history cs) ->
  0 <= batchOverlap cs -> from cs + batchOverlap cs < uint64_modulus ->
  done (chan cs) = None -> mirrors l cs ->
  exists ms l',
    sent (chan (snd (iteration cs))) = sent (chan cs) ++ ms /\
    done (chan (snd (iteration cs))) = None /\
    apply_messages ms l = Ok l' /\
    from (snd (iteration cs)) = from cs /\
    batchOverlap (snd (iteration cs)) = batchOverlap cs /\
    honest (client (snd (iteration cs))) /\
    match fst (iteration cs) with
    | Ok _ =>
        mirrors l' (snd (iteration cs)) /\
        BlockSlice.valid (history (snd (iteration cs))) /\
        next (snd (iteration cs)) = End_ (history (snd (iteration cs)))
    | _ => True
    end.
Proof.
  intros Hh Hv Hn Hbo Hov Hd Hm.
  unfold iteration, bind, get. cbn beta iota zeta.
  set (f := if next cs <? add64 (from cs) (batchOverlap cs)
            then from cs else sub64 (next cs) (batchOverlap cs)).
  assert (Hf : is_uint64 f /\ f <= next cs).
  { destruct Hm as (Hl & Hfrom & Hnext & _).
    unfold InMemoryEventLog.NextBlock, InMemoryEventLog.FirstBlock in *.
    pose proof (BlockSlice.valid_Start _ Hl) as HlS.
    pose proof (BlockSlice.valid_End _ Hl) as HlE. unfold is_uint64 in *.
    subst f. rewrite add64_small by (unfold is_uint64; lia).
    destruct (next cs <? from cs + batchOverlap cs) eqn:E; [lia|].
    apply Z.ltb_ge in E. rewrite sub64_small by (unfold is_uint64; lia). lia. }
  destruct Hf as [Hfu Hf].
  destruct (fetch_honest f cs Hh) as (F1 & F2 & F3 & F4 & F5 & F6 & F7).
  destruct (fetch f cs) as [[b|e|] cs0]; cbn [fst snd] in *.
  2,3: exists [], l; rewrite F4, F3, F5, app_nil_r; splits; auto.
  destruct (F7 b eq_refl Hfu) as [Hsb HbS].
  destruct (Z_le_gt_dec (Start b) (End_ b)) as [Hwb|Hwb].
  2:{ rewrite process_short by (rewrite F1, <- Hn; lia).
      cbn [fst snd].
      exists [], l. rewrite F4, F3, F5, app_nil_r. splits; auto. }
  pose proof (sound_valid b Hsb Hwb) as Hb.
  assert (Hm0 : mirrors l cs0).
  { destruct Hm as (Hl & Hfrom & Hnext & older & Hold).
    unfold mirrors. rewrite F1, F2, F3.
    exact (conj Hl (conj Hfrom (conj Hnext (ex_intro _ older Hold)))). }
  destruct (process_feeds b cs0 l Hb) as (ms & l' & P1 & P2 & P3 & P4);
    try congruence; try (rewrite F2, HbS; exact Hf).
  pose proof (process_settled b Hb cs0) as Hst.
  pose proof (process_emits (fun _ => True) b cs0 (fun _ _ => I) (fun _ _ => I))
    as (E1 & E2 & _).
  pose proof (process_same_client b cs0) as Hcl. unfold same_client in Hcl.
  destruct (process b cs0) as [[b'|e|] cs1]; cbn [fst snd] in *.
  2,3: exists ms, l'; splits; auto; try congruence; rewrite Hcl; exact F6.
  destruct Hst as [Hv1 Hn1]; [splits; congruence|].
  assert (Hw : wait cs1 = (Ok tt, cs1)).
  { unfold wait, waitOrDone. rewrite P2. rewrite with_chan_chan. reflexivity. }
  assert (Hend : forall t : Task chainStreamer unit, t cs1 = (Ok tt, cs1) ->
            exists ms0 l'0,
              sent (chan (snd (t cs1))) = sent (chan cs) ++ ms0 /\
              done (chan (snd (t cs1))) = None /\
              apply_messages ms0 l = Ok l'0 /\
              from (snd (t cs1)) = from cs /\
              batchOverlap (snd (t cs1)) = batchOverlap cs /\
              honest (client (snd (t cs1))) /\
              match fst (t cs1) with
              | Ok _ =>
                  mirrors l'0 (snd (t cs1)) /\
                  BlockSlice.valid (history (snd (t cs1))) /\
                  next (snd (t cs1)) = End_ (history (snd (t cs1)))
              | _ => True
              end).
  { intros t Ht. rewrite Ht. cbn [fst snd]. exists ms, l'.
    splits; auto; try congruence; rewrite Hcl; exact F6. }
  destruct (DistanceFromHead b' =? 0); apply Hend; [exact Hw|reflexivity].
Qed.

(** [run] feeds the subscriber's log, for any number of turns. *)
Lemma run_feeds (fuel : nat) (cs : chainStreamer) (l : InMemoryEventLog.t) :
  honest (client cs) ->
  BlockSlice.valid (history cs) -> next cs = End_ (history cs) ->
  0 <= batchOverlap cs -> from cs + batchOverlap cs < uint64_modulus ->
  done (chan cs) = None -> mirrors l cs ->
  exists ms l',
    sent (chan (snd (run fuel cs))) = sent (chan cs) ++ ms /\
    apply_messages ms l = Ok l'.
Proof.
  revert cs l. induction fuel as [|fuel IH]; intros cs l Hh Hv Hn Hbo Hov Hd Hm.
  - exists [], l. simpl. rewrite app_nil_r. splits; auto.
  - destruct (iteration_feeds cs l Hh Hv Hn Hbo Hov Hd Hm)
      as (ms & l1 & I1 & I2 & I3 & I4 & I5 & I6 & I7).
    cbn [run]. unfold bind.
    destruct (iteration cs) as [[[]|e|] cs1]; cbn [fst snd] in *.
    2,3: exists ms, l1; splits; auto.
    destruct I7 as (Hm1 & Hv1 & Hn1).
    destruct (IH cs1 l1) as (ms2 & l2 & R1 & R2); auto;
      try (rewrite ?I4, ?I5; assumption).
    exists (ms ++ ms2), l2. splits; auto.
    + rewrite R1, I1, app_assoc. reflexivity.
    + rewrite apply_messages_app, I3. exact R2.
Qed.

(** A subscription that is never cancelled, from an honest source: a log
    that ends where the subscription starts takes all its messages. *)
Lemma Stream_feeds (cl : Client) (fuel : nat) (from_ : Z) (cr : ChainStreamer.t)
      (l : InMemoryEventLog.t) :
  honest cl -> dialError cl = None ->
  BlockSlice.valid (InMemoryEventLog.blockSlice l) ->
  InMemoryEventLog.FirstBlock l <= from_ -> InMemoryEventLog.NextBlock l = from_ ->
  0 <= BatchOverlap cr ->
  from_ + (if BatchOverlap cr =? 0 then DefaultBatchOverlap else BatchOverlap cr)
    < uint64_modulus ->
  exists sub l',
    ChainStreamer.Stream cl fuel None from_ cr = Ok sub /\
    apply_messages (C sub) l = Ok l'.
Proof.
  intros Hh Hdial Hl Hfirst Hnext Hbo Hov.
  unfold ChainStreamer.Stream, makeChainStreamer. rewrite Hdial.
  match goal with
  | |- context [run fuel ?c] => set (cs := c)
  end.
  assert (Hu : is_uint64 from_).
  { rewrite <- Hnext. apply (BlockSlice.valid_End _ Hl). }
  destruct (run_feeds fuel cs l) as (ms & l' & Hs & Ha); subst cs; cbn; auto.
  - apply EmptyBlockSlice_valid. exact Hu.
  - destruct (BatchOverlap cr =? 0); unfold DefaultBatchOverlap; lia.
  - unfold mirrors. cbn. splits; auto; try lia.
    exists (Blocks (InMemoryEventLog.blockSlice l)). rewrite app_nil_r. reflexivity.
  - cbn in Hs.
    match goal with
    | |- context [run fuel ?c] => destruct (run fuel c) as [r cs']
    end.
    cbn [snd] in Hs.
    eexists _, l'. split; [reflexivity|]. cbn [C]. rewrite Hs. exact Ha.
Qed.

End FeedFacts.

(** X18.  [process] feeds a subscriber's log.  When the log has applied every
    message so far (it ends at the streamer's cursor, starts at or before the
    subscription, and the streamer's history is the tail of its blocks), the
    messages [process] sends for a batch on a channel that is never cancelled
    are all accepted by the log, in order; and if [process] returns without
    an error the log is again level with the streamer. *)
Theorem process_feeds_log
        (b : BlockSlice) (cs : ChainStreamer.chainStreamer) (l : InMemoryEventLog.t) :
  BlockSlice.valid b -> BlockSlice.valid (ChainStreamer.history cs) ->
  ChainStreamer.next cs = End_ (ChainStreamer.history cs) ->
  Start b <= ChainStreamer.next cs ->
  done (ChainStreamer.chan cs) = None -> mirrors l cs ->
  exists ms l',
    sent (ChainStreamer.chan (snd (ChainStreamer.process b cs)))
      = sent (ChainStreamer.chan cs) ++ ms /\
    apply_messages ms l = Ok l' /\
    match fst (ChainStreamer.process b cs) with
    | Ok _ => mirrors l' (snd (ChainStreamer.process b cs))
    | _ => True
    end.
Proof.
  intros Hb Hh Hn Hs Hd Hm.
  destruct (process_feeds b cs l Hb Hh Hn Hs Hd Hm) as (ms & l' & H1 & _ & H3 & H4).
  exists ms, l'. splits; assumption.
Qed.

(** X19.  The messages of a [ChainStreamer] subscription fit an event log.  From a
    source that answers with sound slices starting at the block asked for,
    and on a channel that is never cancelled, every message the subscription
    delivers, in order, is accepted by a log that is within the slice
    invariants and ends at the first block of the subscription: no [Append]
    lies below the log's end, no [Rollback] outside its window, no [SetNext]
    below its end. *)
Theorem Stream_feeds_log
        (cl : Client) (fuel : nat) (from_ : Z) (cr : ChainStreamer.t)
        (l : InMemoryEventLog.t) :
  honest cl -> dialError cl = None ->
  BlockSlice.valid (InMemoryEventLog.blockSlice l) ->
  InMemoryEventLog.FirstBlock l <= from_ -> InMemoryEventLog.NextBlock l = from_ ->
  0 <= ChainStreamer.BatchOverlap cr ->
  from_ + (if ChainStreamer.BatchOverlap cr =? 0 then DefaultBatchOverlap
           else ChainStreamer.BatchOverlap cr) < uint64_modulus ->
  exists sub l',
    ChainStreamer.Stream cl fuel None from_ cr = Ok sub /\
    apply_messages (C sub) l = Ok l'.
Proof. apply Stream_feeds. Qed.

Lemma process_feeds_log_witness :
  exists ms l',
    sent (ChainStreamer.chan (snd (ChainStreamer.process fetch_after_106 streamer_with_history)))
      = sent (ChainStreamer.chan streamer_with_history) ++ ms /\
    apply_messages ms log_100_106 = Ok l' /\
    match fst (ChainStreamer.process fetch_after_106 streamer_with_history) with
    | Ok _ => mirrors l' (snd (ChainStreamer.process fetch_after_106 streamer_with_history))
    | _ => True
    end.
Proof.
  apply (process_feeds_log fetch_after_106 streamer_with_history log_100_106).
  - constructor; simpl; unfold is_uint64, uint64_modulus; try lia;
      repeat constructor; simpl; lia.
  - exact slice_lagging_valid.
  - reflexivity.
  - simpl. lia.
  - reflexivity.
  - unfold mirrors, InMemoryEventLog.FirstBlock, InMemoryEventLog.NextBlock. simpl.
    split; [exact slice_100_106_valid|].
    split; [lia|]. split; [reflexivity|]. exists []. reflexivity.
Defined.

Lemma Stream_feeds_log_witness :
  exists sub l',
    ChainStreamer.Stream (client_of_nodes insertion_sort nodes_reorg_145) 2 None 100
                         default_streamer = Ok sub /\
    apply_messages (C sub) (InMemoryEventLog.NewInMemoryEventLog 100 no_filter) = Ok l'.
Proof.
  apply (Stream_feeds_log (client_of_nodes insertion_sort nodes_reorg_145) 2 100
           default_streamer (InMemoryEventLog.NewInMemoryEventLog 100 no_filter)).
  - apply nodes_honest.
    + apply insertion_sort_sorts.
    + intros [|k]; apply node_at_in_range.
    + intros [|k] head [= <-]; unfold uint64_modulus; lia.
  - reflexivity.
  - apply EmptyBlockSlice_valid. unfold is_uint64, uint64_modulus. lia.
  - unfold InMemoryEventLog.FirstBlock. simpl. lia.
  - reflexivity.
  - simpl. lia.
  - unfold uint64_modulus. simpl. lia.
Defined.

(** ** LiveEventLog: replay, then live messages applied to the log *)

Section LiveFacts.

Import LiveEventLog.

(** The replay of an in-memory log on a channel that is never cancelled. *)
Lemma InMemoryEventLog_Stream_open (from : Z) (l : InMemoryEventLog.t) :
  InMemoryEventLog.Stream None from l =
    Ok {| C := map AppendMsg
                 (Blocks (BlockSlice.DeleteBeforeBlock from (InMemoryEventLog.blockSlice l)))
               ++ [SetNextMsg (InMemoryEventLog.NextBlock l)];
          Err := Posted None |}.
Proof.
  unfold InMemoryEventLog.Stream. rewrite stream_sends, for_each_send. simpl.
  rewrite map_id. reflexivity.
Qed.

Lemma replay_steps (bs : list Block) (e : Z) (st : state) :
  done (out st) = None ->
  for_each (map AppendMsg bs ++ [SetNextMsg e]) replay_step st =
    (Ok tt,
     {| self := self st;
        out := {| sent := sent (out st) ++ map AppendMsg bs ++ [SetNextMsg e];
                  done := None |};
        nextBlock := e |}).
Proof.
  revert st. induction bs as [|b bs IH]; intros [sf [sn dn] nb] Hd; simpl in Hd; subst dn.
  - reflexivity.
  - simpl. unfold bind at 1. unfold replay_step at 1. simpl.
    unfold bind, set_nextBlock, modify, send, sendOrDone. simpl.
    rewrite IH by reflexivity. simpl. rewrite <- app_assoc. reflexivity.
Qed.

(** The live loop on a channel that is never cancelled: the messages it has
    forwarded are the first of those it was given, they are exactly the
    messages applied to the log, and it stops early only on a message the
    log refuses. *)
Lemma live_steps (ms : list Message) (st : state) :
  done (out st) = None ->
  exists lives rest,
    ms = lives ++ rest /\
    sent (out (snd (for_each ms live_step st))) = sent (out st) ++ lives /\
    done (out (snd (for_each ms live_step st))) = None /\
    streamer (self (snd (for_each ms live_step st))) = streamer (self st) /\
    apply_messages lives (eventlog (self st))
      = Ok (eventlog (self (snd (for_each ms live_step st)))) /\
    match fst (for_each ms live_step st) with
    | Ok _ => rest = []
    | Fail e =>
        exists m rest', rest = m :: rest' /\
          apply_message m (eventlog (self (snd (for_each ms live_step st)))) = Fail e
    | Panic =>
        exists m rest', rest = m :: rest' /\
          apply_message m (eventlog (self (snd (for_each ms live_step st)))) = Panic
    end.
Proof.
  revert st. induction ms as [|m ms IH]; intros st Hd.
  - exists [], []. simpl. rewrite app_nil_r. splits; auto.
  - cbn [for_each]. unfold bind.
    assert (Hstep :
      match apply_message m (eventlog (self st)) with
      | Ok e' =>
          live_step m st =
            (Ok tt, {| self := {| eventlog := e'; streamer := streamer (self st) |};
                       out := {| sent := sent (out st) ++ [m]; done := None |};
                       nextBlock := nextBlock st |})
      | Fail e => live_step m st = (Fail e, st)
      | Panic => live_step m st = (Panic, st)
      end).
    { unfold live_step, apply_message, deref, bind, get, lift, set_eventlog, modify.
      destruct (MsgAction m); simpl.
      - destruct (MsgBlock m) as [blk|]; simpl; [|reflexivity].
        destruct (InMemoryEventLog.Append blk (eventlog (self st))); simpl; try reflexivity.
        unfold send, sendOrDone. simpl. rewrite Hd. reflexivity.
      - destruct (InMemoryEventLog.Rollback (MsgNumber m) (eventlog (self st)));
          simpl; try reflexivity.
        unfold send, sendOrDone. simpl. rewrite Hd. reflexivity.
      - destruct (InMemoryEventLog.SetNext (MsgNumber m) (eventlog (self st)));
          simpl; try reflexivity.
        unfold send, sendOrDone. simpl. rewrite Hd. reflexivity. }
    revert Hstep.
    destruct (apply_message m (eventlog (self st))) as [e'|e|] eqn:EA;
      intros Hstep; rewrite Hstep.
    + match goal with
      | |- context [for_each ms live_step ?s1] =>
          destruct (IH s1 eq_refl) as (lives & rest & Hms & Hs & Hdn & Hst & Hap & Hr)
      end.
      exists (m :: lives), rest.
      cbn [self out sent done eventlog streamer snd fst] in *.
      splits; auto.
      * cbn [app]. f_equal. exact Hms.
      * rewrite Hs, <- app_assoc. reflexivity.
      * cbn [apply_messages]. rewrite EA. cbn [rbind]. exact Hap.
    + exists [], (m :: ms). simpl. rewrite app_nil_r. splits; auto.
      exists m, ms. split; [reflexivity|exact EA].
    + exists [], (m :: ms). simpl. rewrite app_nil_r. splits; auto.
      exists m, ms. split; [reflexivity|exact EA].
Qed.

Lemma ChainStreamer_Stream_Err (cl : Client) (fuel : nat) (d : Done) (from_ : Z)
      (cr : ChainStreamer.t) (chSub : Subscription) :
  ChainStreamer.Stream cl fuel d from_ cr = Ok chSub ->
  dialError cl = None /\ exists r : result unit, Err chSub = terminal_of r.
Proof.
  unfold ChainStreamer.Stream, ChainStreamer.makeChainStreamer.
  destruct (dialError cl); [discriminate|].
  match goal with |- context [ChainStreamer.run fuel ?c] =>
    destruct (ChainStreamer.run fuel c) as [r cs'] end.
  intros [= <-]. split; [reflexivity|]. exists r. reflexivity.
Qed.

Lemma ChainStreamer_Stream_dial (cl : Client) (fuel : nat) (d : Done) (from_ : Z)
      (cr : ChainStreamer.t) :
  match ChainStreamer.Stream cl fuel d from_ cr with
  | Ok _ => dialError cl = None
  | Fail e => dialError cl = Some e
  | Panic => False
  end.
Proof.
  unfold ChainStreamer.Stream, ChainStreamer.makeChainStreamer.
  destruct (dialError cl); [reflexivity|].
  match goal with |- context [ChainStreamer.run fuel ?c] =>
    destruct (ChainStreamer.run fuel c) as [r cs'] end.
  reflexivity.
Qed.

(** The two phases of [LiveEventLog.Stream] on a channel that is never
    cancelled, against what the chain subscription delivers. *)
Lemma LiveEventLog_Stream_shape (cl : Client) (fuel : nat) (from : Z) (l : t) :
  InMemoryEventLog.FirstBlock (eventlog l) <= from ->
  match ChainStreamer.Stream cl fuel None (InMemoryEventLog.NextBlock (eventlog l))
                             (live_streamer l) with
  | Ok chSub =>
      exists (e' : InMemoryEventLog.t) (lives rest : list Message) (err : terminal),
        Stream cl fuel None from l
          = Ok ({| C := replay_of from (eventlog l) ++ lives; Err := err |},
                {| eventlog := e'; streamer := live_streamer l |}) /\
        C chSub = lives ++ rest /\
        apply_messages lives (eventlog l) = Ok e' /\
        match rest with
        | [] => err = Err chSub
        | m :: _ =>
            match apply_message m e' with
            | Ok _ => False
            | Fail e => err = Posted (Some e)
            | Panic => err = Crashed
            end
        end
  | Fail e =>
      Stream cl fuel None from l
        = Ok ({| C := replay_of from (eventlog l); Err := Posted (Some e) |},
              {| eventlog := eventlog l; streamer := live_streamer l |})
  | Panic => False
  end.
Proof.
  intros Hfrom.
  pose proof (ChainStreamer_Stream_dial cl fuel None
                (InMemoryEventLog.NextBlock (eventlog l)) (live_streamer l)) as Hdial.
  unfold Stream.
  replace (from <? InMemoryEventLog.FirstBlock (eventlog l)) with false
    by (symmetry; apply Z.ltb_ge; exact Hfrom).
  unfold stream.
  cbv [bind get lift modify set_nextBlock ret].
  cbn [self out nextBlock].
  rewrite InMemoryEventLog_Stream_open.
  cbn [C Err].
  rewrite replay_steps by reflexivity.
  cbn [self out nextBlock sent done join app].
  cbv [ret set_Filter modify].
  cbn [self out nextBlock sent done eventlog streamer].
  fold (live_streamer l). fold (replay_of from (eventlog l)).
  destruct (ChainStreamer.Stream cl fuel None (InMemoryEventLog.NextBlock (eventlog l))
                                 (live_streamer l)) as [chSub|e|] eqn:ES;
    [|reflexivity|exact Hdial].
  destruct (ChainStreamer_Stream_Err _ _ _ _ _ _ ES) as [_ [r Hr]].
  match goal with
  | |- context [for_each (C chSub) live_step ?s0] =>
      destruct (live_steps (C chSub) s0 eq_refl)
        as (lives & rest & Hms & Hs & Hdn & Hst & Hap & Hres);
      destruct (for_each (C chSub) live_step s0) as [r1 s1] eqn:EF
  end.
  cbn [self out sent done eventlog streamer snd fst] in *.
  assert (Hself : self s1 = {| eventlog := eventlog (self s1); streamer := live_streamer l |}).
  { destruct (self s1) as [e1 c1]. cbn in *. rewrite Hst. reflexivity. }
  exists (eventlog (self s1)), lives, rest.
  destruct r1 as [[]|e1|].
  - subst rest. exists (Err chSub).
    destruct (join (Err chSub) s1) as [r2 s2] eqn:EJ.
    assert (s2 = s1 /\ terminal_of r2 = Err chSub) as [-> Ht].
    { rewrite Hr in *. unfold join in EJ. destruct r as [[]|e2|]; cbn in EJ;
        cbv [ret lift] in EJ; injection EJ as <- <-; split; reflexivity. }
    rewrite Ht, Hs, <- Hself. splits; auto.
  - destruct Hres as (m & rest' & -> & Hm). exists (Posted (Some e1)).
    cbn [terminal_of]. rewrite Hs, <- Hself. splits; auto. rewrite Hm. reflexivity.
  - destruct Hres as (m & rest' & -> & Hm). exists Crashed.
    cbn [terminal_of]. rewrite Hs, <- Hself. splits; auto. rewrite Hm. reflexivity.
Qed.

End LiveFacts.

(** X20.  A live subscription that is never cancelled: the stored blocks from
    [from] on and the log's cursor come first; polling then starts at the
    log's next block with the log's filter, whatever [from] was; the live
    messages that follow are the first of the chain subscription's, and the
    log is left as these same messages make it. *)
Theorem LiveEventLog_Stream_open
        (cl : Client) (fuel : nat) (from : Z) (l : LiveEventLog.t) :
  InMemoryEventLog.FirstBlock (LiveEventLog.eventlog l) <= from ->
  exists sub l' lives,
    LiveEventLog.Stream cl fuel None from l = Ok (sub, l') /\
    C sub = replay_of from (LiveEventLog.eventlog l) ++ lives /\
    apply_messages lives (LiveEventLog.eventlog l) = Ok (LiveEventLog.eventlog l') /\
    LiveEventLog.streamer l' = live_streamer l /\
    (forall chSub,
        ChainStreamer.Stream cl fuel None
          (InMemoryEventLog.NextBlock (LiveEventLog.eventlog l)) (live_streamer l)
        = Ok chSub ->
        exists rest, C chSub = lives ++ rest) /\
    (forall e, dialError cl = Some e -> lives = [] /\ Err sub = Posted (Some e)).
Proof.
  intros Hfrom.
  pose proof (LiveEventLog_Stream_shape cl fuel from l Hfrom) as H.
  pose proof (ChainStreamer_Stream_dial cl fuel None
                (InMemoryEventLog.NextBlock (LiveEventLog.eventlog l)) (live_streamer l))
    as Hdial.
  destruct (ChainStreamer.Stream cl fuel None
              (InMemoryEventLog.NextBlock (LiveEventLog.eventlog l)) (live_streamer l))
    as [chSub|e|]; [|idtac|contradiction].
  - destruct H as (e' & lives & rest & err & HS & HC & HA & _).
    eexists _, _, lives. split; [exact HS|]. cbn [C Err LiveEventLog.eventlog
                                                   LiveEventLog.streamer].
    splits; auto.
    + intros chSub' [= <-]. exists rest. exact HC.
    + intros e He. congruence.
  - eexists _, _, []. split; [exact H|]. cbn [C Err LiveEventLog.eventlog
                                                LiveEventLog.streamer].
    rewrite app_nil_r. splits; auto.
    + discriminate.
    + intros e0 He. split; [reflexivity|congruence].
Qed.

Lemma LiveEventLog_Stream_open_witness :
  exists sub l' lives,
    LiveEventLog.Stream client_after_106 2 None 100 live_log_100_106 = Ok (sub, l') /\
    C sub = replay_of 100 (LiveEventLog.eventlog live_log_100_106) ++ lives /\
    apply_messages lives (LiveEventLog.eventlog live_log_100_106)
      = Ok (LiveEventLog.eventlog l') /\
    LiveEventLog.streamer l' = live_streamer live_log_100_106 /\
    (forall chSub,
        ChainStreamer.Stream client_after_106 2 None
          (InMemoryEventLog.NextBlock (LiveEventLog.eventlog live_log_100_106))
          (live_streamer live_log_100_106) = Ok chSub ->
        exists rest, C chSub = lives ++ rest) /\
    (forall e, dialError client_after_106 = Some e ->
               lives = [] /\ Err sub = Posted (Some e)).
Proof.
  apply (LiveEventLog_Stream_open client_after_106 2 100 live_log_100_106).
  unfold InMemoryEventLog.FirstBlock. simpl. lia.
Defined.

(** X21.  A live subscription from an honest source forwards the whole chain
    subscription.  On a channel that is never cancelled and with a log within
    the slice invariants, the subscriber gets the replay of the log from
    [from], then every message of the chain subscription started at the
    log's next block, and finds on the error channel what the chain
    subscription ends with: the log never refuses a message, and it is left
    as the chain messages make it. *)
Theorem LiveEventLog_Stream_forwards_all
        (cl : Client) (fuel : nat) (from : Z) (l : LiveEventLog.t) :
  honest cl -> dialError cl = None ->
  BlockSlice.valid (InMemoryEventLog.blockSlice (LiveEventLog.eventlog l)) ->
  InMemoryEventLog.FirstBlock (LiveEventLog.eventlog l) <= from ->
  0 <= ChainStreamer.BatchOverlap (LiveEventLog.streamer l) ->
  InMemoryEventLog.NextBlock (LiveEventLog.eventlog l)
    + (if ChainStreamer.BatchOverlap (LiveEventLog.streamer l) =? 0
       then DefaultBatchOverlap
       else ChainStreamer.BatchOverlap (LiveEventLog.streamer l)) < uint64_modulus ->
  exists chSub e',
    ChainStreamer.Stream cl fuel None
      (InMemoryEventLog.NextBlock (LiveEventLog.eventlog l)) (live_streamer l) = Ok chSub /\
    LiveEventLog.Stream cl fuel None from l
      = Ok ({| C := replay_of from (LiveEventLog.eventlog l) ++ C chSub;
               Err := Err chSub |},
            {| LiveEventLog.eventlog := e'; LiveEventLog.streamer := live_streamer l |}) /\
    apply_messages (C chSub) (LiveEventLog.eventlog l) = Ok e'.
Proof.
  intros Hh Hdial Hv Hfrom Hbo Hov.
  pose proof (LiveEventLog_Stream_shape cl fuel from l Hfrom) as H.
  destruct (Stream_feeds cl fuel (InMemoryEventLog.NextBlock (LiveEventLog.eventlog l))
              (live_streamer l) (LiveEventLog.eventlog l) Hh Hdial Hv)
    as (chSub & l1 & HS & HA); auto.
  { pose proof (BlockSlice.valid_window _ Hv).
    unfold InMemoryEventLog.FirstBlock, InMemoryEventLog.NextBlock. assumption. }
  rewrite HS in H. destruct H as (e' & lives & rest & err & HL & HC & HAl & Hrest).
  rewrite HC, apply_messages_app, HAl in HA. cbn [rbind] in HA.
  destruct rest as [|m rest'].
  - rewrite app_nil_r in HC. subst err. rewrite <- HC in HL.
    exists chSub, e'. splits; auto. rewrite HC. exact HAl.
  - exfalso. cbn [apply_messages] in HA.
    destruct (apply_message m e'); [contradiction|discriminate|discriminate].
Qed.

Lemma LiveEventLog_Stream_forwards_all_witness :
  exists chSub e',
    ChainStreamer.Stream (client_of_nodes insertion_sort nodes_reorg_145) 2 None
      (InMemoryEventLog.NextBlock (LiveEventLog.eventlog live_log_100_106))
      (live_streamer live_log_100_106) = Ok chSub /\
    LiveEventLog.Stream (client_of_nodes insertion_sort nodes_reorg_145) 2 None 100
                        live_log_100_106
      = Ok ({| C := replay_of 100 (LiveEventLog.eventlog live_log_100_106) ++ C chSub;
               Err := Err chSub |},
            {| LiveEventLog.eventlog := e';
               LiveEventLog.streamer := live_streamer live_log_100_106 |}) /\
    apply_messages (C chSub) (LiveEventLog.eventlog live_log_100_106) = Ok e'.
Proof.
  apply (LiveEventLog_Stream_forwards_all
           (client_of_nodes insertion_sort nodes_reorg_145) 2 100 live_log_100_106).
  - apply nodes_honest.
    + apply insertion_sort_sorts.
    + intros [|k]; apply node_at_in_range.
    + intros [|k] head [= <-]; unfold uint64_modulus; lia.
  - reflexivity.
  - exact slice_100_106_valid.
  - unfold InMemoryEventLog.FirstBlock. simpl. lia.
  - simpl. lia.
  - unfold uint64_modulus. simpl. lia.
Defined.

(** ** AddTransactionData: one lookup per transaction *)

Section TransactionFacts.

Import events.

Lemma map_get_head {V} (m : list (common.Hash * V)) (h : common.Hash) (v : V) :
  map_get ((h, v) :: m) h = Some v.
Proof.
  simpl. replace (bytes_Equal h h) with true; [reflexivity|].
  symmetry. apply bytes_Equal_eq. reflexivity.
Qed.

Lemma map_get_other {V} (m : list (common.Hash * V)) (h k : common.Hash) (v : V) :
  h <> k -> map_get ((h, v) :: m) k = map_get m k.
Proof.
  intros Hne. simpl. destruct (bytes_Equal h k) eqn:E; [|reflexivity].
  apply bytes_Equal_eq in E. contradiction.
Qed.

Lemma hash_eq_dec (h k : common.Hash) : h = k \/ h <> k.
Proof.
  destruct (bytes_Equal h k) eqn:E.
  - left. apply bytes_Equal_eq. exact E.
  - right. intros Heq. apply bytes_Equal_eq in Heq. congruence.
Qed.

Lemma extends_refl st : extends st st.
Proof. split; [|split]; auto. apply incl_refl. Qed.

Lemma extends_trans a b c : extends a b -> extends b c -> extends a c.
Proof.
  intros (H1 & H2 & H3) (H4 & H5 & H6). split; [|split]; auto.
  eapply incl_tran; eassumption.
Qed.

Lemma filled_extends st st' e : extends st st' -> filled st e -> filled st' e.
Proof.
  intros (H1 & H2 & _) (tx & sender & Ht & Hs & Hrest).
  exists tx, sender. splits; auto; apply Hrest.
Qed.

Lemma filled_asked st e : memoized st -> filled st e -> In (TxHash e) (asked st).
Proof.
  intros (_ & Hkeys & _) (tx & _ & Ht & _). apply Hkeys. congruence.
Qed.

Lemma with_transaction_Log e tx sender : Event_Log (with_transaction e tx sender) = Event_Log e.
Proof. reflexivity. Qed.

(** One call of [getTransaction] from memoized maps. *)
Lemma getTransaction_spec (c : ethclient.Client) (e : Event) (st : lookups) :
  memoized st ->
  NoDup (asked (snd (getTransaction c e st))) /\
  (forall h, In h (asked (snd (getTransaction c e st))) ->
             In h (asked st) \/ h = TxHash e) /\
  match fst (getTransaction c e st) with
  | Ok (tx, sender) =>
      memoized (snd (getTransaction c e st)) /\
      extends st (snd (getTransaction c e st)) /\
      filled (snd (getTransaction c e st)) (with_transaction e tx sender)
  | _ => True
  end.
Proof.
  intros (Hnd & Hkeys & Hsend). unfold getTransaction.
  destruct (map_get (transactions st) (TxHash e)) as [tx|] eqn:Ec.
  - cbn [fst snd]. splits; auto.
    + split; [exact Hnd|split; [exact Hkeys|exact Hsend]].
    + apply extends_refl.
    + destruct (map_get (transactionSenders st) (TxHash e)) as [a|] eqn:Ea.
      * exists tx, a. splits; auto.
      * apply Hsend in Ea. congruence.
  - assert (Hnew : ~ In (TxHash e) (asked st)).
    { intros Hin. apply Hkeys in Hin. contradiction. }
    assert (Hnd' : NoDup (asked st ++ [TxHash e])).
    { apply NoDup_app; [exact Hnd|repeat constructor; simpl; tauto|].
      intros x Hx [<-|[]]. contradiction. }
    assert (Hin' : forall h, In h (asked st ++ [TxHash e]) ->
                             In h (asked st) \/ h = TxHash e).
    { intros h Hh. apply in_app_or in Hh. destruct Hh as [Hh|[<-|[]]]; auto. }
    cbv zeta.
    destruct (ethclient.TransactionByHash c (length (asked st)) (TxHash e)) as [tx|err|];
      cbn [fst snd asked].
    2,3: splits; auto.
    set (r := ethclient.TransactionSender c (length (asked st)) tx (BlockHash e) (TxIndex e)).
    assert (Hgoal : forall sender,
      let st' := {| transactions := (TxHash e, tx) :: transactions st;
                    transactionSenders := (TxHash e, sender) :: transactionSenders st;
                    asked := asked st ++ [TxHash e] |} in
      memoized st' /\ extends st st' /\ filled st' (with_transaction e tx sender)).
    { intros sender st'. subst st'. unfold memoized, extends, filled.
      cbn [transactions transactionSenders asked with_transaction TxHash TxData TxValue
           TxGas TxFrom].
      splits; auto.
      - intros h. split.
        + intros Hh. destruct (hash_eq_dec (TxHash e) h) as [<-|Hne].
          * rewrite map_get_head. discriminate.
          * rewrite map_get_other by exact Hne. apply Hkeys.
            apply Hin' in Hh. destruct Hh as [Hh|Hh]; [exact Hh|congruence].
        + intros Hh. apply in_or_app. destruct (hash_eq_dec (TxHash e) h) as [<-|Hne].
          * right. left. reflexivity.
          * left. apply Hkeys. rewrite map_get_other in Hh by exact Hne. exact Hh.
      - intros h. destruct (hash_eq_dec (TxHash e) h) as [<-|Hne].
        + rewrite !map_get_head. split; discriminate.
        + rewrite !map_get_other by exact Hne. apply Hsend.
      - intros h v Hv. destruct (hash_eq_dec (TxHash e) h) as [<-|Hne].
        + congruence.
        + rewrite map_get_other by exact Hne. exact Hv.
      - intros h v Hv. destruct (hash_eq_dec (TxHash e) h) as [<-|Hne].
        + apply Hsend in Ec. congruence.
        + rewrite map_get_other by exact Hne. exact Hv.
      - apply incl_appl, incl_refl.
      - exists tx, sender. rewrite !map_get_head. splits; reflexivity. }
    destruct r as [a|err|]; cbn [fst snd asked]; splits; auto; apply Hgoal.
Qed.

Lemma add_events_frame (c : ethclient.Client) (es : list Event) (st : lookups) :
  map Event_Log (snd (fst (add_events c es st))) = map Event_Log es.
Proof.
  revert st. induction es as [|e es IH]; intros st; [reflexivity|].
  cbn [add_events].
  destruct (getTransaction c e st) as [[[tx sender]|err|] st1]; try reflexivity.
  specialize (IH st1). destruct (add_events c es st1) as [[r es'] st2].
  cbn [fst snd] in *. cbn [map]. rewrite IH. reflexivity.
Qed.

Lemma add_events_spec (c : ethclient.Client) (es : list Event) (st : lookups) :
  memoized st ->
  NoDup (asked (snd (add_events c es st))) /\
  (forall h, In h (asked (snd (add_events c es st))) ->
             In h (asked st) \/ exists e, In e es /\ TxHash e = h) /\
  match fst (fst (add_events c es st)) with
  | Ok _ =>
      memoized (snd (add_events c es st)) /\
      extends st (snd (add_events c es st)) /\
      Forall (filled (snd (add_events c es st))) (snd (fst (add_events c es st)))
  | _ => True
  end.
Proof.
  revert st. induction es as [|e es IH]; intros st Hm.
  - cbn. splits; auto; [apply Hm|apply extends_refl].
  - cbn [add_events].
    destruct (getTransaction_spec c e st Hm) as (G1 & G2 & G3).
    destruct (getTransaction c e st) as [[[tx sender]|err|] st1]; cbn [fst snd] in *.
    + destruct G3 as (Hm1 & Hx1 & Hf1).
      destruct (IH st1 Hm1) as (I1 & I2 & I3).
      destruct (add_events c es st1) as [[r es'] st2]. cbn [fst snd] in *.
      splits; auto.
      * intros h Hh. destruct (I2 h Hh) as [Hh1|(e' & He' & <-)].
        -- destruct (G2 h Hh1) as [?| ->]; [left; assumption|].
           right. exists e. split; [left; reflexivity|reflexivity].
        -- right. exists e'. split; [right; exact He'|reflexivity].
      * destruct r as [u|err|]; auto.
        destruct I3 as (Hm2 & Hx2 & Hf2). splits; auto.
        -- eapply extends_trans; eassumption.
        -- constructor; [|exact Hf2]. eapply filled_extends; eassumption.
    + splits; auto. intros h Hh. destruct (G2 h Hh) as [?| ->]; [left; assumption|].
      right. exists e. split; [left; reflexivity|reflexivity].
    + splits; auto. intros h Hh. destruct (G2 h Hh) as [?| ->]; [left; assumption|].
      right. exists e. split; [left; reflexivity|reflexivity].
Qed.

Lemma add_blocks_frame (c : ethclient.Client) (bs : list Block) (st : lookups) :
  map block_logs (snd (fst (add_blocks c bs st))) = map block_logs bs.
Proof.
  revert st. induction bs as [|b bs IH]; intros st; [reflexivity|].
  cbn [add_blocks].
  pose proof (add_events_frame c (Events b) st) as HF.
  destruct (add_events c (Events b) st) as [[r es] st1]. cbn [fst snd] in HF.
  destruct r as [u|err|].
  - specialize (IH st1). destruct (add_blocks c bs st1) as [[r' rest'] st2].
    cbn [fst snd] in *. cbn [map]. rewrite IH. unfold block_logs at 1 3.
    cbn [Number Hash Events]. rewrite HF. reflexivity.
  - cbn [fst snd map]. unfold block_logs at 1 3. cbn [Number Hash Events].
    rewrite HF. reflexivity.
  - cbn [fst snd map]. unfold block_logs at 1 3. cbn [Number Hash Events].
    rewrite HF. reflexivity.
Qed.

Lemma add_blocks_spec (c : ethclient.Client) (bs : list Block) (st : lookups) :
  memoized st ->
  NoDup (asked (snd (add_blocks c bs st))) /\
  (forall h, In h (asked (snd (add_blocks c bs st))) ->
             In h (asked st) \/
             exists b e, In b bs /\ In e (Events b) /\ TxHash e = h) /\
  match fst (fst (add_blocks c bs st)) with
  | Ok _ =>
      memoized (snd (add_blocks c bs st)) /\
      extends st (snd (add_blocks c bs st)) /\
      Forall (fun b => Forall (filled (snd (add_blocks c bs st))) (Events b))
             (snd (fst (add_blocks c bs st)))
  | _ => True
  end.
Proof.
  revert st. induction bs as [|b bs IH]; intros st Hm.
  - cbn. splits; auto; [apply Hm|apply extends_refl].
  - cbn [add_blocks].
    destruct (add_events_spec c (Events b) st Hm) as (G1 & G2 & G3).
    assert (G2' : forall h, In h (asked (snd (add_events c (Events b) st))) ->
                  In h (asked st) \/
                  exists b0 e, In b0 (b :: bs) /\ In e (Events b0) /\ TxHash e = h).
    { intros h Hh. destruct (G2 h Hh) as [?|(e & He & <-)]; [left; assumption|].
      right. exists b, e. split; [left; reflexivity|split; [exact He|reflexivity]]. }
    clear G2.
    destruct (add_events c (Events b) st) as [[r es] st1]. cbn [fst snd] in *.
    destruct r as [u|err|]; cbn [fst snd]; [|splits; auto|splits; auto].
    destruct G3 as (Hm1 & Hx1 & Hf1).
    destruct (IH st1 Hm1) as (I1 & I2 & I3).
    destruct (add_blocks c bs st1) as [[r' rest'] st2]. cbn [fst snd] in *.
    splits; auto.
    + intros h Hh. destruct (I2 h Hh) as [Hh1|(b0 & e & Hb0 & He & <-)].
      * apply G2'. exact Hh1.
      * right. exists b0, e. split; [right; exact Hb0|split; [exact He|reflexivity]].
    + destruct r' as [u'|err|]; auto.
      destruct I3 as (Hm2 & Hx2 & Hf2). splits; auto.
      * eapply extends_trans; eassumption.
      * constructor; [|exact Hf2]. cbn [Events].
        eapply Forall_impl; [|exact Hf1]. intros e He.
        eapply filled_extends; eassumption.
Qed.

Lemma no_lookups_memoized : memoized no_lookups.
Proof.
  unfold memoized, no_lookups. cbn. splits.
  - constructor.
  - intros h. split; [intros []|intros H; apply H; reflexivity].
  - intros h. tauto.
Qed.

End TransactionFacts.

Lemma increasing_numbers (bs bs' : list Block) :
  map Number bs = map Number bs' ->
  BlockSlice.increasing bs -> BlockSlice.increasing bs'.
Proof.
  unfold BlockSlice.increasing. revert bs'.
  induction bs as [|b bs IH]; intros [|b' bs'] Hmap Hinc; try discriminate;
    [constructor|].
  cbn [map] in Hmap. injection Hmap as Hn Hrest.
  inversion Hinc as [|? ? Hs Hall]; subst.
  constructor; [apply IH; assumption|].
  apply (Forall_map Number (fun n => Number b' < n)).
  rewrite <- Hrest, <- Hn.
  apply (Forall_map Number (fun n => Number b < n)). exact Hall.
Qed.

(** X22.  [AddTransactionData] touches nothing but the transaction fields,
    whether it succeeds or not: the window and the freshness hint of the
    slice, the number and hash of each block and the log of each event are
    what they were, and a slice within the invariants stays within them. *)
Theorem AddTransactionData_frame (c : ethclient.Client) (bs : BlockSlice) :
  Start (snd (fst (events.AddTransactionData c bs))) = Start bs /\
  End_ (snd (fst (events.AddTransactionData c bs))) = End_ bs /\
  DistanceFromHead (snd (fst (events.AddTransactionData c bs))) = DistanceFromHead bs /\
  map block_logs (Blocks (snd (fst (events.AddTransactionData c bs))))
    = map block_logs (Blocks bs) /\
  (BlockSlice.valid bs -> BlockSlice.valid (snd (fst (events.AddTransactionData c bs)))).
Proof.
  unfold events.AddTransactionData.
  pose proof (add_blocks_frame c (Blocks bs) events.no_lookups) as HF.
  destruct (events.add_blocks c (Blocks bs) events.no_lookups) as [[r blocks] st].
  cbn [fst snd Start End_ DistanceFromHead Blocks] in *.
  splits; auto.
  assert (Hn : map Number (Blocks bs) = map Number blocks).
  { apply (f_equal (map (fun t => fst (fst t)))) in HF.
    rewrite !map_map in HF. symmetry. exact HF. }
  intros [Hs He Hd Hw Hinc Hin].
  constructor; cbn [Start End_ DistanceFromHead Blocks]; auto.
  - apply (increasing_numbers _ _ Hn Hinc).
  - apply (Forall_map Number (fun n => Start bs <= n < End_ bs)).
    rewrite <- Hn. apply (Forall_map Number (fun n => Start bs <= n < End_ bs)).
    exact Hin.
Qed.

(** X23.  [AddTransactionData] looks a transaction up at most once, whether it
    succeeds or not: the hashes it asked the node for are all different, and
    each is the transaction hash of an event of the slice. *)
Theorem AddTransactionData_asks_once (c : ethclient.Client) (bs : BlockSlice) :
  NoDup (events.asked (snd (events.AddTransactionData c bs))) /\
  forall h, In h (events.asked (snd (events.AddTransactionData c bs))) ->
            exists b e, In b (Blocks bs) /\ In e (Events b) /\ TxHash e = h.
Proof.
  unfold events.AddTransactionData.
  destruct (add_blocks_spec c (Blocks bs) events.no_lookups no_lookups_memoized)
    as (H1 & H2 & _).
  destruct (events.add_blocks c (Blocks bs) events.no_lookups) as [[r blocks] st].
  cbn [fst snd] in *. split; [exact H1|].
  intros h Hh. destruct (H2 h Hh) as [[]|H]. exact H.
Qed.

(** X24.  When [AddTransactionData] succeeds, the transaction of every event has
    been looked up, and two events with the same transaction hash carry the
    same transaction data, value, sender and gas, whatever the node would
    answer to a second lookup. *)
Theorem AddTransactionData_same_transaction
        (c : ethclient.Client) (bs bs' : BlockSlice) (st : events.lookups) :
  events.AddTransactionData c bs = (Ok tt, bs', st) ->
  (forall b e, In b (Blocks bs') -> In e (Events b) -> In (TxHash e) (events.asked st)) /\
  (forall b1 e1 b2 e2,
      In b1 (Blocks bs') -> In e1 (Events b1) ->
      In b2 (Blocks bs') -> In e2 (Events b2) ->
      TxHash e1 = TxHash e2 ->
      TxData e1 = TxData e2 /\ TxValue e1 = TxValue e2 /\
      TxFrom e1 = TxFrom e2 /\ TxGas e1 = TxGas e2).
Proof.
  unfold events.AddTransactionData.
  destruct (add_blocks_spec c (Blocks bs) events.no_lookups no_lookups_memoized)
    as (_ & _ & H3).
  destruct (events.add_blocks c (Blocks bs) events.no_lookups) as [[r blocks] st0].
  cbn [fst snd] in *. intros [= -> <- ->].
  destruct H3 as (Hm & _ & Hf). cbn [Blocks].
  rewrite Forall_forall in Hf.
  assert (Hfilled : forall b e, In b blocks -> In e (Events b) -> filled st e).
  { intros b e Hb He. specialize (Hf b Hb). rewrite Forall_forall in Hf. apply Hf, He. }
  split.
  - intros b e Hb He. apply (filled_asked st e Hm). apply (Hfilled b e Hb He).
  - intros b1 e1 b2 e2 Hb1 He1 Hb2 He2 Hh.
    destruct (Hfilled b1 e1 Hb1 He1) as (tx1 & s1 & T1 & S1 & D1 & V1 & G1 & F1).
    destruct (Hfilled b2 e2 Hb2 He2) as (tx2 & s2 & T2 & S2 & D2 & V2 & G2 & F2).
    rewrite Hh in T1, S1. rewrite T1 in T2. rewrite S1 in S2.
    injection T2 as <-. injection S2 as <-.
    splits; congruence.
Qed.

Lemma AddTransactionData_same_transaction_witness :
  (forall b e, In b (Blocks slice_107_108_filled) -> In e (Events b) ->
               In (TxHash e) (events.asked lookups_107_108)) /\
  (forall b1 e1 b2 e2,
      In b1 (Blocks slice_107_108_filled) -> In e1 (Events b1) ->
      In b2 (Blocks slice_107_108_filled) -> In e2 (Events b2) ->
      TxHash e1 = TxHash e2 ->
      TxData e1 = TxData e2 /\ TxValue e1 = TxValue e2 /\
      TxFrom e1 = TxFrom e2 /\ TxGas e1 = TxGas e2).
Proof.
  apply (AddTransactionData_same_transaction node_with_tx slice_107_108
           slice_107_108_filled lookups_107_108).
  reflexivity.
Defined.

(** ** The codec outside the round trip *)

Section CodecEdges.

Lemma set_bytes_length (n : nat) (b : list byte) : length (common.set_bytes n b) = n.
Proof.
  unfold common.set_bytes. cbv zeta.
  rewrite length_app, repeat_length, length_skipn. lia.
Qed.

Lemma map_result_Ok {A B} (f : A -> result B) (l : list A) (ys : list B) :
  map_result f l = Ok ys -> Forall2 (fun x y => f x = Ok y) l ys.
Proof.
  revert ys. induction l as [|x l IH]; intros ys; simpl.
  - intros [= <-]. constructor.
  - destruct (f x) as [y|e|] eqn:E; simpl; try discriminate.
    destruct (map_result f l) as [ys'|e|]; simpl; try discriminate.
    intros [= <-]. constructor; [exact E|apply IH; reflexivity].
Qed.

Lemma EventFromProto_sized (pb : epb.Event) (e : Event) :
  EventFromProto pb = Ok e -> well_sized e /\ Address e = epb.Address pb.
Proof.
  unfold EventFromProto.
  destruct (length (epb.Address pb) =? common.AddressLength)%nat eqn:E;
    simpl; [|discriminate].
  apply Nat.eqb_eq in E.
  destruct (BigIntFromString (epb.TxValue pb)) as [v|err|]; simpl; try discriminate.
  intros [= <-]. unfold well_sized, common.wf_Address, common.wf_Hash,
                   common.BytesToAddress, common.BytesToHash. simpl.
  splits; try apply set_bytes_length.
  - apply Forall_forall. intros h Hh. apply in_map_iff in Hh.
    destruct Hh as (x & <- & _). apply set_bytes_length.
  - apply set_bytes_exact. exact E.
Qed.

Lemma BlockFromProto_sized (pb : epb.Block) (b : Block) :
  BlockFromProto pb = Ok b ->
  Number b = epb.Number pb /\ common.wf_Hash (Hash b) /\ Forall well_sized (Events b).
Proof.
  unfold BlockFromProto.
  destruct (map_result (fun pbe => deref pbe EventFromProto) (epb.Events pb))
    as [es|err|] eqn:E; simpl; try discriminate.
  intros [= <-]. simpl. splits; auto.
  - apply set_bytes_length.
  - apply map_result_Ok in E. induction E as [|x y l l' Hxy _ IH]; constructor; auto.
    destruct x as [pbe|]; simpl in Hxy; [|discriminate].
    apply (EventFromProto_sized pbe y Hxy).
Qed.

(** The encoding of a slice that holds a block at or past its end: the
    blocks before the first such block, then nil entries. *)
Lemma blocks_to_proto_past_end (end_ : Z) (bs : list Block) :
  Exists (fun b => end_ <= Number b) bs ->
  exists pre n,
    blocks_to_proto end_ bs
      = map (fun b => Some (BlockToProto b)) pre ++ repeat None (S n) /\
    incl pre bs.
Proof.
  induction bs as [|b rest IH]; intros Hex; [inversion Hex|].
  cbn [blocks_to_proto]. destruct (end_ <=? Number b) eqn:E.
  - exists [], (length rest). split; [reflexivity|]. intros x [].
  - apply Z.leb_gt in E.
    inversion Hex as [? ? Hb|? ? Hrest]; subst; [lia|].
    destruct (IH Hrest) as (pre & n & Heq & Hincl).
    exists (b :: pre), n. rewrite Heq. split; [reflexivity|].
    intros x [<-|Hx]; [left; reflexivity|right; apply Hincl; exact Hx].
Qed.

Lemma map_result_nil_entry {A B} (f : A -> result B) (pre : list (option A))
      (rest : list (option A)) :
  (forall ys, map_result (fun p => deref p f) (pre ++ None :: rest) <> Ok ys) /\
  ((exists xs, map_result (fun p => deref p f) pre = Ok xs) ->
   map_result (fun p => deref p f) (pre ++ None :: rest) = Panic).
Proof.
  induction pre as [|p pre [IH1 IH2]]; cbn [app map_result].
  - split; [intros ys; discriminate|reflexivity].
  - destruct (deref p f) as [y|e|]; cbn [rbind].
    + split.
      * intros ys.
        destruct (map_result (fun p0 => deref p0 f) (pre ++ None :: rest)) as [zs|e|] eqn:E;
          cbn [rbind]; try discriminate.
        exfalso. apply (IH1 zs). reflexivity.
      * intros [xs Hxs].
        destruct (map_result (fun p0 => deref p0 f) pre) as [zs|e|] eqn:E;
          cbn [rbind] in Hxs; try discriminate.
        rewrite IH2 by (exists zs; reflexivity). reflexivity.
    + split; [intros ys; discriminate|intros [xs Hxs]; discriminate].
    + split; [intros ys; discriminate|reflexivity].
Qed.

End CodecEdges.

(** X25.  A snapshot taken of a slice that holds a block at or past its end cannot
    be read back: the encoder stops at that block and leaves nil entries, so
    the decoder never returns a slice, and it panics when the blocks are well
    formed. *)
Theorem snapshot_past_end_not_read_back (bs : BlockSlice) :
  Exists (fun b => End_ bs <= Number b) (Blocks bs) ->
  (forall s, BlockSliceFromProto (BlockSliceToProto bs) <> Ok s) /\
  (Forall wf_Block (Blocks bs) -> BlockSliceFromProto (BlockSliceToProto bs) = Panic).
Proof.
  intros Hex. destruct (blocks_to_proto_past_end _ _ Hex) as (pre & n & Heq & Hincl).
  unfold BlockSliceFromProto, BlockSliceToProto. cbn [epb.Blocks]. rewrite Heq.
  cbn [repeat].
  destruct (map_result_nil_entry BlockFromProto
              (map (fun b => Some (BlockToProto b)) pre) (repeat None n)) as [H1 H2].
  split.
  - intros s.
    destruct (map_result (fun pbb => deref pbb BlockFromProto)
                (map (fun b => Some (BlockToProto b)) pre ++ None :: repeat None n))
      as [zs|e|] eqn:E; cbn [rbind]; try discriminate.
    exfalso. apply (H1 zs). reflexivity.
  - intros Hwf. rewrite H2; [reflexivity|].
    exists pre. apply (map_result_roundtrip (fun pbb => deref pbb BlockFromProto)
                         (fun b => Some (BlockToProto b)) wf_Block _ Block_roundtrip).
    rewrite Forall_forall in Hwf. apply Forall_forall. intros x Hx.
    apply Hwf, Hincl, Hx.
Qed.

Lemma snapshot_past_end_not_read_back_witness :
  (forall s, BlockSliceFromProto (BlockSliceToProto slice_past_end) <> Ok s) /\
  (Forall wf_Block (Blocks slice_past_end) ->
   BlockSliceFromProto (BlockSliceToProto slice_past_end) = Panic).
Proof.
  apply (snapshot_past_end_not_read_back slice_past_end).
  constructor. simpl. lia.
Defined.

(** X26.  Whatever [BlockSliceFromProto] returns has the window of the snapshot,
    one block per stored block with its number, and arrays of the lengths
    the Go types fix: block hashes, event hashes and topics of 32 bytes,
    addresses and senders of 20 bytes, even where the snapshot held shorter
    or longer ones; only the address of an event is kept as stored. *)
Theorem BlockSliceFromProto_sized (pb : epb.BlockSlice) (bs : BlockSlice) :
  BlockSliceFromProto pb = Ok bs ->
  Start bs = epb.Start pb /\ End_ bs = epb.End_ pb /\
  DistanceFromHead bs = epb.DistanceFromHead pb /\
  Forall2 (fun pbb b =>
             exists p, pbb = Some p /\ Number b = epb.Number p /\
                       common.wf_Hash (Hash b) /\ Forall well_sized (Events b))
          (epb.Blocks pb) (Blocks bs).
Proof.
  unfold BlockSliceFromProto.
  destruct (map_result (fun pbb => deref pbb BlockFromProto) (epb.Blocks pb))
    as [blocks|e|] eqn:E; simpl; try discriminate.
  intros [= <-]. simpl. splits; auto.
  apply map_result_Ok in E.
  induction E as [|x y l l' Hxy _ IH]; constructor; auto.
  destruct x as [p|]; simpl in Hxy; [|discriminate].
  exists p. split; [reflexivity|]. apply (BlockFromProto_sized p y Hxy).
Qed.

Lemma BlockSliceFromProto_sized_witness :
  Start slice_100_106 = epb.Start snapshot_short_hash /\
  End_ slice_100_106 = epb.End_ snapshot_short_hash /\
  DistanceFromHead slice_100_106 = epb.DistanceFromHead snapshot_short_hash /\
  Forall2 (fun pbb b =>
             exists p, pbb = Some p /\ Number b = epb.Number p /\
                       common.wf_Hash (Hash b) /\ Forall well_sized (Events b))
          (epb.Blocks snapshot_short_hash) (Blocks slice_100_106).
Proof.
  apply (BlockSliceFromProto_sized snapshot_short_hash slice_100_106).
  reflexivity.
Defined.
